(** * Text chunking and batch orchestration of the audio generator

    A shallow embedding of the chunker ([chunkText]), the batch route
    ([generate-audio-batch/route.ts], [POST]) and the client-side batch
    scheduler and ZIP export of [src/app/page.tsx], with the properties
    the specification states about them; then of the selection
    handlers and counters of the page, of the single-chunk route
    ([generate-audio-comprehensive], [POST]) with its hexadecimal
    decoding, and of the route that serves the generated files
    ([temp-audio/[filename]/route.ts], [GET]), and of the page while
    a run awaits, with further properties read off the code. *)

From Stdlib Require Import String Ascii DecimalString.
From Stdlib Require Import List Sorted ZArith NArith Arith Lia Bool.
Import ListNotations.

Set Implicit Arguments.

(* ================================================================== *)
(** * JavaScript strings *)

(** A JavaScript string is a sequence of UTF-16 code units; [length],
    [substring], [lastIndexOf] and [trim] all count code units. *)
Module Js.

Definition char := N.
Definition jsstring := list char.

Definition of_string (s : string) : jsstring :=
  map N_of_ascii (list_ascii_of_string s).

Definition len (s : jsstring) : Z := Z.of_nat (length s).

(** The class [\s] of regular expressions, which is also the set that
    [String.prototype.trim] strips (WhiteSpace and LineTerminator):
    TAB, LF, VT, FF, CR, SP, NBSP, U+1680, U+2000..U+200A, U+2028,
    U+2029, U+202F, U+205F, U+3000, U+FEFF. *)
Definition is_ws (c : char) : bool :=
  ((9 <=? c) && (c <=? 13) || (c =? 32) || (c =? 160) || (c =? 5760)
   || (8192 <=? c) && (c <=? 8202) || (c =? 8232) || (c =? 8233)
   || (c =? 8239) || (c =? 8287) || (c =? 12288) || (c =? 65279))%N.

Definition space : char := 32%N.

(** [s.substring(a, b)]: both ends are clamped to [0, length] and
    swapped when [a > b]. *)
Definition clamp (s : jsstring) (i : Z) : nat :=
  Z.to_nat (Z.min (Z.max i 0) (len s)).

Definition substring (s : jsstring) (a b : Z) : jsstring :=
  let a' := clamp s a in
  let b' := clamp s b in
  let lo := Nat.min a' b' in
  let hi := Nat.max a' b' in
  firstn (hi - lo) (skipn lo s).

(** [s.substring(a)] *)
Definition substring_from (s : jsstring) (a : Z) : jsstring :=
  substring s a (len s).

Fixpoint trimStart (s : jsstring) : jsstring :=
  match s with
  | [] => []
  | c :: r => if is_ws c then trimStart r else s
  end.

(** The string read backwards, trimmed at its start, read backwards
    again. *)
Definition trimEnd (s : jsstring) : jsstring :=
  rev_append (trimStart (rev_append s [])) [].

Definition trim (s : jsstring) : jsstring := trimEnd (trimStart s).

(** Scan from the left, remembering the last position that holds [c]. *)
Fixpoint last_index_in (c : char) (s : jsstring) (i found : Z) : Z :=
  match s with
  | [] => found
  | x :: r => last_index_in c r (i + 1) (if N.eqb x c then i else found)
  end.

(** [s.lastIndexOf(c, fromIndex)] for a search string of one code unit:
    the largest [k <= min(max(fromIndex, 0), length - 1)] with
    [s[k] = c], or [-1]. *)
Definition lastIndexOf (s : jsstring) (c : char) (fromIndex : Z) : Z :=
  let start := Z.min (Z.max fromIndex 0) (len s - 1) in
  last_index_in c (firstn (Z.to_nat (start + 1)) s) 0 (-1).

(** JavaScript truthiness of an optional string field: [undefined],
    [null] and the empty string are falsy. *)
Definition falsy (o : option string) : bool :=
  match o with
  | None => true
  | Some s => match s with EmptyString => true | _ => false end
  end.

(** [a || b] on strings. *)
Definition or_else (o : option string) (d : string) : string :=
  match o with
  | Some (String _ _ as s) => s
  | _ => d
  end.

End Js.

(* ================================================================== *)
(** * The sentence-end regular expression *)

(** [/[.?!]\s+|[\n\r]+/g] and the loop
    [while ((match = sentenceEndChars.exec(searchSubstr)) !== null)]. *)
Module Regex.
Import Js.

Definition is_terminator (c : char) : bool :=
  ((c =? 46) || (c =? 63) || (c =? 33))%N.

Definition is_newline (c : char) : bool :=
  ((c =? 10) || (c =? 13))%N.

(** Length of the longest prefix of [s] whose units satisfy [p]
    (a greedy [+] or [*] with nothing after it). *)
Fixpoint run (p : char -> bool) (s : jsstring) : nat :=
  match s with
  | [] => 0
  | c :: r => if p c then S (run p r) else 0
  end.

(** The match anchored at the head of [s], if any: its length. The
    first alternative is tried first. *)
Definition match_here (s : jsstring) : option nat :=
  match s with
  | [] => None
  | c :: r =>
      if is_terminator c && (0 <? run is_ws r)%nat
      then Some (S (run is_ws r))
      else if is_newline c then Some (run is_newline s)
      else None
  end.

(** Leftmost match in [s], whose head sits at index [i]. *)
Fixpoint search (s : jsstring) (i : nat) : option (nat * nat) :=
  match s with
  | [] => None
  | _ :: r =>
      match match_here s with
      | Some n => Some (i, n)
      | None => search r (S i)
      end
  end.

(** The state of a global regular expression object. *)
Record RegExp := { lastIndex : nat }.

Definition fresh : RegExp := {| lastIndex := 0 |}.

(** [re.exec(s)]: the match found from [lastIndex] on, as
    [(match.index, match[0].length)], and the updated object. *)
Definition exec (re : RegExp) (s : jsstring) : option (nat * nat) * RegExp :=
  if (length s <? lastIndex re)%nat then (None, fresh)
  else
    match search (skipn (lastIndex re) s) (lastIndex re) with
    | Some (i, n) => (Some (i, n), {| lastIndex := i + n |})
    | None => (None, fresh)
    end.

(** The loop that keeps the end of the last match:
    [lastMatchPosition = currentPosition + match.index + match[0].length].
    [None] when the fuel runs out. *)
Fixpoint exec_loop (fuel : nat) (re : RegExp) (searchSubstr : jsstring)
         (currentPosition lastMatchPosition : Z) : option Z :=
  match fuel with
  | O => None
  | S fuel' =>
      match exec re searchSubstr with
      | (None, _) => Some lastMatchPosition
      | (Some (i, n), re') =>
          exec_loop fuel' re' searchSubstr currentPosition
                    (currentPosition + Z.of_nat i + Z.of_nat n)
      end
  end.

Definition lastMatch (searchSubstr : jsstring) (currentPosition : Z) : option Z :=
  exec_loop (S (length searchSubstr)) fresh searchSubstr currentPosition (-1).

End Regex.

(* ================================================================== *)
(** * The chunker *)

Module Chunker.
Import Js.
Local Open Scope Z_scope.

Record TextChunk := {
  index : nat;
  text : jsstring;
  startChar : Z;
  endChar : Z
}.

(** Outcome of one pass through the body of the [while] loop. *)
Inductive Step :=
| Break (chunks : list TextChunk)
| Continue (currentPosition : Z) (chunkIndex : nat) (chunks : list TextChunk).

Definition choose_split (text : jsstring) (currentPosition chunkEnd lastMatchPosition : Z) : Z :=
  if (lastMatchPosition >? currentPosition) && (lastMatchPosition <=? chunkEnd)
  then lastMatchPosition
  else
    let spacePosition := lastIndexOf text space chunkEnd in
    if spacePosition >? currentPosition then spacePosition + 1 else chunkEnd.

Definition loop_body (text : jsstring) (maxLength : Z)
           (currentPosition : Z) (chunkIndex : nat) (chunks : list TextChunk)
  : option Step :=
  let chunkEnd := currentPosition + maxLength in
  if chunkEnd >=? len text then
    Some (Break (chunks ++ [ {| index := chunkIndex;
                                text := substring_from text currentPosition;
                                startChar := currentPosition;
                                endChar := len text |} ]))
  else
    let searchSubstr := substring text currentPosition chunkEnd in
    match Regex.lastMatch searchSubstr currentPosition with
    | None => None
    | Some lastMatchPosition =>
        let splitPosition := choose_split text currentPosition chunkEnd lastMatchPosition in
        let chunkText := trim (substring text currentPosition splitPosition) in
        if (0 <? length chunkText)%nat then
          Some (Continue splitPosition (S chunkIndex)
                         (chunks ++ [ {| index := chunkIndex;
                                         text := chunkText;
                                         startChar := currentPosition;
                                         endChar := splitPosition |} ]))
        else Some (Continue splitPosition chunkIndex chunks)
    end.

(** [while (currentPosition < text.length) { ... }]; [None] when the
    fuel runs out. *)
Fixpoint loop (fuel : nat) (text : jsstring) (maxLength : Z)
         (currentPosition : Z) (chunkIndex : nat) (chunks : list TextChunk)
  : option (list TextChunk) :=
  match fuel with
  | O => None
  | S fuel' =>
      if currentPosition <? len text then
        match loop_body text maxLength currentPosition chunkIndex chunks with
        | None => None
        | Some (Break chunks') => Some chunks'
        | Some (Continue p i chunks') => loop fuel' text maxLength p i chunks'
        end
      else Some chunks
  end.

Definition whole (text : jsstring) : TextChunk :=
  {| index := 0; text := text; startChar := 0; endChar := len text |}.

(** [chunkText(text, maxLength)], run with [fuel] passes of the loop. *)
Definition chunkText_fuel (fuel : nat) (text : jsstring) (maxLength : Z)
  : option (list TextChunk) :=
  if (length text =? 0)%nat || (len text <=? maxLength) then Some [whole text]
  else loop fuel text maxLength 0 0%nat [].

(** Every pass moves forward by at least one code unit when
    [maxLength >= 1], so [length text + 1] passes are enough. *)
Definition chunkText (text : jsstring) (maxLength : Z) : option (list TextChunk) :=
  chunkText_fuel (S (length text)) text maxLength.

End Chunker.

(* ================================================================== *)
(** * The batch route: [POST /api/generate-audio-batch] *)

(** A computation that either returns or throws an [Error] with a
    message. *)
Inductive Outcome (A : Type) :=
| Returned (a : A)
| Thrown (message : string).

Arguments Returned {A} a.
Arguments Thrown {A} message.

Definition string_of_nat (n : nat) : string :=
  NilEmpty.string_of_uint (Nat.to_uint n).

Module Route.
Import Js.
Local Open Scope string_scope.

Record ChunkResult := {
  chunkIndex : nat;
  success : bool;
  audioUrl : option string;
  duration : option nat;
  filename : option string;
  error : option string
}.

Record ChunkError := {
  err_chunkIndex : nat;
  err_error : string
}.

(** An object of the [chunks] array. [text] is [None] when the field
    is missing or [null], in which case [chunk.text.length] throws. *)
Record ReqChunk := {
  index : nat;
  text : option jsstring
}.

(** The parsed request body. An element of [chunks] is [None] when the
    array holds [null] there; [chunks] itself is [None] when the field
    is missing or not an array. *)
Record Request := {
  chunks : option (list (option ReqChunk));
  provider : option string;
  voice : option string;
  model : option string;
  elevenLabsVoiceId : option string;
  userId : option string
}.

(** The body sent to [/api/generate-audio-comprehensive] for one chunk. *)
Record GenRequest := {
  g_text : jsstring;
  g_provider : string;
  g_chunkIndex : nat;
  g_userId : string;
  g_voice : option string;
  g_model : option string;
  g_elevenLabsVoiceId : option string
}.

Record GenData := {
  d_audioUrl : option string;
  d_duration : option nat;
  d_filename : option string
}.

(** What the [fetch] of the single-chunk endpoint does. *)
Inductive FetchOutcome :=
| FetchRejected (message : string)
    (* [fetch] itself throws *)
| NotOk (status : nat) (statusText : string) (errorData : option (option string))
    (* [!response.ok]; [errorData] is [None] when [response.json()] fails,
       else the [error] field of the parsed body *)
| OkBadBody (message : string)
    (* [response.ok], but [response.json()] throws *)
| OkData (data : GenData).

(** The external single-chunk generation, per position in the batch. *)
Definition Generator := nat -> GenRequest -> FetchOutcome.

Inductive Settled :=
| Fulfilled (value : ChunkResult)
| Rejected (reason : string).

Record BatchBody := {
  body_success : bool;
  totalChunks : nat;
  successfulChunks : nat;
  failedChunks : nat;
  results : list ChunkResult;
  errors : option (list ChunkError)
}.

Inductive Response :=
| Json (body : BatchBody)                 (* status 200 *)
| JsonError (status : nat) (error : string).

Definition failure (i : nat) (message : string) : ChunkResult :=
  {| chunkIndex := i; success := false; audioUrl := None;
     duration := None; filename := None; error := Some message |}.

(** The messages of the [TypeError]s of the engine. *)
Definition null_index : string := "Cannot read properties of null (reading 'index')".
Definition undefined_length : string :=
  "Cannot read properties of undefined (reading 'length')".

Definition gen_request (request : Request) (p : string) (c : ReqChunk) (t : jsstring)
  : GenRequest :=
  {| g_text := t;
     g_provider := p;
     g_chunkIndex := index c;
     g_userId := match userId request with Some u => u | None => "unknown_user" end;
     g_voice := if String.eqb p "minimax" then voice request else None;
     g_model := if String.eqb p "minimax" then model request else None;
     g_elevenLabsVoiceId :=
       if String.eqb p "minimax" then None
       else if String.eqb p "elevenlabs" then elevenLabsVoiceId request else None |}.

(** The body of the [async] function of [chunkPromises] for an object
    [chunk]: everything that throws inside the [try] ends in the
    [catch], which returns a failure result. *)
Definition chunk_result (request : Request) (p : string) (gen : Generator)
           (i : nat) (c : ReqChunk) : ChunkResult :=
  match text c with
  | None => failure (index c) undefined_length
  | Some t =>
      match gen i (gen_request request p c t) with
      | FetchRejected m => failure (index c) m
      | NotOk status statusText errorData =>
          let e := match errorData with
                   | None => Some "Unknown error"
                   | Some e => e
                   end in
          failure (index c)
                  (or_else e ("Generation failed: " ++ string_of_nat status
                              ++ " " ++ statusText))
      | OkBadBody m => failure (index c) m
      | OkData data =>
          {| chunkIndex := index c; success := true;
             audioUrl := d_audioUrl data;
             duration := d_duration data;
             filename := d_filename data;
             error := None |}
      end
  end.

(** One element of [chunkPromises], settled. When [chunk] is [null],
    [chunk.text] throws inside the [try] and [chunk.index] throws
    again inside the [catch]: the promise is rejected. *)
Definition chunk_promise (request : Request) (p : string) (gen : Generator)
           (i : nat) (chunk : option ReqChunk) : Settled :=
  match chunk with
  | None => Rejected null_index
  | Some c => Fulfilled (chunk_result request p gen i c)
  end.

Fixpoint mapi {A B : Type} (f : nat -> A -> B) (i : nat) (l : list A) : list B :=
  match l with
  | [] => []
  | a :: r => f i a :: mapi f (S i) r
  end.

(** [results.forEach((result, index) => ...)], pushing to
    [batchResults] and [errors]. *)
Fixpoint collect (chunks : list (option ReqChunk)) (settled : list Settled)
         (index_ : nat) (batchResults : list ChunkResult) (errors_ : list ChunkError)
  : Outcome (list ChunkResult * list ChunkError) :=
  match settled with
  | [] => Returned (batchResults, errors_)
  | Fulfilled value :: rest =>
      collect chunks rest (S index_) (batchResults ++ [value])
              (if success value then errors_
               else errors_ ++ [ {| err_chunkIndex := chunkIndex value;
                                    err_error := or_else (error value) "Unknown error" |} ])
  | Rejected reason :: rest =>
      match nth_error chunks index_ with
      | Some (Some chunk) =>
          let errorResult := failure (index chunk) (or_else (Some reason) "Unknown error") in
          collect chunks rest (S index_) (batchResults ++ [errorResult])
                  (errors_ ++ [ {| err_chunkIndex := index chunk;
                                   err_error := or_else (error errorResult) "Unknown error" |} ])
      | _ => Thrown null_index
      end
  end.

(** The [try] block of [POST], after validation. *)
Definition process (request : Request) (p : string)
           (chunks_ : list (option ReqChunk)) (gen : Generator) : Response :=
  let settled := mapi (chunk_promise request p gen) 0 chunks_ in
  match collect chunks_ settled 0 [] [] with
  | Returned (batchResults, errors_) =>
      Json {| body_success := true;
              totalChunks := length chunks_;
              successfulChunks := length (filter success batchResults);
              failedChunks := length (filter (fun r => negb (success r)) batchResults);
              results := batchResults;
              errors := match errors_ with [] => None | _ => Some errors_ end |}
  | Thrown message => JsonError 500 ("Batch processing failed: " ++ message)
  end.

Definition POST (request : Request) (gen : Generator) : Response :=
  match chunks request with
  | None | Some [] => JsonError 400 "Missing required field: chunks array"
  | Some chunks_ =>
      match provider request with
      | None | Some EmptyString => JsonError 400 "Missing required field: provider"
      | Some p =>
          if String.eqb p "minimax" then
            if falsy (voice request)
            then JsonError 400 "Missing required field 'voice' for MiniMax"
            else process request p chunks_ gen
          else if String.eqb p "elevenlabs" then
            if falsy (elevenLabsVoiceId request)
            then JsonError 400 "Missing required field 'elevenLabsVoiceId' for ElevenLabs"
            else process request p chunks_ gen
          else JsonError 400 ("Unsupported provider: " ++ p)
      end
  end.

(** The request passes the validation at the head of [POST]. *)
Definition valid (request : Request) : bool :=
  match chunks request, provider request with
  | Some (_ :: _), Some p =>
      (String.eqb p "minimax" && negb (falsy (voice request)))
      || (String.eqb p "elevenlabs" && negb (falsy (elevenLabsVoiceId request)))
  | _, _ => false
  end.

End Route.
(* ================================================================== *)
(** * The client: batch scheduler and ZIP export of [page.tsx] *)

Module Scheduler.
Import Js.
Local Open Scope string_scope.

Inductive Status := pending | generating | completed | failed.

Definition Status_eqb (a b : Status) : bool :=
  match a, b with
  | pending, pending | generating, generating
  | completed, completed | failed, failed => true
  | _, _ => false
  end.

Record AudioChunk := {
  chunkIndex : nat;
  audioUrl : string;
  duration : nat;
  filename : string;
  status : Status;
  error : option string;
  text : jsstring
}.

Record BatchProgress := {
  totalBatches : nat;
  completedBatches : nat;
  currentBatch : nat;
  totalChunks : nat;
  completedChunks : nat;
  failedChunks : nat
}.

(** The messages passed to [showMessage]; the second column of the
    comment is the [type] argument. *)
Inductive Message :=
| EnterText                       (* 'Please enter some text to generate audio', error *)
| SelectVoice                     (* 'Please select a voice', error *)
| NoTextChunks                    (* 'No text chunks to process', error *)
| Starting (batches chunks : nat) (* 'Starting batch processing: ...', info *)
| PausedByUser                    (* 'Generation paused by user', info *)
| Waiting                         (* 'Waiting 3 seconds before next batch...', info *)
| Completed (done total : nat) (clean : bool)
                                  (* 'Generation completed! ...', success if no failure, else info *)
| Paused                          (* 'Generation paused', info *)
| Resumed                         (* 'Generation resumed', info *)
| NoCompletedChunks               (* 'No completed audio chunks to download', error *)
| CreatingZip                     (* 'Creating ZIP file...', info *)
| Downloaded (files : nat).       (* 'Downloaded n audio files as ZIP', success *)



(** The state cells of the component ([useState]). *)
Record State := {
  st_text : jsstring;
  selectedProvider : string;
  selectedVoice : string;
  selectedModel : string;
  isGenerating : bool;
  isPaused : bool;
  textChunks : list Chunker.TextChunk;
  audioChunks : list AudioChunk;
  batchProgress : option BatchProgress;
  message : option Message
}.

Definition setIsGenerating (b : bool) (st : State) : State :=
  {| st_text := st_text st; selectedProvider := selectedProvider st;
     selectedVoice := selectedVoice st; selectedModel := selectedModel st;
     isGenerating := b; isPaused := isPaused st;
     textChunks := textChunks st; audioChunks := audioChunks st;
     batchProgress := batchProgress st; message := message st |}.

Definition setIsPaused (b : bool) (st : State) : State :=
  {| st_text := st_text st; selectedProvider := selectedProvider st;
     selectedVoice := selectedVoice st; selectedModel := selectedModel st;
     isGenerating := isGenerating st; isPaused := b;
     textChunks := textChunks st; audioChunks := audioChunks st;
     batchProgress := batchProgress st; message := message st |}.

(** [setAudioChunks(prev => f prev)] *)
Definition setAudioChunks (f : list AudioChunk -> list AudioChunk) (st : State) : State :=
  {| st_text := st_text st; selectedProvider := selectedProvider st;
     selectedVoice := selectedVoice st; selectedModel := selectedModel st;
     isGenerating := isGenerating st; isPaused := isPaused st;
     textChunks := textChunks st; audioChunks := f (audioChunks st);
     batchProgress := batchProgress st; message := message st |}.

(** [setBatchProgress(prev => f prev)] *)
Definition setBatchProgress (f : option BatchProgress -> option BatchProgress)
           (st : State) : State :=
  {| st_text := st_text st; selectedProvider := selectedProvider st;
     selectedVoice := selectedVoice st; selectedModel := selectedModel st;
     isGenerating := isGenerating st; isPaused := isPaused st;
     textChunks := textChunks st; audioChunks := audioChunks st;
     batchProgress := f (batchProgress st); message := message st |}.

Definition setMessage (m : option Message) (st : State) : State :=
  {| st_text := st_text st; selectedProvider := selectedProvider st;
     selectedVoice := selectedVoice st; selectedModel := selectedModel st;
     isGenerating := isGenerating st; isPaused := isPaused st;
     textChunks := textChunks st; audioChunks := audioChunks st;
     batchProgress := batchProgress st; message := m |}.

(** [showMessage(msg, type)] sets the message. For a type other than
    [error] it also starts a timer that empties the message cell 5 s
    later, whatever the cell holds by then; the timer fires outside
    the handler, as an event of the page ([Live.MessageTimeout]). *)
Definition showMessage (m : Message) (st : State) : State :=
  setMessage (Some m) st.

Definition setText (t : jsstring) (st : State) : State :=
  {| st_text := t; selectedProvider := selectedProvider st;
     selectedVoice := selectedVoice st; selectedModel := selectedModel st;
     isGenerating := isGenerating st; isPaused := isPaused st;
     textChunks := textChunks st; audioChunks := audioChunks st;
     batchProgress := batchProgress st; message := message st |}.

Definition setTextChunks (chunks : list Chunker.TextChunk) (st : State) : State :=
  {| st_text := st_text st; selectedProvider := selectedProvider st;
     selectedVoice := selectedVoice st; selectedModel := selectedModel st;
     isGenerating := isGenerating st; isPaused := isPaused st;
     textChunks := chunks; audioChunks := audioChunks st;
     batchProgress := batchProgress st; message := message st |}.

(** The defaults of the [useState] calls. *)
Definition initialState : State :=
  {| st_text := []; selectedProvider := "minimax";
     selectedVoice := "English_radiant_girl"; selectedModel := "speech-02-hd";
     isGenerating := false; isPaused := false;
     textChunks := []; audioChunks := [];
     batchProgress := None; message := None |}.

(** [TTS_PROVIDERS[provider]?.chunkSize] *)
Definition chunkSize (provider : string) : option Z :=
  if String.eqb provider "minimax" then Some 3000%Z
  else if String.eqb provider "elevenlabs" then Some 3000%Z
  else None.

(** [handleTextChange(newText)], called in the render [env]. The chunk
    size is at least 1, so [chunkText] returns. *)
Definition handleTextChange (newText : jsstring) (env : State) : State :=
  let st1 := setText newText env in
  let st2 :=
    if (0 <? length (trim newText))%nat then
      match chunkSize (selectedProvider env) with
      | Some size =>
          match Chunker.chunkText (trim newText) size with
          | Some chunks => setTextChunks chunks st1
          | None => st1
          end
      | None => st1
      end
    else setTextChunks [] st1 in
  setAudioChunks (fun _ => []) st2.

(** What lies outside the component during a run: for each batch,
    whether the [fetch] of the batch route itself rejects, what the
    single-chunk generation answers, and how many times the
    Pause/Resume button is clicked while the batch is awaited and
    while the delay after it is awaited. These are the runs during
    which the user touches nothing but that button; the runs with the
    other controls of the page in use are those of [Live]. *)
Record World := {
  transport : nat -> option string;
  generate : nat -> Route.Generator;
  clicksInFlight : nat -> nat;
  clicksInDelay : nat -> nat
}.

Definition batchSize : nat := 10.

(** [Math.ceil(n / d)] on natural numbers. *)
Definition ceil_div (n d : nat) : nat := (n + (d - 1)) / d.

(** [l.slice(a, b)] for [0 <= a], [0 <= b]. *)
Definition slice {A : Type} (l : list A) (a b : nat) : list A :=
  firstn (b - a) (skipn a l).

(** [batchChunks.some(bc => bc.index === chunk.chunkIndex)] *)
Definition inBatch (batchChunks : list Chunker.TextChunk) (chunk : AudioChunk) : bool :=
  existsb (fun bc => (Chunker.index bc =? chunkIndex chunk)%nat) batchChunks.

(** The body of [processBatch] for the closure [env]. *)
Definition batchRequest (env : State) (batchChunks : list Chunker.TextChunk)
  : Route.Request :=
  let p := selectedProvider env in
  {| Route.chunks :=
       Some (map (fun chunk => Some {| Route.index := Chunker.index chunk;
                                       Route.text := Some (Chunker.text chunk) |})
                 batchChunks);
     Route.provider := Some p;
     Route.voice := if String.eqb p "minimax" then Some (selectedVoice env) else None;
     Route.model := if String.eqb p "minimax" then Some (selectedModel env) else None;
     Route.elevenLabsVoiceId :=
       if String.eqb p "minimax" then None
       else if String.eqb p "elevenlabs" then Some (selectedVoice env) else None;
     Route.userId := Some "demo_user" |}.

Definition processBatch (env : State) (w : World)
           (batchChunks : list Chunker.TextChunk) (batchIndex : nat)
  : Outcome (list Route.ChunkResult) :=
  match transport w batchIndex with
  | Some m => Thrown m
  | None =>
      match Route.POST (batchRequest env batchChunks) (generate w batchIndex) with
      | Route.Json body => Returned (Route.results body)
      | Route.JsonError status e =>
          Thrown (or_else (Some e)
                   ("Batch " ++ string_of_nat (batchIndex + 1) ++ " failed: "
                    ++ string_of_nat status))
      end
  end.

(** [results.find(r => r.chunkIndex === chunk.chunkIndex)] *)
Definition findResult (results : list Route.ChunkResult) (chunk : AudioChunk)
  : option Route.ChunkResult :=
  find (fun r => (Route.chunkIndex r =? chunkIndex chunk)%nat) results.

Definition applyResult (results : list Route.ChunkResult) (chunk : AudioChunk)
  : AudioChunk :=
  match findResult results chunk with
  | Some result =>
      {| chunkIndex := chunkIndex chunk;
         audioUrl := or_else (Route.audioUrl result) "";
         duration := match Route.duration result with Some d => d | None => 0 end;
         filename := or_else (Route.filename result) "";
         status := if Route.success result then completed else failed;
         error := Route.error result;
         text := text chunk |}
  | None => chunk
  end.

Definition withStatus (s : Status) (chunk : AudioChunk) : AudioChunk :=
  {| chunkIndex := chunkIndex chunk; audioUrl := audioUrl chunk;
     duration := duration chunk; filename := filename chunk;
     status := s; error := error chunk; text := text chunk |}.

Definition markFailed (m : string) (chunk : AudioChunk) : AudioChunk :=
  {| chunkIndex := chunkIndex chunk; audioUrl := audioUrl chunk;
     duration := duration chunk; filename := filename chunk;
     status := failed; error := Some m; text := text chunk |}.

(** [handlePauseResume], run in the render that shows the state [st]. *)
Definition handlePauseResume (st : State) : State :=
  showMessage (if negb (isPaused st) then Paused else Resumed)
              (setIsPaused (negb (isPaused st)) st).

(** The component is live while the run awaits: [n] clicks on the
    Pause/Resume button. *)
Fixpoint userClicks (n : nat) (st : State) : State :=
  match n with
  | O => st
  | S n' => userClicks n' (handlePauseResume st)
  end.

Definition batchOf (env : State) (batchIndex : nat) : list Chunker.TextChunk :=
  let batchStart := batchIndex * batchSize in
  let batchEnd := Nat.min (batchStart + batchSize) (length (textChunks env)) in
  slice (textChunks env) batchStart batchEnd.

(** The settlement of a batch: the [try] around [processBatch] and its
    [catch]. *)
Definition settle (batchChunks : list Chunker.TextChunk) (batchIndex : nat)
           (outcome : Outcome (list Route.ChunkResult)) (st : State) : State :=
  match outcome with
  | Returned results =>
      let st1 := setAudioChunks (map (applyResult results)) st in
      let successfulResults := filter Route.success results in
      let failedResults := filter (fun r => negb (Route.success r)) results in
      setBatchProgress
        (option_map (fun prev =>
           {| totalBatches := totalBatches prev;
              completedBatches := batchIndex + 1;
              currentBatch := currentBatch prev;
              totalChunks := totalChunks prev;
              completedChunks := completedChunks prev + length successfulResults;
              failedChunks := failedChunks prev + length failedResults |}))
        st1
  | Thrown m =>
      let st1 := setAudioChunks
                   (map (fun chunk => if inBatch batchChunks chunk
                                      then markFailed m chunk else chunk)) st in
      setBatchProgress
        (option_map (fun prev =>
           {| totalBatches := totalBatches prev;
              completedBatches := batchIndex + 1;
              currentBatch := currentBatch prev;
              totalChunks := totalChunks prev;
              completedChunks := completedChunks prev;
              failedChunks := failedChunks prev + length batchChunks |}))
        st1
  end.

(** One pass through the body of the [for] loop, after the pause
    check. [env] is the render whose closure runs: [isPaused],
    [textChunks] and the selections are [const] bindings of that
    render, so the pass reads them from [env], while the functional
    updates act on the live state [st]. *)
Definition iteration (env : State) (w : World) (totalBatches_ batchIndex : nat)
           (st : State) : State :=
  let batchChunks := batchOf env batchIndex in
  let st1 := setBatchProgress
               (option_map (fun prev =>
                  {| totalBatches := totalBatches prev;
                     completedBatches := completedBatches prev;
                     currentBatch := batchIndex + 1;
                     totalChunks := totalChunks prev;
                     completedChunks := completedChunks prev;
                     failedChunks := failedChunks prev |})) st in
  let st2 := setAudioChunks
               (map (fun chunk => if inBatch batchChunks chunk
                                  then withStatus generating chunk else chunk)) st1 in
  (* await processBatch(batchChunks, batchIndex) *)
  let st3 := userClicks (clicksInFlight w batchIndex) st2 in
  let st4 := settle batchChunks batchIndex
                    (processBatch env w batchChunks batchIndex) st3 in
  if (batchIndex <? totalBatches_ - 1)%nat && negb (isPaused env) then
    (* await new Promise(resolve => setTimeout(resolve, 3000)) *)
    userClicks (clicksInDelay w batchIndex) (showMessage Waiting st4)
  else st4.

(** [for (let batchIndex = 0; batchIndex < totalBatches; batchIndex++)]
    with [remaining = totalBatches - batchIndex] passes to go. *)
Fixpoint batchLoop (env : State) (w : World) (totalBatches_ remaining batchIndex : nat)
         (st : State) : State :=
  match remaining with
  | O => st
  | S remaining' =>
      if isPaused env then showMessage PausedByUser st
      else batchLoop env w totalBatches_ remaining' (S batchIndex)
                     (iteration env w totalBatches_ batchIndex st)
  end.

(** The states after each settled batch, in order. *)
Fixpoint batchTrace (env : State) (w : World) (totalBatches_ remaining batchIndex : nat)
         (st : State) : list State :=
  match remaining with
  | O => []
  | S remaining' =>
      if isPaused env then []
      else
        let st' := iteration env w totalBatches_ batchIndex st in
        st' :: batchTrace env w totalBatches_ remaining' (S batchIndex) st'
  end.

Definition initialAudioChunks (env : State) : list AudioChunk :=
  map (fun chunk => {| chunkIndex := Chunker.index chunk; audioUrl := "";
                       duration := 0; filename := ""; status := pending;
                       error := None; text := Chunker.text chunk |})
      (textChunks env).

Definition initialProgress (env : State) : BatchProgress :=
  {| totalBatches := ceil_div (length (textChunks env)) batchSize;
     completedBatches := 0;
     currentBatch := 1;
     totalChunks := length (textChunks env);
     completedChunks := 0;
     failedChunks := 0 |}.

(** The state when the [for] loop is entered. *)
Definition started (env : State) : State :=
  let st1 := setMessage None (setIsPaused false (setIsGenerating true env)) in
  let st2 := setAudioChunks (fun _ => initialAudioChunks env) st1 in
  let st3 := setBatchProgress (fun _ => Some (initialProgress env)) st2 in
  showMessage (Starting (ceil_div (length (textChunks env)) batchSize)
                        (length (textChunks env))) st3.

(** The guards at the head of [handleGenerateAudio]. *)
Definition guard (env : State) : option Message :=
  if (length (trim (st_text env)) =? 0)%nat then Some EnterText
  else if (String.length (selectedVoice env) =? 0)%nat then Some SelectVoice
  else if (length (textChunks env) =? 0)%nat then Some NoTextChunks
  else None.

(** [handleGenerateAudio], called in the render [env]. The summary
    after the loop reads [batchProgress] of that render. *)
Definition handleGenerateAudio (env : State) (w : World) : State :=
  match guard env with
  | Some m => showMessage m env
  | None =>
      let totalBatches_ := ceil_div (length (textChunks env)) batchSize in
      let st := batchLoop env w totalBatches_ totalBatches_ 0 (started env) in
      let st' := match batchProgress env with
                 | Some finalProgress =>
                     showMessage (Completed (completedChunks finalProgress)
                                            (totalChunks finalProgress)
                                            (failedChunks finalProgress =? 0)%nat) st
                 | None => st
                 end in
      setIsPaused false (setIsGenerating false st')
  end.

(** The progress snapshots of a run: at loop entry and after every
    settled batch. *)
Definition runTrace (env : State) (w : World) : list State :=
  let totalBatches_ := ceil_div (length (textChunks env)) batchSize in
  started env :: batchTrace env w totalBatches_ totalBatches_ 0 (started env).

(** ** ZIP export *)

Definition Blob := string.

(** [s.padStart(n, '0')] *)
Definition padStart0 (n : nat) (s : string) : string :=
  string_of_list_ascii (repeat "0"%char (n - String.length s)) ++ s.

Definition entryName (chunk : AudioChunk) : string :=
  padStart0 3 (string_of_nat (chunkIndex chunk + 1)) ++ "_" ++ filename chunk.

(** The files of a [JSZip] object, by name. *)
Definition Zip := list (string * Blob).

(** [zip.file(name, data)]: a later file of the same name replaces the
    earlier one. *)
Fixpoint zipFile (name : string) (data : Blob) (zip : Zip) : Zip :=
  match zip with
  | [] => [(name, data)]
  | (n, d) :: rest =>
      if String.eqb n name then (name, data) :: rest
      else (n, d) :: zipFile name data rest
  end.

(** The [for ... of completedChunks] loop; a chunk whose [fetch] fails
    is logged and skipped. *)
Fixpoint addAll (fetchBlob : string -> option Blob) (chunks : list AudioChunk)
         (zip : Zip) : Zip :=
  match chunks with
  | [] => zip
  | chunk :: rest =>
      match fetchBlob (audioUrl chunk) with
      | Some audioBlob => addAll fetchBlob rest (zipFile (entryName chunk) audioBlob zip)
      | None => addAll fetchBlob rest zip
      end
  end.

Definition isCompleted (chunk : AudioChunk) : bool :=
  Status_eqb (status chunk) completed.

(** [handleDownloadAllAsZip]: the new state and the archive handed to
    [saveAs], if any. *)
Definition handleDownloadAllAsZip (st : State) (fetchBlob : string -> option Blob)
  : State * option Zip :=
  let completedChunks_ := filter isCompleted (audioChunks st) in
  if (length completedChunks_ =? 0)%nat then
    (showMessage NoCompletedChunks st, None)
  else
    let zip := addAll fetchBlob completedChunks_ [] in
    (showMessage (Downloaded (length completedChunks_)) st, Some zip).

End Scheduler.
(* ================================================================== *)
(** * Vocabulary of the properties *)

(** The sample input of the boundary-preference property. *)
Definition hello : Js.jsstring :=
  Js.of_string "Hello world. This is a test. Another sentence here.".

(** A string made of white space only. *)
Definition all_ws (s : Js.jsstring) : Prop := forallb Js.is_ws s = true.

(** A string with no white space in it: a single token. *)
Definition no_ws (s : Js.jsstring) : Prop := Forall (fun c => Js.is_ws c = false) s.

(** [gaps] and [texts] laid out alternately, a gap first. *)
Fixpoint weave (gaps texts : list Js.jsstring) : Js.jsstring :=
  match gaps, texts with
  | g :: gs, t :: ts => g ++ t ++ weave gs ts
  | _, _ => []
  end.

(** [t] is the texts of [cs] in order, with white space before, between
    and after them. *)
Definition covers (t : Js.jsstring) (cs : list Chunker.TextChunk) : Prop :=
  exists gaps tail,
    length gaps = length cs /\ Forall all_ws gaps /\ all_ws tail /\
    t = weave gaps (map Chunker.text cs) ++ tail.

(** The regions of the chunks follow one another without overlap. *)
Definition in_offset_order (cs : list Chunker.TextChunk) : Prop :=
  StronglySorted (fun a b => (Chunker.endChar a <= Chunker.startChar b)%Z) cs.

(** The units of a string that are not white space, in order. *)
Definition ink (s : Js.jsstring) : Js.jsstring :=
  filter (fun c => negb (Js.is_ws c)) s.

(** The runs of the [while] loop of [chunkText] as a relation: from
    [currentPosition], [chunkIndex] and the chunks pushed so far to the
    array returned. One constructor per way through the loop. *)
Module ChunkRun.
Import Js Chunker.
Local Open Scope Z_scope.

Section Run.
Variable text : jsstring.
Variable maxLength : Z.

Definition lastChunk (currentPosition : Z) (chunkIndex : nat) : TextChunk :=
  {| index := chunkIndex;
     Chunker.text := substring_from text currentPosition;
     startChar := currentPosition;
     endChar := len text |}.

Definition splitChunk (currentPosition splitPosition : Z) (chunkIndex : nat) : TextChunk :=
  {| index := chunkIndex;
     Chunker.text := trim (substring text currentPosition splitPosition);
     startChar := currentPosition;
     endChar := splitPosition |}.

Inductive Run : Z -> nat -> list TextChunk -> list TextChunk -> Prop :=
| Run_exit pos idx cs :
    len text <= pos ->
    Run pos idx cs cs
| Run_last pos idx cs :
    pos < len text ->
    len text <= pos + maxLength ->
    Run pos idx cs (cs ++ [lastChunk pos idx])
| Run_push pos idx cs lm split r :
    pos < len text ->
    pos + maxLength < len text ->
    Regex.lastMatch (substring text pos (pos + maxLength)) pos = Some lm ->
    split = choose_split text pos (pos + maxLength) lm ->
    trim (substring text pos split) <> [] ->
    Run split (S idx) (cs ++ [splitChunk pos split idx]) r ->
    Run pos idx cs r
| Run_drop pos idx cs lm split r :
    pos < len text ->
    pos + maxLength < len text ->
    Regex.lastMatch (substring text pos (pos + maxLength)) pos = Some lm ->
    split = choose_split text pos (pos + maxLength) lm ->
    trim (substring text pos split) = [] ->
    Run split idx cs r ->
    Run pos idx cs r.

(** What holds of an emitted chunk: its region lies in the input,
    its text is the region up to white space at both ends, and its
    text has at most [maxLength] units. *)
Definition chunk_ok (c : TextChunk) : Prop :=
  0 <= startChar c <= endChar c /\ endChar c <= len text /\
  (exists l r, all_ws l /\ all_ws r /\
               substring text (startChar c) (endChar c) = l ++ Chunker.text c ++ r) /\
  len (Chunker.text c) <= maxLength.

(** A hard cut: the chunk is exactly the next [maxLength] units (or
    what is left of the input). *)
Definition hard_cut (c : TextChunk) : Prop :=
  startChar c = Z.of_nat (index c) * maxLength /\
  endChar c = Z.min (startChar c + maxLength) (len text) /\
  Chunker.text c = substring text (startChar c) (endChar c).

(** The hard cuts of a token, written out: piece [i] holds the
    [maxLength] units from [i * maxLength] on, or what is left. *)
Definition cutAt (i : nat) : TextChunk :=
  {| index := i;
     Chunker.text := substring text (Z.of_nat i * maxLength)
                               (Z.min (Z.of_nat i * maxLength + maxLength) (len text));
     startChar := Z.of_nat i * maxLength;
     endChar := Z.min (Z.of_nat i * maxLength + maxLength) (len text) |}.

(** [ceil(length / maxLength)] pieces, and one for the empty input. *)
Definition pieces : nat :=
  Z.to_nat (Z.max 1 ((len text + maxLength - 1) / maxLength)).

Definition hardCuts : list TextChunk := map cutAt (seq 0 pieces).

End Run.

(** The text of a chunk is non-empty and already trimmed. *)
Definition trimmed (c : TextChunk) : Prop :=
  Chunker.text c <> [] /\ trim (Chunker.text c) = Chunker.text c.

End ChunkRun.

(** Each element of [a :: l] is related to the next one. *)
Fixpoint chain {A : Type} (R : A -> A -> Prop) (a : A) (l : list A) : Prop :=
  match l with
  | [] => True
  | b :: r => R a b /\ chain R b r
  end.

(** A job that has reached [completed] or [failed]. *)
Definition terminal (a : Scheduler.AudioChunk) : Prop :=
  Scheduler.status a = Scheduler.completed \/ Scheduler.status a = Scheduler.failed.

(** The counters of the second progress do not fall below the first. *)
Definition counters_grow (s s' : Scheduler.State) : Prop :=
  match Scheduler.batchProgress s, Scheduler.batchProgress s' with
  | Some p, Some p' =>
      Scheduler.completedChunks p <= Scheduler.completedChunks p' /\
      Scheduler.failedChunks p <= Scheduler.failedChunks p'
  | _, _ => False
  end.

(** The counters stay within [totalChunks], which is the number of text
    chunks of the run. *)
Definition counters_bounded (env s : Scheduler.State) : Prop :=
  match Scheduler.batchProgress s with
  | Some p =>
      Scheduler.totalChunks p = length (Scheduler.textChunks env) /\
      Scheduler.completedChunks p + Scheduler.failedChunks p <= Scheduler.totalChunks p
  | None => False
  end.

(** After [k] passes of the batch loop the counters add up to the chunks
    of the first [k] batches. *)
Definition sum_is (env : Scheduler.State) (k : nat) (st : Scheduler.State) : Prop :=
  exists p, Scheduler.batchProgress st = Some p /\
            Scheduler.totalChunks p = length (Scheduler.textChunks env) /\
            Scheduler.completedChunks p + Scheduler.failedChunks p
            = Nat.min (k * Scheduler.batchSize) (length (Scheduler.textChunks env)).

(** The jobs are those of the text chunks, and the jobs of the first [k]
    batches are terminal. *)
Definition settled_upto (env : Scheduler.State) (k : nat) (st : Scheduler.State) : Prop :=
  map Scheduler.chunkIndex (Scheduler.audioChunks st)
  = map Chunker.index (Scheduler.textChunks env) /\
  Forall (fun a =>
            Scheduler.inBatch (firstn (k * Scheduler.batchSize) (Scheduler.textChunks env)) a
            = true -> terminal a)
         (Scheduler.audioChunks st).

(** The world [w] with other clicks on the Pause/Resume button. *)
Definition with_clicks (inFlight inDelay : nat -> nat) (w : Scheduler.World)
  : Scheduler.World :=
  {| Scheduler.transport := Scheduler.transport w;
     Scheduler.generate := Scheduler.generate w;
     Scheduler.clicksInFlight := inFlight;
     Scheduler.clicksInDelay := inDelay |}.

(** Sample requests, generators and runs. *)
Module Samples.
Import Js.
Local Open Scope string_scope.

Definition sample_data : Route.GenData :=
  {| Route.d_audioUrl := Some "/api/temp-audio/a.mp3";
     Route.d_duration := Some 3;
     Route.d_filename := Some "a.mp3" |}.

Definition always_ok : Route.Generator := fun _ _ => Route.OkData sample_data.

Definition sample_request (chunks_ : list (option Route.ReqChunk)) : Route.Request :=
  {| Route.chunks := Some chunks_;
     Route.provider := Some "minimax";
     Route.voice := Some "English_radiant_girl";
     Route.model := Some "speech-02-hd";
     Route.elevenLabsVoiceId := None;
     Route.userId := Some "demo_user" |}.

(** The state after a single token of 60001 letters is typed into the
    fresh component: 21 chunks, hence 3 batches. *)
Definition long_token : jsstring := repeat 97%N (20 * 3000 + 1).

Definition typed_env : Scheduler.State :=
  Scheduler.handleTextChange long_token Scheduler.initialState.

(** Every generation succeeds; Pause is clicked once while the first
    batch is in flight, that is, before the second batch. *)
Definition pause_world : Scheduler.World :=
  {| Scheduler.transport := fun _ => None;
     Scheduler.generate := fun _ => always_ok;
     Scheduler.clicksInFlight := fun k => match k with 0 => 1 | _ => 0 end;
     Scheduler.clicksInDelay := fun _ => 0 |}.

(** The [fetch] of the second batch is rejected. *)
Definition broken_world : Scheduler.World :=
  {| Scheduler.transport := fun k => match k with 1 => Some "Failed to fetch" | _ => None end;
     Scheduler.generate := fun _ => always_ok;
     Scheduler.clicksInFlight := fun _ => 0;
     Scheduler.clicksInDelay := fun _ => 0 |}.


Definition fetch_all : string -> option Scheduler.Blob := fun _ => Some "ID3".

End Samples.


(* ================================================================== *)
(** * Vocabulary of the further properties *)

(** The providers of [TTS_PROVIDERS], which are also those the routes
    accept. *)
Definition knownProvider (p : string) : Prop :=
  p = "minimax"%string \/ p = "elevenlabs"%string.

(** The chunk of a batch as the client sends it to the batch route. *)
Definition sentChunk (c : Chunker.TextChunk) : Route.ReqChunk :=
  {| Route.index := Chunker.index c; Route.text := Some (Chunker.text c) |}.

(** The job that [handleGenerateAudio] creates for a text chunk. *)
Definition initialJob (c : Chunker.TextChunk) : Scheduler.AudioChunk :=
  {| Scheduler.chunkIndex := Chunker.index c; Scheduler.audioUrl := "";
     Scheduler.duration := 0; Scheduler.filename := "";
     Scheduler.status := Scheduler.pending; Scheduler.error := None;
     Scheduler.text := Chunker.text c |}.

(** What the pass of the batch loop for batch [k] does to one job. *)
Definition passJob (env : Scheduler.State) (w : Scheduler.World) (k : nat)
           (a : Scheduler.AudioChunk) : Scheduler.AudioChunk :=
  let a' := if Scheduler.inBatch (Scheduler.batchOf env k) a
            then Scheduler.withStatus Scheduler.generating a else a in
  match Scheduler.processBatch env w (Scheduler.batchOf env k) k with
  | Returned results => Scheduler.applyResult results a'
  | Thrown m => if Scheduler.inBatch (Scheduler.batchOf env k) a'
                then Scheduler.markFailed m a' else a'
  end.

(** The answer of the single-chunk generation for the text chunk [c] at
    position [j] of the text chunks: it is asked for in batch
    [j / batchSize], at position [j mod batchSize] of that batch. *)
Definition jobAnswer (env : Scheduler.State) (w : Scheduler.World) (j : nat)
           (c : Chunker.TextChunk) : Route.FetchOutcome :=
  Scheduler.generate w (j / Scheduler.batchSize) (j mod Scheduler.batchSize)
    (Route.gen_request
       (Scheduler.batchRequest env (Scheduler.batchOf env (j / Scheduler.batchSize)))
       (Scheduler.selectedProvider env) (sentChunk c) (Chunker.text c)).

(** The render after [hello] has been typed into the fresh page. *)
Definition hello_env : Scheduler.State :=
  Scheduler.handleTextChange hello Scheduler.initialState.

(** A world in which the route is reached and the generation of the
    chunk at position [bad] of every batch is refused by the provider. *)
Definition flaky_world (bad : nat) : Scheduler.World :=
  {| Scheduler.transport := fun _ => None;
     Scheduler.generate := fun _ i _ =>
       if (i =? bad)%nat
       then Route.NotOk 500 "Internal Server Error" (Some (Some "quota"%string))
       else Route.OkData Samples.sample_data;
     Scheduler.clicksInFlight := fun _ => 0;
     Scheduler.clicksInDelay := fun _ => 0 |}.

(* ================================================================== *)
(** * The page: provider table and selection handlers of [page.tsx] *)

Module Page.
Import Js Scheduler.
Local Open Scope string_scope.

Record Voice := { id : string; name : string }.

Record TTSProvider := {
  provider_name : string;
  provider_chunkSize : Z;
  voices : list Voice;
  models : option (list Voice)
}.

Definition minimax : TTSProvider :=
  {| provider_name := "MiniMax";
     provider_chunkSize := 3000;
     voices :=
       [ {| id := "English_radiant_girl"; name := "Radiant Girl" |};
         {| id := "English_captivating_female1"; name := "Captivating Female" |};
         {| id := "English_Steady_Female_1"; name := "Steady Women" |};
         {| id := "moss_audio_aae8a176-3932-11f0-b24c-2e48b7cbf811";
            name := "Jane - Older Woman" |};
         {| id := "English_CaptivatingStoryteller"; name := "Captivating Storyteller" |};
         {| id := "English_Deep-VoicedGentleman"; name := "Man With Deep Voice" |};
         {| id := "English_magnetic_voiced_man"; name := "Magnetic-voiced Male" |};
         {| id := "English_ReservedYoungMan"; name := "Reserved Young Man" |};
         {| id := "moss_audio_5e17ecb2-3bd8-11f0-b24c-2e48b7cbf811";
            name := "Sleep Channel History" |};
         {| id := "moss_audio_094b69ed-4da5-11f0-a6ae-72d5dcf0f535";
            name := "SSS Cloned Voice" |};
         {| id := "English_expressive_narrator"; name := "Expressive Narrator" |};
         {| id := "English_compelling_lady1"; name := "Compelling Lady" |};
         {| id := "English_CalmWoman"; name := "Calm Woman" |};
         {| id := "English_Graceful_Lady"; name := "Graceful Lady" |};
         {| id := "English_MaturePartner"; name := "Mature Partner" |};
         {| id := "English_MatureBoss"; name := "Bossy Lady" |};
         {| id := "English_Wiselady"; name := "Wise Lady" |};
         {| id := "English_patient_man_v1"; name := "Patient Man" |};
         {| id := "English_Female_Narrator"; name := "Female Narrator" |};
         {| id := "English_Trustworth_Man"; name := "Trustworthy Man" |};
         {| id := "English_Gentle-voiced_man"; name := "Gentle-voiced Man" |};
         {| id := "English_Upbeat_Woman"; name := "Upbeat Woman" |};
         {| id := "English_Friendly_Female_3"; name := "Friendly Women" |} ];
     models :=
       Some [ {| id := "speech-02-hd"; name := "Speech 02 HD" |};
              {| id := "speech-02-turbo"; name := "Speech 02 Turbo" |};
              {| id := "speech-01-hd"; name := "Speech 01 HD" |};
              {| id := "speech-01-turbo"; name := "Speech 01 Turbo" |} ] |}.

Definition elevenlabs : TTSProvider :=
  {| provider_name := "ElevenLabs";
     provider_chunkSize := 3000;
     voices :=
       [ {| id := "21m00Tcm4TlvDq8ikWAM"; name := "Rachel" |};
         {| id := "AZnzlk1XvdvUeBnXmlld"; name := "Domi" |};
         {| id := "EXAVITQu4vr4xnSDxMaL"; name := "Bella" |};
         {| id := "ErXwobaYiN019PkySvjV"; name := "Antoni" |};
         {| id := "MF3mGyEYCl7XYWbV9V6O"; name := "Elli" |};
         {| id := "TxGEqnHWrfWFTfGW9XjX"; name := "Josh" |} ];
     models := None |}.

(** [TTS_PROVIDERS[provider]] for the keys of the table, which are the
    options of the provider select; any other key is taken as absent. *)
Definition TTS_PROVIDERS (provider : string) : option TTSProvider :=
  if String.eqb provider "minimax" then Some minimax
  else if String.eqb provider "elevenlabs" then Some elevenlabs
  else None.

Definition setSelectedProvider (p : string) (st : State) : State :=
  {| st_text := st_text st; selectedProvider := p;
     selectedVoice := selectedVoice st; selectedModel := selectedModel st;
     isGenerating := isGenerating st; isPaused := isPaused st;
     textChunks := textChunks st; audioChunks := audioChunks st;
     batchProgress := batchProgress st; message := message st |}.

Definition setSelectedVoice (v : string) (st : State) : State :=
  {| st_text := st_text st; selectedProvider := selectedProvider st;
     selectedVoice := v; selectedModel := selectedModel st;
     isGenerating := isGenerating st; isPaused := isPaused st;
     textChunks := textChunks st; audioChunks := audioChunks st;
     batchProgress := batchProgress st; message := message st |}.

Definition setSelectedModel (m : string) (st : State) : State :=
  {| st_text := st_text st; selectedProvider := selectedProvider st;
     selectedVoice := selectedVoice st; selectedModel := m;
     isGenerating := isGenerating st; isPaused := isPaused st;
     textChunks := textChunks st; audioChunks := audioChunks st;
     batchProgress := batchProgress st; message := message st |}.

(** [handleProviderChange(provider)], called in the render [env], whose
    [text] it reads. [firstVoice] is an object, truthy whenever the
    list of voices has a first element. *)
Definition handleProviderChange (provider : string) (env : State) : State :=
  let st1 := setSelectedProvider provider env in
  let st2 := match TTS_PROVIDERS provider with
             | Some provider_info =>
                 match voices provider_info with
                 | firstVoice :: _ => setSelectedVoice (id firstVoice) st1
                 | [] => st1
                 end
             | None => st1
             end in
  let st3 := if String.eqb provider "minimax"
             then setSelectedModel "speech-02-hd" st2 else st2 in
  if (0 <? length (trim (st_text env)))%nat then
    match TTS_PROVIDERS provider with
    | Some provider_info =>
        match Chunker.chunkText (trim (st_text env)) (provider_chunkSize provider_info) with
        | Some chunks => setTextChunks chunks st3
        | None => st3
        end
    | None => st3
    end
  else st3.

(** [disabled={isGenerating || !text.trim() || textChunks.length === 0}]
    of the Generate button. *)
Definition generateDisabled (st : State) : bool :=
  isGenerating st || (length (trim (st_text st)) =? 0)%nat
  || (length (textChunks st) =? 0)%nat.

End Page.

(* ================================================================== *)
(** * Vocabulary of the archive names *)

From Stdlib Require DecimalNat.

(** The digit that a character stands for. *)
Definition digitValue (c : ascii) : option nat :=
  let n := nat_of_ascii c in
  if (48 <=? n)%nat && (n <=? 57)%nat then Some (n - 48) else None.

(** The number written by the leading decimal digits of a name, read
    after [acc]. *)
Fixpoint leadingNumber (s : string) (acc : nat) : nat :=
  match s with
  | EmptyString => acc
  | String c r =>
      match digitValue c with
      | Some d => leadingNumber r (10 * acc + d)
      | None => acc
      end
  end.

(** The file that the export adds for a job, if its audio can be
    fetched. *)
Definition zipEntry (fetchBlob : string -> option Scheduler.Blob)
           (chunk : Scheduler.AudioChunk) : list (string * Scheduler.Blob) :=
  match fetchBlob (Scheduler.audioUrl chunk) with
  | Some audioBlob => [(Scheduler.entryName chunk, audioBlob)]
  | None => []
  end.

(** The page after [hello] has been typed and generated, every
    generation having answered. *)
Definition hello_done : Scheduler.State :=
  Scheduler.handleGenerateAudio hello_env (flaky_world 1).

(* ================================================================== *)
(** * Vocabulary of the split rule *)

(** The unit at an offset of a string, if there is one. *)
Definition unit_at (s : Js.jsstring) (k : Z) : option Js.char :=
  if (k <? 0)%Z then None else nth_error s (Z.to_nat k).

(** A sentence ends just before the offset [p]: the unit before [p] is
    a line break, or it belongs to a run of white space that follows a
    full stop, a question mark or an exclamation mark. *)
Definition sentence_end (s : Js.jsstring) (p : Z) : Prop :=
  (exists u, unit_at s (p - 1) = Some u /\ Regex.is_newline u = true) \/
  (exists q t, (0 <= q)%Z /\ (q + 1 < p)%Z /\
               unit_at s q = Some t /\ Regex.is_terminator t = true /\
               forall k, (q < k < p)%Z ->
                         exists u, unit_at s k = Some u /\ Js.is_ws u = true).

(** The window [[a, b)] holds something that the sentence-end
    expression matches: a line break, or one of [.?!] with a white-space
    unit after it, both inside the window. *)
Definition has_sentence_end (s : Js.jsstring) (a b : Z) : Prop :=
  (exists k u, (a <= k < b)%Z /\ unit_at s k = Some u /\ Regex.is_newline u = true) \/
  (exists k u v, (a <= k)%Z /\ (k + 1 < b)%Z /\
                 unit_at s k = Some u /\ Regex.is_terminator u = true /\
                 unit_at s (k + 1) = Some v /\ Js.is_ws v = true).

(** There is a space at an offset of [(a, b]]. *)
Definition has_space (s : Js.jsstring) (a b : Z) : Prop :=
  exists k, (a < k <= b)%Z /\ unit_at s k = Some Js.space.

(** Where the region of a chunk ends, given where it starts: at the end
    of the input when at most [maxLength] units are left; else after a
    sentence end of the window of [maxLength] units when there is one;
    else after the last space of the window (the unit at [chunkEnd]
    included) when there is one; else at [chunkEnd]. *)
Definition split_rule (text : Js.jsstring) (maxLength : Z) (c : Chunker.TextChunk) : Prop :=
  let pos := Chunker.startChar c in
  let sp := Chunker.endChar c in
  let chunkEnd := (pos + maxLength)%Z in
  ((Js.len text <= chunkEnd)%Z /\ sp = Js.len text) \/
  ((chunkEnd < Js.len text)%Z /\
   ((has_sentence_end text pos chunkEnd /\ sentence_end text sp /\
     (pos < sp <= chunkEnd)%Z) \/
    (~ has_sentence_end text pos chunkEnd /\ has_space text pos chunkEnd /\
     unit_at text (sp - 1) = Some Js.space /\ (pos + 1 < sp <= chunkEnd + 1)%Z /\
     (forall k, (sp <= k <= chunkEnd)%Z -> unit_at text k <> Some Js.space)) \/
    (~ has_sentence_end text pos chunkEnd /\ ~ has_space text pos chunkEnd /\
     sp = chunkEnd))).

(* ================================================================== *)
(** * The counters under the text box *)

(** [s.split(/\s+/)]: the pieces between the maximal runs of white
    space, an empty piece before a leading run and after a trailing
    one. [piece] is the piece being read, backwards; [inSep] tells that
    the last unit read was white space. *)
Fixpoint splitWs (s : Js.jsstring) (piece : Js.jsstring) (inSep : bool)
  : list Js.jsstring :=
  match s with
  | [] => [rev piece]
  | c :: r =>
      if Js.is_ws c then
        if inSep then splitWs r [] true
        else rev piece :: splitWs r [] true
      else splitWs r (c :: piece) false
  end.

(** [getWordCount()] in the render [st]. *)
Definition getWordCount (st : Scheduler.State) : nat :=
  length (filter (fun word => (0 <? length word)%nat)
                 (splitWs (Js.trim (Scheduler.st_text st)) [] false)).

(** The words of a string counted at their last unit: [inWord] tells
    that the unit before was not white space. *)
Fixpoint wordsFrom (s : Js.jsstring) (inWord : bool) : nat :=
  match s with
  | [] => if inWord then 1 else 0
  | c :: r =>
      if Js.is_ws c then (if inWord then 1 else 0) + wordsFrom r false
      else wordsFrom r true
  end.

(** The units at which a word starts: a unit that is not white space,
    at the head of the string or right after a white-space unit. Each
    unit is paired with the one before it, the head with a space. *)
Definition startsWord (pair : Js.char * Js.char) : bool :=
  Js.is_ws (fst pair) && negb (Js.is_ws (snd pair)).

Definition wordStarts (s : Js.jsstring) : nat :=
  length (filter startsWord (combine (Js.space :: s) s)).

(* ================================================================== *)
(** * Vocabulary of the counters *)

Definition isFailed (chunk : Scheduler.AudioChunk) : bool :=
  Scheduler.Status_eqb (Scheduler.status chunk) Scheduler.failed.

(** The job of a text chunk after the pass of batch [k]. *)
Definition settledJob (env : Scheduler.State) (w : Scheduler.World) (k : nat)
           (c : Chunker.TextChunk) : Scheduler.AudioChunk :=
  passJob env w k (initialJob c).

(** After [k] passes of the batch loop: the jobs of the first [k]
    batches are settled and the counters count them, the other jobs
    are as they were created. *)
Definition tallied (env : Scheduler.State) (k : nat) (st : Scheduler.State) : Prop :=
  exists settled p,
    Scheduler.audioChunks st
    = settled ++ map initialJob (skipn (k * Scheduler.batchSize)
                                       (Scheduler.textChunks env)) /\
    map Scheduler.chunkIndex settled
    = map Chunker.index (firstn (k * Scheduler.batchSize) (Scheduler.textChunks env)) /\
    Forall terminal settled /\
    Scheduler.batchProgress st = Some p /\
    Scheduler.totalChunks p = length (Scheduler.textChunks env) /\
    Scheduler.completedChunks p = length (filter Scheduler.isCompleted settled) /\
    Scheduler.failedChunks p = length (filter isFailed settled).

(** The message is the summary of a run. *)
Definition isSummary (m : option Scheduler.Message) : bool :=
  match m with
  | Some (Scheduler.Completed _ _ _) => true
  | _ => false
  end.

(* ================================================================== *)
(** * Vocabulary of the batch answer *)



(* ================================================================== *)
(** * The single-chunk route: decoding the audio of MiniMax *)

(** [generateSingleAudioChunk] of [generate-audio-comprehensive]
    receives the audio as a string of hexadecimal digits. *)
Module Hex.
Import Js.
Local Open Scope Z_scope.

(** The value of a digit of radix 16. *)
Definition hexValue (c : char) : option Z :=
  let z := Z.of_N c in
  if (48 <=? z) && (z <=? 57) then Some (z - 48)
  else if (97 <=? z) && (z <=? 102) then Some (z - 87)
  else if (65 <=? z) && (z <=? 70) then Some (z - 55)
  else None.

(** The number written by the longest prefix of digits, read after
    [acc]; [None] while no digit has been read. *)
Fixpoint hexPrefix (s : jsstring) (acc : option Z) : option Z :=
  match s with
  | [] => acc
  | c :: r =>
      match hexValue c with
      | Some d => hexPrefix r (Some (16 * match acc with Some a => a | None => 0 end + d))
      | None => acc
      end
  end.

(** [parseInt(string, 16)]; [None] is [NaN]. Leading white space is
    skipped, then a sign, then [0x] or [0X]; the digits that follow are
    read up to the first unit that is not one. *)
Definition parseInt16 (string : jsstring) : option Z :=
  let S := trimStart string in
  let sign := match S with
              | c :: _ => if (c =? 45)%N then -1 else 1
              | [] => 1
              end in
  let S1 := match S with
            | c :: r => if ((c =? 43) || (c =? 45))%N then r else S
            | [] => S
            end in
  let S2 := match S1 with
            | a :: b :: r => if ((a =? 48) && ((b =? 120) || (b =? 88)))%N then r else S1
            | _ => S1
            end in
  option_map (Z.mul sign) (hexPrefix S2 None).

(** The conversion of a number stored into a [Uint8Array]. *)
Definition ToUint8 (n : option Z) : Z :=
  match n with
  | None => 0
  | Some z => z mod 256
  end.

(** [bytes[k] = v] on a typed array: a write past the end is ignored. *)
Definition setByte (bytes : list Z) (k : nat) (v : Z) : list Z :=
  if (k <? length bytes)%nat then firstn k bytes ++ v :: skipn (S k) bytes
  else bytes.

(** [for (let i = 0; i < hexString.length; i += 2)
       bytes[i / 2] = parseInt(hexString.substring(i, i + 2), 16)];
    [None] when the fuel runs out. For an odd [i / 2] would not be an
    index, but [i] stays even. *)
Fixpoint hexLoop (fuel : nat) (hexString : jsstring) (i : nat) (bytes : list Z)
  : option (list Z) :=
  match fuel with
  | O => None
  | S fuel' =>
      if (i <? length hexString)%nat then
        hexLoop fuel' hexString (i + 2)
                (setByte bytes (i / 2)
                         (ToUint8 (parseInt16 (substring hexString (Z.of_nat i)
                                                         (Z.of_nat i + 2)))))
      else Some bytes
  end.

(** [new Uint8Array(hexString.length / 2)] takes the integer part of
    its argument and starts at zero. *)
Definition decodeHex (hexString : jsstring) : option (list Z) :=
  hexLoop (S (length hexString)) hexString 0 (repeat 0 (length hexString / 2)%nat).

(** The byte that the loop writes at index [k]. *)
Definition byteAt (hexString : jsstring) (k : nat) : Z :=
  ToUint8 (parseInt16 (substring hexString (Z.of_nat (2 * k)) (Z.of_nat (2 * k) + 2))).

(** The digit of radix 16 for a value below 16, in upper or lower
    case. *)
Definition hexChar (upper : bool) (d : Z) : char :=
  Z.to_N (if d <? 10 then 48 + d else if upper then 55 + d else 87 + d).

(** A byte string written with two digits per byte, as the provider
    sends it. *)
Definition encodeHex (upper : bool) (bytes : list Z) : jsstring :=
  flat_map (fun b => [hexChar upper (b / 16); hexChar upper (b mod 16)]) bytes.

Definition isByte (b : Z) : Prop := 0 <= b < 256.

End Hex.

(* ================================================================== *)
(** * The files of the server: [temp-audio/[filename]/route.ts] *)

(** The part of the file system that the two routes touch, without
    links and permissions, and the POSIX flavour of [path]. The strings
    of paths are strings of units below 256. *)
Module TempAudio.
Local Open Scope string_scope.

Definition Bytes := list Z.

#[local] Set Warnings "-register-all".

(** A file, or a directory with its entries in the order of [readdir]. *)
Inductive Node :=
| File (data : Bytes)
| Dir (entries : list (string * Node)).

#[local] Set Warnings "+register-all".

Definition isDirectory (n : Node) : bool :=
  match n with Dir _ => true | File _ => false end.

Fixpoint lookupEntry (name : string) (entries : list (string * Node)) : option Node :=
  match entries with
  | [] => None
  | (n, c) :: rest => if String.eqb n name then Some c else lookupEntry name rest
  end.

(** The node at an absolute, normalized path. *)
Fixpoint resolve (n : Node) (segments : list string) : option Node :=
  match segments with
  | [] => Some n
  | s :: rest =>
      match n with
      | Dir entries =>
          match lookupEntry s entries with
          | Some c => resolve c rest
          | None => None
          end
      | File _ => None
      end
  end.

(** The pieces of a string between its slashes. *)
Fixpoint splitSlash (s : string) : list string :=
  match s with
  | EmptyString => [EmptyString]
  | String c r =>
      if Ascii.eqb c "/" then EmptyString :: splitSlash r
      else match splitSlash r with
           | seg :: segs => String c seg :: segs
           | [] => [String c EmptyString]
           end
  end.

Fixpoint hasChar (c : ascii) (s : string) : bool :=
  match s with
  | EmptyString => false
  | String x r => Ascii.eqb x c || hasChar c r
  end.

Fixpoint endsWithSlash (s : string) : bool :=
  match s with
  | EmptyString => false
  | String c EmptyString => Ascii.eqb c "/"
  | String _ r => endsWithSlash r
  end.

(** A normalized absolute path: its segments, whether the string ends
    in a slash, and whether it is free of NUL, without which no call of
    [fs] accepts it. *)
Record Path := {
  segments : list string;
  trailing : bool;
  wellFormed : bool
}.

(** One segment of a path being normalized: [.] and the empty segment
    are dropped, [..] goes up and stays at the root. *)
Definition normalizeStep (stack : list string) (seg : string) : list string :=
  if String.eqb seg "" || String.eqb seg "." then stack
  else if String.eqb seg ".." then removelast stack
  else stack ++ [seg].

(** [path.join(base, ...parts)] for a normalized absolute [base]. Empty
    parts are ignored. *)
Definition join (base : list string) (parts : list string) : Path :=
  let parts := filter (fun p => negb (String.eqb p "")) parts in
  {| segments := fold_left normalizeStep (flat_map splitSlash parts) base;
     trailing := endsWithSlash (last parts "");
     wellFormed := negb (existsb (hasChar Ascii.zero) parts) |}.

(** [path.basename(p)] *)
Definition basename (p : Path) : string := last (segments p) "".

(** [fs.access(p)] resolves. *)
Definition access (root : Node) (p : Path) : bool :=
  wellFormed p &&
  match resolve root (segments p) with
  | Some n => if trailing p then isDirectory n else true
  | None => false
  end.

(** [fs.readFile(p)]; [None] when it rejects. *)
Definition readFile (root : Node) (p : Path) : option Bytes :=
  if wellFormed p && negb (trailing p) then
    match resolve root (segments p) with
    | Some (File data) => Some data
    | _ => None
    end
  else None.

Record World := {
  root : Node;
  cwd : list string
}.

Definition tempAudioDir (w : World) : list string :=
  cwd w ++ ["temp-audio-processing"].

(** The [for (const subdir of subdirs)] loop of [findAudioFile]. *)
Fixpoint searchSubdirs (w : World) (filename : string) (subdirs : list (string * Node))
  : option Path :=
  match subdirs with
  | [] => None
  | (name, n) :: rest =>
      if isDirectory n then
        let subdirPath := join (tempAudioDir w) [name; filename] in
        if access (root w) subdirPath then Some subdirPath
        else searchSubdirs w filename rest
      else searchSubdirs w filename rest
  end.

Definition findAudioFile (w : World) (filename : string) : option Path :=
  let directPath := join (tempAudioDir w) [filename] in
  if access (root w) directPath then Some directPath
  else
    match resolve (root w) (tempAudioDir w) with
    | Some (Dir subdirs) => searchSubdirs w filename subdirs
    | _ => None
    end.

Inductive Response :=
| Audio (body : Bytes) (contentLength : string)   (* status 200, audio/mpeg *)
| JsonError (status : nat) (error : string).

Definition GET (w : World) (filename : string) : Response :=
  match findAudioFile w filename with
  | None => JsonError 404 "File not found"
  | Some filePath =>
      match readFile (root w) filePath with
      | Some fileBuffer => Audio fileBuffer (string_of_nat (length fileBuffer))
      | None => JsonError 500 "Internal server error"
      end
  end.

(** A name that is one segment of a path: not empty, not [.] or [..],
    with no slash and no NUL in it. *)
Definition plain (name : string) : bool :=
  negb (hasChar "/" name) && negb (hasChar Ascii.zero name)
  && negb (String.eqb name "") && negb (String.eqb name ".")
  && negb (String.eqb name "..").

End TempAudio.

(* ================================================================== *)
(** * The single-chunk route: [POST /api/generate-audio-comprehensive] *)

Module Single.
Import Js TempAudio.
Local Open Scope string_scope.

#[local] Set Warnings "-register-all".

(** A JSON value, as [request.json()] gives it. A number is taken to
    be an integer that is printed in full (below [10^21] in absolute
    value). *)
Inductive JsonValue :=
| JNull
| JBool (b : bool)
| JNumber (n : Z)
| JString (s : string)
| JArray (items : list JsonValue)
| JObject (fields : list (string * JsonValue)).

#[local] Set Warnings "+register-all".

Definition string_of_Z (n : Z) : string :=
  match n with
  | Zneg p => "-" ++ string_of_nat (Pos.to_nat p)
  | _ => string_of_nat (Z.to_nat n)
  end.

(** The text of a value in a template literal, for a value that has
    one ([printable]): a string is pasted as it is, an array as its
    elements joined by commas ([null] gives nothing there), an object
    as [[object Object]]. *)
Fixpoint toString (v : JsonValue) : string :=
  match v with
  | JNull => "null"
  | JBool b => if b then "true" else "false"
  | JNumber n => string_of_Z n
  | JString s => s
  | JArray items =>
      String.concat ","
        (map (fun item => match item with JNull => "" | _ => toString item end) items)
  | JObject _ => "[object Object]"
  end.

(** Whether a value has a text. An object with a property [toString]
    of its own has none: JSON cannot make the property a function, and
    the template literal throws a [TypeError]; so does an array that
    holds such an object. *)
Fixpoint printable (v : JsonValue) : bool :=
  match v with
  | JArray items => forallb printable items
  | JObject fields => negb (existsb (fun field => String.eqb (fst field) "toString") fields)
  | _ => true
  end.

(** Truthiness of a field: [undefined] (a missing field), [null],
    [false], [0] and the empty string are falsy. *)
Definition truthy (v : option JsonValue) : bool :=
  match v with
  | None | Some JNull => false
  | Some (JBool b) => b
  | Some (JNumber n) => negb (n =? 0)%Z
  | Some (JString s) => negb (String.eqb s "")
  | Some _ => true
  end.

(** The parsed request body. [voice] and [chunkIndex] are whatever
    the body holds: the route checks neither. [text], [provider],
    [model] and [elevenLabsVoiceId] are strings when present. [userId]
    is read in a template literal only; the field holds its text
    there. *)
Record Request := {
  text : option jsstring;
  provider : option string;
  voice : option JsonValue;
  model : option string;
  elevenLabsVoiceId : option string;
  chunkIndex : option JsonValue;
  userId : option string
}.

(** What [minimaxResponse.json()] gives: [null], a value without a
    truthy [data.audio] (with its [JSON.stringify]), or a value with
    the audio as a non-empty string. *)
Inductive MinimaxBody :=
| BodyNull
| BodyNoAudio (json : string)
| BodyAudio (hexString : jsstring).

Inductive MinimaxOutcome :=
| MxRejected (message : string)                           (* [fetch] throws *)
| MxNotOk (status : nat) (statusText : string) (errorBody : string)
    (* [!minimaxResponse.ok]; [errorBody] is [''] when [text()] fails *)
| MxBadJson (message : string)                            (* [json()] throws *)
| MxJson (body : MinimaxBody).

(** [elevenlabs.textToSpeech.convert] and the reads of its stream: the
    values read ([undefined] ones are skipped) and, if a read throws,
    its message. *)
Inductive ElevenOutcome :=
| ElThrows (message : string)
| ElStream (values : list (option Bytes)) (failure : option string).

(** What lies outside the route: the two providers, the clock at the
    two calls of [Date.now()], the working directory and the files,
    and what the operating system refuses to write although the tree
    of files would allow it (a name that is too long, a full disk, a
    missing permission), with the message of the error. *)
Record Env := {
  minimax : string -> jsstring -> option JsonValue -> MinimaxOutcome;
    (* model, text, voice *)
  elevenlabs : option (string -> jsstring -> ElevenOutcome);
    (* [None] without [ELEVENLABS_API_KEY]; voice id, text *)
  nowDir : nat;
  nowFile : nat;
  files : World;
  writeRefused : Path -> option string
}.

Definition isAlnum (c : ascii) : bool :=
  let n := nat_of_ascii c in
  ((48 <=? n) && (n <=? 57) || (65 <=? n) && (n <=? 90)
   || (97 <=? n) && (n <=? 122))%nat.

(** [voice.replace(/[^a-zA-Z0-9]/g, '_')] *)
Fixpoint sanitize (voice : string) : string :=
  match voice with
  | EmptyString => EmptyString
  | String c r => String (if isAlnum c then c else "_"%char) (sanitize r)
  end.

(** [voice?.replace(/[^a-zA-Z0-9]/g, '_')]: [undefined] for a missing
    or [null] voice, the cleaned string for a string. Any other value
    has no method [replace], and the call throws a [TypeError] (with
    the message of V8). *)
Definition cleanVoice (voice : option JsonValue) : Outcome (option string) :=
  match voice with
  | None | Some JNull => Returned None
  | Some (JString s) => Returned (Some (sanitize s))
  | Some _ => Thrown "voice?.replace is not a function"
  end.

(** The template literal of [tempFileName], with the cleaned voice and
    the text of [chunkIndex]. *)
Definition tempFileName (provider : string) (cleaned : option string)
           (chunkIndex : string) (now : nat) : string :=
  provider ++ "-" ++ or_else cleaned "unknown"
  ++ "-chunk" ++ chunkIndex ++ "-" ++ string_of_nat now ++ ".mp3".

(** The path as [fs] prints it in a message. *)
Definition showPath (p : Path) : string :=
  match segments p with
  | [] => "/"
  | segs => String.concat "" (map (fun s => "/" ++ s) segs)
            ++ (if trailing p then "/" else "")
  end.

(** The entries with [name] bound to [c]: in place, or at the end. *)
Fixpoint setEntry (name : string) (c : Node) (entries : list (string * Node))
  : list (string * Node) :=
  match entries with
  | [] => [(name, c)]
  | (n, x) :: rest =>
      if String.eqb n name then (n, c) :: rest
      else (n, x) :: setEntry name c rest
  end.

Fixpoint removeEntry (name : string) (entries : list (string * Node))
  : list (string * Node) :=
  match entries with
  | [] => []
  | (n, x) :: rest =>
      if String.eqb n name then rest else (n, x) :: removeEntry name rest
  end.

(** The tree with the entries of the directory at [dir] changed by
    [f]; [None] when [dir] is not a directory of the tree or [f]
    refuses. *)
Fixpoint alter (f : list (string * Node) -> option (list (string * Node)))
         (n : Node) (dir : list string) : option Node :=
  match n with
  | File _ => None
  | Dir entries =>
      match dir with
      | [] => option_map Dir (f entries)
      | s :: rest =>
          match lookupEntry s entries with
          | Some c => option_map (fun c' => Dir (setEntry s c' entries)) (alter f c rest)
          | None => None
          end
      end
  end.

Fixpoint newDirs (segs : list string) : Node :=
  match segs with
  | [] => Dir []
  | s :: rest => Dir [(s, newDirs rest)]
  end.

Inductive MkdirOutcome :=
| Made (root' : Node)
| EEXIST                  (* the path is a file *)
| ENOTDIR.                (* a file lies on the way *)

(** [fsp.mkdir(dirPath, { recursive: true })] *)
Fixpoint mkdir (n : Node) (segs : list string) : MkdirOutcome :=
  match segs with
  | [] => match n with Dir _ => Made n | File _ => EEXIST end
  | s :: rest =>
      match n with
      | File _ => ENOTDIR
      | Dir entries =>
          match lookupEntry s entries with
          | None => Made (Dir (entries ++ [(s, newDirs rest)]))
          | Some c =>
              match mkdir c rest with
              | Made c' => Made (Dir (setEntry s c' entries))
              | other => other
              end
          end
      end
  end.

(** [ensureDir(dirPath)]: [EEXIST] is swallowed, anything else is
    thrown again. *)
Definition ensureDir (root : Node) (dirPath : Path) : Outcome Node :=
  if wellFormed dirPath then
    match mkdir root (segments dirPath) with
    | Made root' => Returned root'
    | EEXIST => Returned root
    | ENOTDIR => Thrown ("ENOTDIR: not a directory, mkdir '" ++ showPath dirPath ++ "'")
    end
  else Thrown "The argument 'path' must be a string, Uint8Array, or URL without null bytes.".

(** [fsp.writeFile(p, data)]. Where the directory resolves, [alter]
    gives the new tree. A write that the tree allows fails with the
    message [refused p] when the operating system refuses it. *)
Definition writeFile (refused : Path -> option string) (root : Node) (p : Path)
           (data : Bytes) : Outcome Node :=
  let store :=
    match refused p with
    | Some m => Thrown m
    | None =>
        match alter (fun es => Some (setEntry (last (segments p) "") (File data) es))
                    root (removelast (segments p)) with
        | Some root' => Returned root'
        | None => Returned root
        end
    end in
  if wellFormed p then
    match segments p with
    | [] => Thrown ("EISDIR: illegal operation on a directory, open '" ++ showPath p ++ "'")
    | _ =>
        let dir := removelast (segments p) in
        let name := last (segments p) "" in
        match resolve root dir with
        | None => Thrown ("ENOENT: no such file or directory, open '" ++ showPath p ++ "'")
        | Some (File _) => Thrown ("ENOTDIR: not a directory, open '" ++ showPath p ++ "'")
        | Some (Dir entries) =>
            match lookupEntry name entries with
            | Some (Dir _) =>
                Thrown ("EISDIR: illegal operation on a directory, open '"
                        ++ showPath p ++ "'")
            | Some (File _) =>
                if trailing p
                then Thrown ("ENOTDIR: not a directory, open '" ++ showPath p ++ "'")
                else store
            | None =>
                if trailing p
                then Thrown ("ENOENT: no such file or directory, open '"
                             ++ showPath p ++ "'")
                else store
            end
        end
    end
  else Thrown "The argument 'path' must be a string, Uint8Array, or URL without null bytes.".

(** [if (fs.existsSync(p)) await fsp.rm(p)] inside its own [try]:
    a file is removed, anything else is left. *)
Definition cleanup (root : Node) (p : Path) : Node :=
  if wellFormed p && negb (trailing p) then
    match resolve root (segments p) with
    | Some (File _) =>
        match alter (fun es => Some (removeEntry (last (segments p) "") es))
                    root (removelast (segments p)) with
        | Some root' => root'
        | None => root
        end
    | _ => root
    end
  else root.

(** The bytes decoded from the audio of MiniMax; the loop returns for
    every string. *)
Definition decoded (hexString : jsstring) : Bytes :=
  match Hex.decodeHex hexString with
  | Some bytes => bytes
  | None => []
  end.

Definition chunkLabel (chunkIndex : JsonValue) : string :=
  "[Chunk " ++ toString chunkIndex ++ "]".

(** The [switch (provider)] of [generateSingleAudioChunk]: the audio,
    or what is thrown. *)
Definition audioBuffer (env : Env) (textChunk : jsstring) (provider : string)
           (request : Request) (chunkIndex : JsonValue) : Outcome Bytes :=
  if String.eqb provider "minimax" then
    let minimaxTTSModel := or_else (model request) "speech-02-hd" in
    match minimax env minimaxTTSModel textChunk (voice request) with
    | MxRejected m => Thrown m
    | MxNotOk status statusText errorBody =>
        Thrown ("MiniMax API error " ++ chunkLabel chunkIndex ++ ": "
                ++ string_of_nat status ++ " " ++ statusText
                ++ ". Body: " ++ errorBody)
    | MxBadJson m => Thrown m
    | MxJson BodyNull => Thrown "Cannot read properties of null (reading 'data')"
    | MxJson (BodyNoAudio json) =>
        Thrown ("No audio data from MiniMax " ++ chunkLabel chunkIndex
                ++ ". Response: " ++ json)
    | MxJson (BodyAudio hexString) => Returned (decoded hexString)
    end
  else if String.eqb provider "elevenlabs" then
    match elevenlabs env with
    | None => Thrown ("ElevenLabs client not initialized " ++ chunkLabel chunkIndex)
    | Some convert =>
        if falsy (elevenLabsVoiceId request)
        then Thrown ("Missing elevenLabsVoiceId " ++ chunkLabel chunkIndex)
        else
          match convert (or_else (elevenLabsVoiceId request) "") textChunk with
          | ElThrows m => Thrown m
          | ElStream _ (Some m) => Thrown m
          | ElStream values None =>
              Returned (concat (flat_map (fun v => match v with
                                                   | Some value => [value]
                                                   | None => []
                                                   end) values))
          end
    end
  else Thrown ("Unsupported provider: " ++ provider ++ " " ++ chunkLabel chunkIndex).

(** [generateSingleAudioChunk]: the path of the file written, or what
    is thrown after the clean-up, and the files afterwards. The name of
    the file is built before the [try]: what is thrown there is thrown
    without a clean-up. *)
Definition generateSingleAudioChunk (env : Env) (root : Node) (textChunk : jsstring)
           (provider : string) (request : Request) (baseTempDir : Path)
           (chunkIndex : JsonValue) : Outcome Path * Node :=
  match cleanVoice (voice request) with
  | Thrown m => (Thrown m, root)
  | Returned cleaned =>
      let tempFileName_ :=
        tempFileName provider cleaned (toString chunkIndex) (nowFile env) in
      let tempFilePath := join (segments baseTempDir) [tempFileName_] in
      match audioBuffer env textChunk provider request chunkIndex with
      | Returned audio =>
          match writeFile (writeRefused env) root tempFilePath audio with
          | Returned root' => (Returned tempFilePath, root')
          | Thrown m => (Thrown m, cleanup root tempFilePath)
          end
      | Thrown m => (Thrown m, cleanup root tempFilePath)
      end
  end.

Record Success := {
  audioUrl : string;
  duration : nat;
  s_provider : string;
  s_voice : option JsonValue;
  s_chunkIndex : JsonValue;
  filename : string
}.

Inductive Response :=
| Json (body : Success)                        (* status 200, [success: true] *)
| JsonError (status : nat) (error : string)
| Unhandled (message : string).                (* the handler rejects *)

(** [Math.ceil(n / 15)] *)
Definition estimate (n : nat) : nat := (n + 14) / 15.

(** The route handler: the response and the files afterwards. *)
Definition missingFields : string :=
  "Missing required fields: text and provider are required".

(** The provider-specific validation: the message of the 400 answer,
    if any. *)
Definition validate (request : Request) (provider_ : string) : option string :=
  if String.eqb provider_ "minimax" then
    if negb (truthy (voice request))
    then Some "Missing required field 'voice' for MiniMax" else None
  else if String.eqb provider_ "elevenlabs" then
    if falsy (elevenLabsVoiceId request)
    then Some "Missing required field 'elevenLabsVoiceId' for ElevenLabs" else None
  else Some ("Unsupported provider: " ++ provider_).

Definition tempDirForRequest (request : Request) (env : Env) : Path :=
  let userId_ := match userId request with Some u => u | None => "unknown_user" end in
  join (tempAudioDir (files env))
       ["chunk-" ++ userId_ ++ "-" ++ string_of_nat (nowDir env)].

(** The template literal of the first [console.log] of [POST], which
    pastes [voice] and [chunkIndex], returns. *)
Definition loggable (request : Request) : bool :=
  match voice request with Some v => printable v | None => true end
  && match chunkIndex request with Some i => printable i | None => true end.

(** The route handler: the response and the files afterwards. The
    handler logs the request before it checks anything. *)
Definition POST (request : Request) (env : Env) : Response * Node :=
  let root0 := root (files env) in
  if negb (loggable request)
  then (Unhandled "Cannot convert object to primitive value", root0) else
  match text request, provider request with
  | Some text_, Some provider_ =>
      if (length text_ =? 0)%nat || (String.length provider_ =? 0)%nat
      then (JsonError 400 missingFields, root0)
      else
        match validate request provider_ with
        | Some e => (JsonError 400 e, root0)
        | None =>
            let chunkIndex_ :=
              match chunkIndex request with Some i => i | None => JNumber 0 end in
            match ensureDir root0 (tempDirForRequest request env) with
            | Thrown m => (Unhandled m, root0)
            | Returned root1 =>
                match generateSingleAudioChunk env root1 text_ provider_ request
                                               (tempDirForRequest request env)
                                               chunkIndex_ with
                | (Returned audioFilePath, root2) =>
                    (Json {| audioUrl := "/api/temp-audio/" ++ basename audioFilePath;
                             duration := estimate (length text_);
                             s_provider := provider_;
                             s_voice := voice request;
                             s_chunkIndex := chunkIndex_;
                             filename := basename audioFilePath |},
                     root2)
                | (Thrown m, root2) =>
                    (JsonError 500 ("Failed to generate audio: " ++ m), root2)
                end
            end
        end
  | _, _ => (JsonError 400 missingFields, root0)
  end.

End Single.

(* ================================================================== *)
(** * Vocabulary of the file properties *)

(** The entry called [filename] of the first directory among
    [subdirs], in their order, that has one. *)
Fixpoint firstHolding (filename : string) (subdirs : list (string * TempAudio.Node))
  : option TempAudio.Node :=
  match subdirs with
  | [] => None
  | (_, TempAudio.Dir es) :: rest =>
      match TempAudio.lookupEntry filename es with
      | Some c => Some c
      | None => firstHolding filename rest
      end
  | (_, TempAudio.File _) :: rest => firstHolding filename rest
  end.

(** The entry that a plain [filename] stands for, given the entries of
    [temp-audio-processing]: the entry of that name, else the entry of
    that name in the first subdirectory that has one. *)
Definition servedEntry (filename : string) (entries : list (string * TempAudio.Node))
  : option TempAudio.Node :=
  match TempAudio.lookupEntry filename entries with
  | Some c => Some c
  | None => firstHolding filename entries
  end.

(** [k] times [../] *)
Fixpoint ups (k : nat) : string :=
  match k with
  | O => EmptyString
  | S k' => String "." (String "." (String "/" (ups k')))
  end.

(** The directory [k] levels above [dir]; the root is its own parent. *)
Definition climb (k : nat) (dir : list string) : list string :=
  Nat.iter k (@removelast string) dir.

(** A server with one generated file and a file of its own. *)
Definition sample_name : string :=
  "minimax-English_radiant_girl-chunk0-1700000000001.mp3".

Definition sample_entries : list (string * TempAudio.Node) :=
  [("chunk-demo_user-1700000000000"%string,
    TempAudio.Dir [(sample_name, TempAudio.File [73; 68; 51]%Z)])].

Definition sample_root : TempAudio.Node :=
  TempAudio.Dir
    [("app"%string,
      TempAudio.Dir
        [(".env"%string, TempAudio.File [75; 69; 89]%Z);
         ("temp-audio-processing"%string, TempAudio.Dir sample_entries)])].

Definition sample_world : TempAudio.World :=
  {| TempAudio.root := sample_root; TempAudio.cwd := ["app"%string] |}.

(** The working directory of the server is a directory, and
    [temp-audio-processing] is missing or a directory whose entries
    have names of one segment, all different. *)
Definition tidy (w : TempAudio.World) : Prop :=
  exists here,
    TempAudio.resolve (TempAudio.root w) (TempAudio.cwd w) = Some (TempAudio.Dir here) /\
    match TempAudio.lookupEntry "temp-audio-processing" here with
    | Some (TempAudio.Dir entries) =>
        Forall (fun e => TempAudio.plain (fst e) = true) entries /\
        NoDup (map fst entries)
    | Some (TempAudio.File _) => False
    | None => True
    end.

(** The files of [w] replaced by [root']. *)
Definition withRoot (w : TempAudio.World) (root' : TempAudio.Node) : TempAudio.World :=
  {| TempAudio.root := root'; TempAudio.cwd := TempAudio.cwd w |}.

(** The name of the directory that a request writes to. *)
Definition requestDirName (request : Single.Request) (env : Single.Env) : string :=
  ("chunk-"
   ++ match Single.userId request with Some u => u | None => "unknown_user" end
   ++ "-" ++ string_of_nat (Single.nowDir env))%string.

(** The chunk index of a request, with its default, and its text in
    the name of the file. *)
Definition indexOf (request : Single.Request) : Single.JsonValue :=
  match Single.chunkIndex request with
  | Some i => i
  | None => Single.JNumber 0
  end.

Definition indexText (request : Single.Request) : string :=
  Single.toString (indexOf request).

(** The directory that [temp-audio-processing] is before a request. *)
Definition entriesBefore (here : list (string * TempAudio.Node))
  : list (string * TempAudio.Node) :=
  match TempAudio.lookupEntry "temp-audio-processing" here with
  | Some (TempAudio.Dir entries) => entries
  | _ => []
  end.

Definition dirBefore (d : string) (entries : list (string * TempAudio.Node))
  : list (string * TempAudio.Node) :=
  match TempAudio.lookupEntry d entries with
  | Some (TempAudio.Dir es) => es
  | _ => []
  end.


(** A request for one chunk of [hello] and a server on which MiniMax
    answers with three bytes. *)
Definition sample_single : Single.Request :=
  {| Single.text := Some hello; Single.provider := Some "minimax"%string;
     Single.voice := Some (Single.JString "English_radiant_girl");
     Single.model := Some "speech-02-hd"%string;
     Single.elevenLabsVoiceId := None;
     Single.chunkIndex := Some (Single.JNumber 0);
     Single.userId := Some "demo_user"%string |}.

Definition sample_env : Single.Env :=
  {| Single.minimax := fun _ _ _ =>
       Single.MxJson (Single.BodyAudio (Js.of_string "494433"));
     Single.elevenlabs := None;
     Single.nowDir := 7; Single.nowFile := 8;
     Single.files := sample_world;
     Single.writeRefused := fun _ => None |}.

(* ================================================================== *)
(** * The single-chunk route behind the batch route *)

(** The body that the batch route posts, as the single-chunk route
    parses it. *)
Definition singleRequest (g : Route.GenRequest) : Single.Request :=
  {| Single.text := Some (Route.g_text g);
     Single.provider := Some (Route.g_provider g);
     Single.voice := option_map Single.JString (Route.g_voice g);
     Single.model := Route.g_model g;
     Single.elevenLabsVoiceId := Route.g_elevenLabsVoiceId g;
     Single.chunkIndex := Some (Single.JNumber (Z.of_nat (Route.g_chunkIndex g)));
     Single.userId := Some (Route.g_userId g) |}.

(** The answer of the single-chunk route as the [fetch] of the batch
    route sees it. A handler that rejects gives a 500 whose body is not
    JSON. *)
Definition answer (r : Single.Response) : Route.FetchOutcome :=
  match r with
  | Single.Json body =>
      Route.OkData {| Route.d_audioUrl := Some (Single.audioUrl body);
                      Route.d_duration := Some (Single.duration body);
                      Route.d_filename := Some (Single.filename body) |}
  | Single.JsonError status e =>
      Route.NotOk status
                  (if (status =? 400)%nat then "Bad Request" else "Internal Server Error")
                  (Some (Some e))
  | Single.Unhandled _ => Route.NotOk 500 "Internal Server Error" None
  end.

(** The generator of the batch route when its [fetch] reaches the
    single-chunk route; [envs i] is what the call for position [i]
    finds. *)
Definition viaSingle (envs : nat -> Single.Env) : Route.Generator :=
  fun i g => answer (fst (Single.POST (singleRequest g) (envs i))).

Definition hello_chunk : Route.ReqChunk :=
  {| Route.index := 0; Route.text := Some hello |}.


(* ================================================================== *)
(** * The page while a run awaits *)

(** [handleGenerateAudio] awaits each batch and the delay after it,
    and the page stays live meanwhile: of its controls only the
    Generate button is disabled. [Scheduler.World] lets the user click
    Pause/Resume there; here the other handlers run too. Each runs in
    the render that shows the state it finds, while the run goes on in
    the closure of the render [env] that started it. The upload of a
    DOCX file reaches the state through [handleTextChange], as a
    [TextChange], and through messages of its own, which are not
    followed. *)
Module Live.
Import Js Scheduler.

Inductive UserEvent :=
| PauseResume                          (* the Pause/Resume button *)
| TextChange (newText : jsstring)      (* the text box: [handleTextChange] *)
| ProviderChange (provider : string)   (* the provider menu: [handleProviderChange] *)
| VoiceChange (voice : string)         (* the voice menu: [setSelectedVoice] *)
| ModelChange (model : string)         (* the model menu: [setSelectedModel] *)
| ZipExport (fetchBlob : string -> option Blob)
                                       (* the Download ZIP button *)
| MessageTimeout.                      (* a timer of [showMessage]: [setMessage('')] *)

Definition handle (e : UserEvent) (st : State) : State :=
  match e with
  | PauseResume => handlePauseResume st
  | TextChange newText => handleTextChange newText st
  | ProviderChange provider => Page.handleProviderChange provider st
  | VoiceChange voice => Page.setSelectedVoice voice st
  | ModelChange model => Page.setSelectedModel model st
  | ZipExport fetchBlob => fst (handleDownloadAllAsZip st fetchBlob)
  | MessageTimeout => setMessage None st
  end.

(** The events of one await, in order. *)
Definition happen (events : list UserEvent) (st : State) : State :=
  fold_left (fun s e => handle e s) events st.

(** What lies outside the component during a run: the transport and
    the generations as in [outside] (whose clicks are not read), and
    the events while each batch is awaited and while the delay after
    it is awaited. *)
Record Session := {
  outside : World;
  eventsInFlight : nat -> list UserEvent;
  eventsInDelay : nat -> list UserEvent
}.

(** One pass through the body of the [for] loop, after the pause
    check, as [Scheduler.iteration]. *)
Definition iteration (env : State) (s : Session) (totalBatches_ batchIndex : nat)
           (st : State) : State :=
  let batchChunks := batchOf env batchIndex in
  let st1 := setBatchProgress
               (option_map (fun prev =>
                  {| totalBatches := totalBatches prev;
                     completedBatches := completedBatches prev;
                     currentBatch := batchIndex + 1;
                     totalChunks := totalChunks prev;
                     completedChunks := completedChunks prev;
                     failedChunks := failedChunks prev |})) st in
  let st2 := setAudioChunks
               (map (fun chunk => if inBatch batchChunks chunk
                                  then withStatus generating chunk else chunk)) st1 in
  (* await processBatch(batchChunks, batchIndex) *)
  let st3 := happen (eventsInFlight s batchIndex) st2 in
  let st4 := settle batchChunks batchIndex
                    (processBatch env (outside s) batchChunks batchIndex) st3 in
  if (batchIndex <? totalBatches_ - 1)%nat && negb (isPaused env) then
    (* await new Promise(resolve => setTimeout(resolve, 3000)) *)
    happen (eventsInDelay s batchIndex) (showMessage Waiting st4)
  else st4.

Fixpoint batchLoop (env : State) (s : Session) (totalBatches_ remaining batchIndex : nat)
         (st : State) : State :=
  match remaining with
  | O => st
  | S remaining' =>
      if isPaused env then showMessage PausedByUser st
      else batchLoop env s totalBatches_ remaining' (S batchIndex)
                     (iteration env s totalBatches_ batchIndex st)
  end.

(** [handleGenerateAudio], called in the render [env], on the live
    page. *)
Definition handleGenerateAudio (env : State) (s : Session) : State :=
  match guard env with
  | Some m => showMessage m env
  | None =>
      let totalBatches_ := ceil_div (length (textChunks env)) batchSize in
      let st := batchLoop env s totalBatches_ totalBatches_ 0 (started env) in
      let st' := match batchProgress env with
                 | Some finalProgress =>
                     showMessage (Completed (completedChunks finalProgress)
                                            (totalChunks finalProgress)
                                            (failedChunks finalProgress =? 0)%nat) st
                 | None => st
                 end in
      setIsPaused false (setIsGenerating false st')
  end.

(** The session in which the user only clicks Pause/Resume, as often
    as [w] says. *)
Definition clicksOnly (w : World) : Session :=
  {| outside := w;
     eventsInFlight := fun k => repeat PauseResume (clicksInFlight w k);
     eventsInDelay := fun k => repeat PauseResume (clicksInDelay w k) |}.

Definition isEdit (e : UserEvent) : bool :=
  match e with TextChange _ => true | _ => false end.

(** The text is edited while batch [k] is awaited, or during the
    delay after it when there is one. *)
Definition editedIn (env : State) (s : Session) (totalBatches_ k : nat) : bool :=
  existsb isEdit (eventsInFlight s k)
  || ((k <? totalBatches_ - 1)%nat && negb (isPaused env)
      && existsb isEdit (eventsInDelay s k)).

(** The text is edited at some await of the run. *)
Definition edited (env : State) (s : Session) : bool :=
  let totalBatches_ := ceil_div (length (textChunks env)) batchSize in
  existsb (editedIn env s totalBatches_) (seq 0 totalBatches_).

End Live.

(** A session on [hello_env] in which the generation at position [bad]
    fails, and during which the user pauses, changes the provider and
    the voice, and a message timer fires. *)
Definition busy_session (bad : nat) : Live.Session :=
  {| Live.outside := flaky_world bad;
     Live.eventsInFlight := fun _ =>
       [Live.PauseResume; Live.ProviderChange "elevenlabs"; Live.MessageTimeout];
     Live.eventsInDelay := fun _ => [Live.VoiceChange "Rachel"] |}.

(** The same with the text edited while the first batch is awaited. *)
Definition editing_session (bad : nat) : Live.Session :=
  {| Live.outside := flaky_world bad;
     Live.eventsInFlight := fun _ => [Live.TextChange (Js.of_string "Bye.")];
     Live.eventsInDelay := fun _ => [] |}.
(* ================================================================== *)
(** * Properties of the string primitives *)

Section JsFacts.
Import Js.
Local Open Scope Z_scope.

Lemma all_ws_nil : all_ws [].
Proof. reflexivity. Qed.

Lemma all_ws_app (a b : jsstring) : all_ws a -> all_ws b -> all_ws (a ++ b).
Proof.
  unfold all_ws. intros Ha Hb. rewrite forallb_app, Ha, Hb. reflexivity.
Qed.

Lemma all_ws_rev (a : jsstring) : all_ws a -> all_ws (rev a).
Proof.
  unfold all_ws. rewrite !forallb_forall. intros H x Hx.
  apply H. now apply in_rev.
Qed.

Lemma len_nonneg (s : jsstring) : 0 <= len s.
Proof. unfold len. lia. Qed.

Lemma len_app (a b : jsstring) : len (a ++ b) = len a + len b.
Proof. unfold len. rewrite length_app. lia. Qed.

Lemma substring_eq (s : jsstring) (a b : Z) :
  0 <= a <= b -> b <= len s ->
  substring s a b = firstn (Z.to_nat (b - a)) (skipn (Z.to_nat a) s).
Proof.
  intros Hab Hb. unfold substring, clamp, len in *.
  replace (Z.to_nat (Z.min (Z.max a 0) (Z.of_nat (length s)))) with (Z.to_nat a) by lia.
  replace (Z.to_nat (Z.min (Z.max b 0) (Z.of_nat (length s)))) with (Z.to_nat b) by lia.
  replace (Nat.min (Z.to_nat a) (Z.to_nat b)) with (Z.to_nat a) by lia.
  replace (Nat.max (Z.to_nat a) (Z.to_nat b)) with (Z.to_nat b) by lia.
  f_equal. lia.
Qed.

Lemma substring_length (s : jsstring) (a b : Z) :
  0 <= a <= b -> b <= len s -> len (substring s a b) = b - a.
Proof.
  intros Hab Hb. rewrite substring_eq by assumption.
  unfold len in *. rewrite length_firstn, length_skipn. lia.
Qed.

Lemma substring_whole (s : jsstring) : substring s 0 (len s) = s.
Proof.
  rewrite substring_eq by (pose proof (len_nonneg s); lia).
  unfold len. simpl. rewrite Z.sub_0_r, Nat2Z.id. apply firstn_all.
Qed.

Lemma firstn_plus {A : Type} (n m : nat) (l : list A) :
  firstn (n + m) l = firstn n l ++ firstn m (skipn n l).
Proof.
  revert l. induction n as [|n IH]; intros l; [reflexivity|].
  destruct l as [|x l]; simpl.
  - now rewrite firstn_nil.
  - now rewrite IH.
Qed.

Lemma substring_split (s : jsstring) (a b c : Z) :
  0 <= a <= b -> b <= c -> c <= len s ->
  substring s a c = substring s a b ++ substring s b c.
Proof.
  intros Hab Hbc Hc. rewrite !substring_eq by lia.
  replace (Z.to_nat (c - a)) with (Z.to_nat (b - a) + Z.to_nat (c - b))%nat by lia.
  rewrite firstn_plus. f_equal.
  rewrite skipn_skipn. do 2 f_equal. lia.
Qed.

Lemma substring_unit (s : jsstring) (k : Z) (c : char) :
  0 <= k -> nth_error s (Z.to_nat k) = Some c ->
  substring s k (k + 1) = [c].
Proof.
  intros Hk Hn.
  assert (Hlt : (Z.to_nat k < length s)%nat)
    by (apply nth_error_Some; congruence).
  rewrite substring_eq by (unfold len; lia).
  replace (Z.to_nat (k + 1 - k)) with 1%nat by lia.
  destruct (nth_error_split s _ Hn) as (l1 & l2 & Hs & Hl).
  rewrite Hs at 1. rewrite <- Hl.
  rewrite skipn_app, skipn_all, Nat.sub_diag. reflexivity.
Qed.

(** ** [trim] *)

Lemma trimStart_decomp (s : jsstring) :
  exists l, s = l ++ trimStart s /\ all_ws l.
Proof.
  induction s as [|c r IH]; simpl.
  - exists []. split; [reflexivity | apply all_ws_nil].
  - destruct (is_ws c) eqn:Hc.
    + destruct IH as (l & Hl & Hw). exists (c :: l). split.
      * simpl. now rewrite <- Hl.
      * unfold all_ws in *. simpl. now rewrite Hc, Hw.
    + exists []. split; [reflexivity | apply all_ws_nil].
Qed.

Lemma trimEnd_rev (s : jsstring) : trimEnd s = rev (trimStart (rev s)).
Proof. unfold trimEnd. now rewrite <- !rev_alt. Qed.

Lemma trimEnd_decomp (s : jsstring) :
  exists r, s = trimEnd s ++ r /\ all_ws r.
Proof.
  rewrite trimEnd_rev. destruct (trimStart_decomp (rev s)) as (l & Hl & Hw).
  exists (rev l). split.
  - rewrite <- rev_app_distr, <- Hl. symmetry. apply rev_involutive.
  - now apply all_ws_rev.
Qed.

Lemma trim_decomp (s : jsstring) :
  exists l r, s = l ++ trim s ++ r /\ all_ws l /\ all_ws r.
Proof.
  unfold trim. destruct (trimStart_decomp s) as (l & Hl & Hwl).
  destruct (trimEnd_decomp (trimStart s)) as (r & Hr & Hwr).
  exists l, r. repeat split; try assumption.
  rewrite <- Hr. exact Hl.
Qed.

Lemma trim_length_le (s : jsstring) : (length (trim s) <= length s)%nat.
Proof.
  destruct (trim_decomp s) as (l & r & Hs & _).
  rewrite Hs at 2. rewrite !length_app. lia.
Qed.

Lemma trim_nil_all_ws (s : jsstring) : trim s = [] -> all_ws s.
Proof.
  intros H. destruct (trim_decomp s) as (l & r & Hs & Hl & Hr).
  rewrite Hs, H. simpl. now apply all_ws_app.
Qed.

Lemma trimStart_head (s : jsstring) :
  match trimStart s with
  | [] => True
  | c :: _ => is_ws c = false
  end.
Proof.
  induction s as [|c r IH]; simpl; [exact I|].
  destruct (is_ws c) eqn:Hc; [exact IH | exact Hc].
Qed.

Lemma trimStart_fixed (s : jsstring) :
  match s with [] => True | c :: _ => is_ws c = false end ->
  trimStart s = s.
Proof. destruct s as [|c r]; simpl; [reflexivity|]. now intros ->. Qed.

Lemma trimStart_app_keep (s t : jsstring) :
  trimStart s <> [] -> trimStart (s ++ t) = trimStart s ++ t.
Proof.
  induction s as [|c r IH]; simpl; [congruence|].
  destruct (is_ws c); [exact IH | reflexivity].
Qed.

Lemma trimStart_app_ws (s t : jsstring) :
  all_ws s -> trimStart (s ++ t) = trimStart t.
Proof.
  unfold all_ws. induction s as [|c r IH]; simpl; [reflexivity|].
  destruct (is_ws c); simpl; [exact IH | discriminate].
Qed.

(** A trailing white-space unit does not survive [trim]. *)
Lemma trim_snoc_ws (s : jsstring) (c : char) :
  is_ws c = true -> trim (s ++ [c]) = trim s.
Proof.
  intros Hc. unfold trim. rewrite !trimEnd_rev.
  destruct (trimStart s) as [|x xs] eqn:Hs.
  - assert (Hall : all_ws s).
    { destruct (trimStart_decomp s) as (l & Hl & Hw).
      rewrite Hs, app_nil_r in Hl. now subst l. }
    rewrite trimStart_app_ws by assumption. simpl. now rewrite Hc.
  - rewrite trimStart_app_keep by congruence. rewrite Hs.
    rewrite rev_app_distr. simpl. now rewrite Hc.
Qed.

Lemma trim_idempotent (s : jsstring) : trim (trim s) = trim s.
Proof.
  unfold trim at 1.
  assert (H1 : trimStart (trim s) = trim s).
  { unfold trim. rewrite trimEnd_rev.
    pose proof (trimStart_head s) as Hh.
    destruct (trimStart s) as [|x xs] eqn:Hs; [reflexivity|].
    pose proof (trimStart_head (rev (x :: xs))) as Hr.
    destruct (trimStart (rev (x :: xs))) as [|y ys] eqn:Hy; [reflexivity|].
    (* the head [x] is kept by [trimEnd], since it is not white space *)
    assert (Hx : exists zs, rev (y :: ys) = x :: zs).
    { destruct (trimStart_decomp (rev (x :: xs))) as (l & Hl & _).
      rewrite Hy in Hl. apply (f_equal (@rev char)) in Hl.
      rewrite rev_involutive, rev_app_distr in Hl.
      destruct (rev (y :: ys)) as [|z zs] eqn:Hz.
      - apply (f_equal (@length char)) in Hz. rewrite length_rev in Hz.
        discriminate.
      - simpl in Hl. injection Hl as -> _. now exists zs. }
    destruct Hx as (zs & ->). apply trimStart_fixed. exact Hh. }
  rewrite H1. unfold trim. rewrite !trimEnd_rev, rev_involutive.
  rewrite trimStart_fixed; [reflexivity|].
  apply trimStart_head.
Qed.

(** A string that ends in a unit that is not white space keeps it. *)
Lemma trim_snoc_keep (s : jsstring) (c : char) :
  is_ws c = false -> trim (s ++ [c]) <> [].
Proof.
  intros Hc H. apply trim_nil_all_ws in H. unfold all_ws in H.
  rewrite forallb_app in H. simpl in H. rewrite Hc in H.
  rewrite andb_false_r in H. discriminate.
Qed.

(** ** [lastIndexOf] *)

Lemma last_index_in_spec (c : char) (s : jsstring) (i found : Z) :
  let r := last_index_in c s i found in
  r = found \/
  (i <= r < i + len s /\ nth_error s (Z.to_nat (r - i)) = Some c).
Proof.
  revert i found. induction s as [|x rest IH]; intros i found; simpl.
  - now left.
  - specialize (IH (i + 1) (if N.eqb x c then i else found)).
    simpl in IH. unfold len in *. simpl length.
    destruct IH as [IH | (Hr & Hn)].
    + rewrite IH. destruct (N.eqb x c) eqn:Hx.
      * right. split; [lia|]. rewrite Z.sub_diag. simpl.
        apply N.eqb_eq in Hx. now subst.
      * now left.
    + right. split; [lia|].
      replace (Z.to_nat (last_index_in c rest (i + 1)
                           (if N.eqb x c then i else found) - i))
        with (S (Z.to_nat (last_index_in c rest (i + 1)
                           (if N.eqb x c then i else found) - (i + 1)))) by lia.
      exact Hn.
Qed.

Lemma lastIndexOf_spec (s : jsstring) (c : char) (fromIndex : Z) :
  let r := lastIndexOf s c fromIndex in
  r = -1 \/
  (0 <= r <= Z.max fromIndex 0 /\ r < len s /\ nth_error s (Z.to_nat r) = Some c).
Proof.
  unfold lastIndexOf.
  set (start := Z.min (Z.max fromIndex 0) (len s - 1)).
  pose proof (last_index_in_spec c (firstn (Z.to_nat (start + 1)) s) 0 (-1)) as H.
  simpl in H. destruct H as [H | (Hr & Hn)]; [now left|]. right.
  set (r := last_index_in c (firstn (Z.to_nat (start + 1)) s) 0 (-1)) in *.
  unfold len in Hr. rewrite length_firstn in Hr.
  rewrite Z.sub_0_r in Hn.
  assert (Hlt : (Z.to_nat r < length (firstn (Z.to_nat (start + 1)) s))%nat)
    by (apply nth_error_Some; congruence).
  rewrite length_firstn in Hlt.
  rewrite nth_error_firstn in Hn.
  destruct (Nat.ltb_spec (Z.to_nat r) (Z.to_nat (start + 1))) as [Hl|Hl]; [|discriminate].
  unfold len in *. subst start. split; [lia | split; [lia | exact Hn]].
Qed.

End JsFacts.
(* ================================================================== *)
(** * The regular-expression loop terminates *)

Section RegexFacts.
Import Js Regex.

Lemma run_le (p : char -> bool) (s : jsstring) : run p s <= length s.
Proof.
  induction s as [|c r IH]; simpl; [lia|]. destruct (p c); lia.
Qed.

Lemma match_here_bounds (s : jsstring) (n : nat) :
  match_here s = Some n -> 1 <= n <= length s.
Proof.
  destruct s as [|c r]; [discriminate|]. unfold match_here.
  destruct (is_terminator c && (0 <? run is_ws r)).
  - intros [= <-]. pose proof (run_le is_ws r). simpl. lia.
  - destruct (is_newline c) eqn:Hc; [|discriminate].
    intros [= <-]. pose proof (run_le is_newline r).
    simpl. rewrite Hc. lia.
Qed.

Lemma search_bounds (s : jsstring) (i j n : nat) :
  search s i = Some (j, n) -> i <= j /\ 1 <= n /\ j + n <= i + length s.
Proof.
  revert i. induction s as [|c r IH]; intros i; [discriminate|].
  cbn [search]. destruct (match_here (c :: r)) as [m|] eqn:Hm.
  - intros [= <- <-]. apply match_here_bounds in Hm. lia.
  - intros H. apply IH in H. simpl. lia.
Qed.

Lemma exec_bounds (re re' : RegExp) (s : jsstring) (j n : nat) :
  exec re s = (Some (j, n), re') ->
  lastIndex re <= j /\ 1 <= n /\ j + n <= length s /\ lastIndex re' = j + n.
Proof.
  unfold exec. destruct (Nat.ltb_spec (length s) (lastIndex re)) as [Hl|Hl];
    [discriminate|].
  destruct (search (skipn (lastIndex re) s) (lastIndex re)) as [[i m]|] eqn:Hs;
    [|discriminate].
  intros [= <- <- <-]. apply search_bounds in Hs.
  rewrite length_skipn in Hs. simpl. lia.
Qed.

Lemma exec_loop_total (s : jsstring) (cur : Z) (fuel : nat) :
  forall (re : RegExp) (last : Z),
    length s <= fuel + lastIndex re ->
    exists r, exec_loop (S fuel) re s cur last = Some r.
Proof.
  induction fuel as [|fuel IH]; intros re last Hf; cbn [exec_loop];
    destruct (exec re s) as [[[j n]|] re'] eqn:He; eauto.
  - apply exec_bounds in He. lia.
  - apply IH. apply exec_bounds in He. lia.
Qed.

(** The loop over the matches always ends within its fuel. *)
Lemma lastMatch_total (s : jsstring) (cur : Z) :
  exists r, lastMatch s cur = Some r.
Proof. apply exec_loop_total. simpl. lia. Qed.

Lemma is_newline_ws (c : char) : is_newline c = true -> is_ws c = true.
Proof.
  unfold is_newline. intros H. apply orb_true_iff in H.
  destruct H as [H|H]; apply N.eqb_eq in H; subst; reflexivity.
Qed.

(** Without white space there is nothing to match. *)
Lemma search_no_ws (s : jsstring) (i : nat) :
  Forall (fun c => is_ws c = false) s -> search s i = None.
Proof.
  revert i. induction s as [|c r IH]; intros i H; [reflexivity|].
  inversion H as [|? ? Hc Hr]; subst. cbn [search match_here].
  assert (Hrun : run is_ws r = 0).
  { destruct r as [|d r']; [reflexivity|]. inversion Hr; subst.
    simpl. now replace (is_ws d) with false. }
  rewrite Hrun, andb_false_r.
  destruct (is_newline c) eqn:Hn.
  - apply is_newline_ws in Hn. congruence.
  - now apply IH.
Qed.

Lemma lastMatch_no_ws (s : jsstring) (cur : Z) :
  Forall (fun c => is_ws c = false) s -> lastMatch s cur = Some (-1)%Z.
Proof.
  intros H. unfold lastMatch. cbn [exec_loop]. unfold exec.
  simpl. now rewrite search_no_ws.
Qed.

End RegexFacts.

(* ================================================================== *)
(** * The loop of [chunkText] *)

(** Induction on the run, with the names of the four cases: leaving the
    loop, the last chunk, a chunk pushed, a candidate dropped. *)
Ltac induct_run :=
  induction 1 as [pos idx cs Hge | pos idx cs Hlt Hlast
                  | pos idx cs lm sp r Hlt Hmore Hlm Hsp Hne HR IH
                  | pos idx cs lm sp r Hlt Hmore Hlm Hsp He HR IH].

Section ChunkerFacts.
Import Js Chunker ChunkRun.
Local Open Scope Z_scope.

Variable text : jsstring.
Variable maxLength : Z.
Hypothesis Hmax : 1 <= maxLength.

(** The split point lies strictly after the current position, inside
    the input, and passes the window by at most the space it follows. *)
Lemma choose_split_bounds (pos lm : Z) :
  0 <= pos -> pos + maxLength < len text ->
  let sp := choose_split text pos (pos + maxLength) lm in
  pos < sp /\ sp <= pos + maxLength + 1 /\ sp <= len text /\
  (pos + maxLength < sp ->
   nth_error text (Z.to_nat (pos + maxLength)) = Some space).
Proof.
  intros Hpos Hend. unfold choose_split.
  destruct ((lm >? pos) && (lm <=? pos + maxLength)) eqn:Hm.
  - apply andb_true_iff in Hm. destruct Hm as [H1 H2].
    apply Z.gtb_lt in H1. apply Z.leb_le in H2. cbv zeta. lia.
  - pose proof (lastIndexOf_spec text space (pos + maxLength)) as Hs.
    cbv zeta in *.
    destruct (lastIndexOf text space (pos + maxLength) >? pos) eqn:Hg.
    + apply Z.gtb_lt in Hg.
      destruct Hs as [Hs | (Hr & Hl & Hn)]; [lia|].
      repeat split; try lia. intros Hlt.
      replace (pos + maxLength) with (lastIndexOf text space (pos + maxLength)) at 1 by lia.
      exact Hn.
    + repeat split; lia.
Qed.

Lemma split_text_bound (pos lm : Z) :
  0 <= pos -> pos + maxLength < len text ->
  len (trim (substring text pos (choose_split text pos (pos + maxLength) lm)))
  <= maxLength.
Proof.
  intros Hpos Hend.
  destruct (choose_split_bounds lm Hpos Hend) as (H1 & H2 & H3 & H4).
  set (sp := choose_split text pos (pos + maxLength) lm) in *.
  destruct (Z_le_gt_dec sp (pos + maxLength)) as [Hle|Hgt].
  - pose proof (trim_length_le (substring text pos sp)) as Ht.
    pose proof (@substring_length text pos sp ltac:(lia) ltac:(lia)) as Hl.
    unfold len in *. lia.
  - assert (Hsp : sp = pos + maxLength + 1) by lia.
    rewrite Hsp.
    rewrite (@substring_split text pos (pos + maxLength) (pos + maxLength + 1))
      by lia.
    rewrite (@substring_unit text (pos + maxLength) space) by (try apply H4; lia).
    rewrite trim_snoc_ws by reflexivity.
    pose proof (trim_length_le (substring text pos (pos + maxLength))) as Ht.
    pose proof (@substring_length text pos (pos + maxLength) ltac:(lia) ltac:(lia)) as Hl.
    unfold len in *. lia.
Qed.

(** Every pass ends the loop or moves forward, so the loop returns
    within [len text - currentPosition + 1] passes, along a [Run]. *)
Lemma loop_runs (fuel : nat) :
  forall (pos : Z) (idx : nat) (cs : list TextChunk),
    0 <= pos -> (Z.to_nat (len text - pos) < fuel)%nat ->
    exists r, loop fuel text maxLength pos idx cs = Some r /\
              Run text maxLength pos idx cs r.
Proof.
  induction fuel as [|fuel IH]; intros pos idx cs Hpos Hfuel; [lia|].
  cbn [loop]. destruct (Z.ltb_spec pos (len text)) as [Hlt|Hge].
  - unfold loop_body.
    destruct (Z.geb_spec (pos + maxLength) (len text)) as [Hlast|Hmore].
    + eexists. split; [reflexivity|]. apply Run_last; lia.
    + destruct (lastMatch_total (substring text pos (pos + maxLength)) pos)
        as (lm & Hlm).
      rewrite Hlm. cbv zeta.
      destruct (choose_split_bounds lm Hpos Hmore) as (H1 & H2 & H3 & _).
      set (sp := choose_split text pos (pos + maxLength) lm) in *.
      destruct (Nat.ltb_spec 0 (length (trim (substring text pos sp)))) as [Hne|He].
      * destruct (IH sp (S idx) (cs ++ [splitChunk text pos sp idx])) as (r & Hr & HR);
          [lia | lia |].
        exists r. split; [exact Hr|].
        apply Run_push with (lm := lm) (split := sp); auto.
        intros E. rewrite E in Hne. simpl in Hne. lia.
      * destruct (IH sp idx cs) as (r & Hr & HR); [lia | lia |].
        exists r. split; [exact Hr|].
        apply Run_drop with (lm := lm) (split := sp); auto.
        destruct (trim (substring text pos sp)); [reflexivity | simpl in He; lia].
  - eexists. split; [reflexivity|]. now apply Run_exit.
Qed.

(** ** Invariants along a run *)


Lemma Run_chunk_ok (pos : Z) (idx : nat) (cs r : list TextChunk) :
  Run text maxLength pos idx cs r -> 0 <= pos ->
  Forall (chunk_ok text maxLength) cs -> Forall (chunk_ok text maxLength) r.
Proof.
  induct_run;
    intros Hpos Hcs.
  - exact Hcs.
  - apply Forall_app. split; [exact Hcs|]. constructor; [|constructor].
    unfold chunk_ok, lastChunk, substring_from. cbn.
    repeat split; try lia.
    + exists [], []. repeat split; try apply all_ws_nil.
      now rewrite app_nil_r.
    + rewrite substring_length; lia.
  - destruct (choose_split_bounds lm Hpos Hmore) as (H1 & H2 & H3 & _).
    rewrite <- Hsp in *. apply IH; [lia|].
    apply Forall_app. split; [exact Hcs|]. constructor; [|constructor].
    unfold chunk_ok, splitChunk. cbn. repeat split; try lia.
    + destruct (trim_decomp (substring text pos sp)) as (l & r' & E & Hl & Hr).
      exists l, r'. auto.
    + rewrite Hsp. now apply split_text_bound.
  - destruct (choose_split_bounds lm Hpos Hmore) as (H1 & H2 & H3 & _).
    rewrite <- Hsp in *. apply IH; [lia | exact Hcs].
Qed.

Lemma Run_dense (pos : Z) (idx : nat) (cs r : list TextChunk) :
  Run text maxLength pos idx cs r ->
  map index cs = seq 0 idx -> map index r = seq 0 (length r).
Proof.
  assert (Hlen : forall (l : list TextChunk) n, map index l = seq 0 n -> length l = n).
  { intros l n E. apply (f_equal (@length nat)) in E.
    now rewrite length_map, length_seq in E. }
  induct_run;
    intros Hcs.
  - now rewrite (Hlen _ _ Hcs).
  - rewrite length_app, map_app, Hcs, (Hlen _ _ Hcs). cbn.
    rewrite Nat.add_1_r, seq_S. reflexivity.
  - apply IH. rewrite map_app, Hcs, seq_S. reflexivity.
  - apply IH, Hcs.
Qed.

Lemma weave_snoc (gaps texts : list jsstring) (g t : jsstring) :
  length gaps = length texts ->
  weave (gaps ++ [g]) (texts ++ [t]) = weave gaps texts ++ g ++ t.
Proof.
  revert texts. induction gaps as [|a gaps IH]; intros [|b texts] E;
    try discriminate; cbn.
  - now rewrite app_nil_r.
  - injection E as E. rewrite IH by exact E. now rewrite <- !app_assoc.
Qed.

Lemma covers_snoc (t : jsstring) (cs : list TextChunk) (c : TextChunk)
      (l r : jsstring) :
  covers t cs -> all_ws l -> all_ws r ->
  covers (t ++ l ++ Chunker.text c ++ r) (cs ++ [c]).
Proof.
  intros (gaps & tail & Hlen & Hg & Ht & E) Hl Hr.
  exists (gaps ++ [tail ++ l]), r. repeat split.
  - rewrite !length_app. cbn. lia.
  - apply Forall_app. split; [exact Hg|].
    constructor; [now apply all_ws_app | constructor].
  - exact Hr.
  - rewrite map_app. cbn. rewrite weave_snoc by now rewrite length_map.
    rewrite E. now rewrite <- !app_assoc.
Qed.

Lemma covers_blank (t : jsstring) (cs : list TextChunk) (b : jsstring) :
  covers t cs -> all_ws b -> covers (t ++ b) cs.
Proof.
  intros (gaps & tail & Hlen & Hg & Ht & E) Hb.
  exists gaps, (tail ++ b). repeat split; try assumption.
  - now apply all_ws_app.
  - rewrite E. now rewrite <- app_assoc.
Qed.

Lemma Run_covers (pos : Z) (idx : nat) (cs r : list TextChunk) :
  Run text maxLength pos idx cs r -> 0 <= pos <= len text ->
  covers (substring text 0 pos) cs -> covers text r.
Proof.
  induct_run;
    intros Hpos Hcs.
  - replace pos with (len text) in Hcs by lia.
    now rewrite substring_whole in Hcs.
  - rewrite <- (substring_whole text) at 1.
    rewrite (@substring_split text 0 pos (len text)) by lia.
    pose proof (@covers_snoc _ _ (lastChunk text pos idx) [] [] Hcs
                  all_ws_nil all_ws_nil) as H.
    cbn in H. rewrite app_nil_r in H. exact H.
  - destruct (@choose_split_bounds pos lm ltac:(lia) Hmore) as (H1 & H2 & H3 & _).
    rewrite <- Hsp in *. apply IH; [lia|].
    rewrite (@substring_split text 0 pos sp) by lia.
    destruct (trim_decomp (substring text pos sp)) as (l & r' & E & Hl & Hr).
    rewrite E at 1.
    exact (@covers_snoc _ _ (splitChunk text pos sp idx) l r' Hcs Hl Hr).
  - destruct (@choose_split_bounds pos lm ltac:(lia) Hmore) as (H1 & H2 & H3 & _).
    rewrite <- Hsp in *. apply IH; [lia|].
    rewrite (@substring_split text 0 pos sp) by lia.
    apply covers_blank; [exact Hcs|]. now apply trim_nil_all_ws.
Qed.

Lemma Forall_removelast {A : Type} (P : A -> Prop) (l : list A) :
  Forall P l -> Forall P (removelast l).
Proof.
  induction 1 as [|x l Hx Hl IH]; [constructor|].
  destruct l as [|y l]; [constructor|].
  cbn [removelast]. constructor; [exact Hx | exact IH].
Qed.

Lemma Run_trimmed (pos : Z) (idx : nat) (cs r : list TextChunk) :
  Run text maxLength pos idx cs r ->
  Forall trimmed cs -> Forall trimmed (removelast r).
Proof.
  induct_run;
    intros Hcs.
  - now apply Forall_removelast.
  - now rewrite removelast_last.
  - apply IH. apply Forall_app. split; [exact Hcs|].
    constructor; [|constructor]. split; cbn; [exact Hne | apply trim_idempotent].
  - apply IH, Hcs.
Qed.

(** When the input ends in a unit that is not white space, the chunk
    pushed by the last pass has something left after trimming. *)
Lemma Run_inked (t' : jsstring) (c : char) (pos : Z) (idx : nat)
      (cs r : list TextChunk) :
  text = t' ++ [c] -> is_ws c = false ->
  Run text maxLength pos idx cs r -> 0 <= pos ->
  Forall (fun x => trim (Chunker.text x) <> []) cs ->
  Forall (fun x => trim (Chunker.text x) <> []) r.
Proof.
  intros Et Hc.
  induct_run;
    intros Hpos Hcs.
  - exact Hcs.
  - apply Forall_app. split; [exact Hcs|]. constructor; [|constructor].
    cbn. unfold substring_from.
    assert (Hl : len text = len t' + 1) by (rewrite Et, len_app; reflexivity).
    rewrite (@substring_split text pos (len t') (len text)) by lia.
    assert (Hu : substring text (len t') (len text) = [c]).
    { rewrite Hl. apply substring_unit; [apply len_nonneg|].
      unfold len. rewrite Nat2Z.id, Et.
      rewrite nth_error_app2 by lia. now rewrite Nat.sub_diag. }
    rewrite Hu. now apply trim_snoc_keep.
  - destruct (@choose_split_bounds pos lm Hpos Hmore) as (H1 & _).
    rewrite <- Hsp in *. apply IH; [lia|].
    apply Forall_app. split; [exact Hcs|]. constructor; [|constructor].
    unfold splitChunk. cbn [Chunker.text]. rewrite trim_idempotent. exact Hne.
  - destruct (@choose_split_bounds pos lm Hpos Hmore) as (H1 & _).
    rewrite <- Hsp in *. apply IH; [lia | exact Hcs].
Qed.

Lemma StronglySorted_snoc {A : Type} (R : A -> A -> Prop) (l : list A) (c : A) :
  StronglySorted R l -> Forall (fun x => R x c) l -> StronglySorted R (l ++ [c]).
Proof.
  induction 1 as [|a l Hl IH Ha]; intros Hc; cbn.
  - repeat constructor.
  - inversion Hc as [|? ? Hac Hlc]; subst. constructor; [now apply IH|].
    apply Forall_app. split; [exact Ha | now constructor].
Qed.

(** The regions are visited from left to right. *)
Lemma Run_ordered (pos : Z) (idx : nat) (cs r : list TextChunk) :
  Run text maxLength pos idx cs r -> 0 <= pos ->
  Forall (fun c => endChar c <= pos) cs ->
  in_offset_order cs -> in_offset_order r.
Proof.
  unfold in_offset_order.
  induct_run;
    intros Hpos Hend Hcs.
  - exact Hcs.
  - now apply StronglySorted_snoc.
  - destruct (choose_split_bounds lm Hpos Hmore) as (H1 & _).
    rewrite <- Hsp in *. apply IH; [lia | |].
    + apply Forall_app. split.
      * eapply Forall_impl; [|exact Hend]. cbv beta. intros c Hc. lia.
      * constructor; [cbn; lia | constructor].
    + now apply StronglySorted_snoc.
  - destruct (choose_split_bounds lm Hpos Hmore) as (H1 & _).
    rewrite <- Hsp in *. apply IH; [lia | | exact Hcs].
    eapply Forall_impl; [|exact Hend]. cbv beta. intros c Hc. lia.
Qed.

End ChunkerFacts.

(* ================================================================== *)
(** * Inputs without white space, fuel, and the chunks of [chunkText] *)

Section ChunkerMore.
Import Js Chunker ChunkRun.
Local Open Scope Z_scope.

Lemma no_ws_substring (s : jsstring) (a b : Z) : no_ws s -> no_ws (substring s a b).
Proof.
  unfold no_ws, substring. intros H.
  set (lo := Nat.min (clamp s a) (clamp s b)).
  set (n := (Nat.max (clamp s a) (clamp s b) - lo)%nat).
  assert (H1 : Forall (fun c => is_ws c = false) (skipn lo s)).
  { rewrite <- (firstn_skipn lo s) in H. apply Forall_app in H. tauto. }
  rewrite <- (firstn_skipn n (skipn lo s)) in H1.
  apply Forall_app in H1. tauto.
Qed.

Lemma no_ws_head (s : jsstring) :
  no_ws s -> match s with [] => True | c :: _ => is_ws c = false end.
Proof. destruct 1; [exact I | assumption]. Qed.

Lemma trim_no_ws (s : jsstring) : no_ws s -> trim s = s.
Proof.
  intros H. unfold trim. rewrite trimEnd_rev.
  rewrite (trimStart_fixed s) by now apply no_ws_head.
  rewrite trimStart_fixed by (apply no_ws_head; now apply Forall_rev).
  apply rev_involutive.
Qed.

Lemma choose_split_no_ws (text : jsstring) (pos chunkEnd : Z) :
  no_ws text -> 0 <= pos -> choose_split text pos chunkEnd (-1) = chunkEnd.
Proof.
  intros Hn Hpos. unfold choose_split.
  assert (Hf : (-1 >? pos) = false) by (rewrite Z.gtb_ltb; apply Z.ltb_ge; lia).
  rewrite Hf. cbn [andb].
  destruct (lastIndexOf_spec text space chunkEnd) as [E | (_ & _ & Hnth)].
  - now rewrite E, Hf.
  - apply nth_error_In in Hnth. unfold no_ws in Hn.
    rewrite Forall_forall in Hn. apply Hn in Hnth. discriminate.
Qed.

Variable text : jsstring.
Variable maxLength : Z.
Hypothesis Hmax : 1 <= maxLength.

(** On an input without white space every split is a hard cut at
    [currentPosition + maxLength]. *)
Lemma Run_hard_cut (pos : Z) (idx : nat) (cs r : list TextChunk) :
  no_ws text ->
  Run text maxLength pos idx cs r -> pos = Z.of_nat idx * maxLength ->
  Forall (hard_cut text maxLength) cs -> Forall (hard_cut text maxLength) r.
Proof.
  intros Hn.
  induct_run;
    intros Hpos Hcs.
  - exact Hcs.
  - apply Forall_app. split; [exact Hcs|]. constructor; [|constructor].
    unfold hard_cut, lastChunk, substring_from. cbn.
    repeat split; lia.
  - rewrite lastMatch_no_ws in Hlm by now apply no_ws_substring.
    injection Hlm as <-. rewrite choose_split_no_ws in Hsp by (auto; lia).
    subst sp. apply IH; [lia|].
    apply Forall_app. split; [exact Hcs|]. constructor; [|constructor].
    unfold hard_cut, splitChunk. cbn. repeat split; try lia.
    apply trim_no_ws. now apply no_ws_substring.
  - rewrite lastMatch_no_ws in Hlm by now apply no_ws_substring.
    injection Hlm as <-. rewrite choose_split_no_ws in Hsp by (auto; lia).
    subst sp. rewrite trim_no_ws in He by now apply no_ws_substring.
    apply (f_equal len) in He.
    rewrite substring_length in He by lia. cbn in He. lia.
Qed.

Lemma loop_fuel_mono (fuel : nat) :
  forall (pos : Z) (idx : nat) (cs r : list TextChunk) (fuel' : nat),
    loop fuel text maxLength pos idx cs = Some r -> (fuel <= fuel')%nat ->
    loop fuel' text maxLength pos idx cs = Some r.
Proof.
  induction fuel as [|fuel IH]; intros pos idx cs r fuel' H Hle; [discriminate|].
  destruct fuel' as [|fuel']; [lia|]. cbn [loop] in *.
  destruct (pos <? len text); [|exact H].
  destruct (loop_body text maxLength pos idx cs) as [[cs'|p i cs']|];
    try exact H.
  apply IH with (fuel' := fuel') in H; [exact H | lia].
Qed.

(** One pass through the loop body never fails, and when it does not
    leave the loop it moves [currentPosition] strictly forward. *)
Lemma loop_body_advances (pos : Z) (idx : nat) (cs : list TextChunk) :
  0 <= pos < len text ->
  match loop_body text maxLength pos idx cs with
  | Some (Break _) => True
  | Some (Continue p _ _) => pos < p <= len text
  | None => False
  end.
Proof.
  intros Hpos. unfold loop_body.
  destruct (Z.geb_spec (pos + maxLength) (len text)) as [Hlast|Hmore]; [exact I|].
  destruct (lastMatch_total (substring text pos (pos + maxLength)) pos) as (lm & ->).
  cbv zeta.
  destruct (@choose_split_bounds text maxLength Hmax pos lm ltac:(lia) Hmore)
    as (H1 & _ & H3 & _).
  destruct (0 <? length _)%nat; lia.
Qed.

(** What a pass does: it leaves the loop only from the last window,
    pushing the rest of the input; otherwise it moves on to the split
    position and pushes the trimmed region, unless that is empty. *)
Lemma loop_body_step (pos : Z) (idx : nat) (cs : list TextChunk) :
  0 <= pos < len text ->
  match loop_body text maxLength pos idx cs with
  | Some (Break cs') =>
      len text <= pos + maxLength /\ cs' = cs ++ [lastChunk text pos idx]
  | Some (Continue p i cs') =>
      pos < p <= len text /\
      (i = S idx /\ cs' = cs ++ [splitChunk text pos p idx] \/
       i = idx /\ cs' = cs /\ trim (substring text pos p) = [])
  | None => False
  end.
Proof.
  intros Hpos. unfold loop_body.
  destruct (Z.geb_spec (pos + maxLength) (len text)) as [Hlast|Hmore];
    [split; [lia | reflexivity]|].
  destruct (lastMatch_total (substring text pos (pos + maxLength)) pos) as (lm & ->).
  cbv zeta.
  destruct (@choose_split_bounds text maxLength Hmax pos lm ltac:(lia) Hmore)
    as (H1 & _ & H3 & _).
  set (sp := choose_split text pos (pos + maxLength) lm) in *.
  destruct (Nat.ltb_spec 0 (length (trim (substring text pos sp)))) as [Hne|He].
  - split; [lia|]. left. split; reflexivity.
  - split; [lia|]. right. split; [reflexivity|]. split; [reflexivity|].
    destruct (trim (substring text pos sp)); [reflexivity | cbn in He; lia].
Qed.

(** A chunk that is a hard cut is the piece of its index. *)
Lemma hard_cut_cutAt (c : TextChunk) :
  hard_cut text maxLength c -> c = cutAt text maxLength (index c).
Proof.
  destruct c as [i t s e]. unfold hard_cut, cutAt. cbn [index Chunker.text startChar endChar].
  intros (-> & -> & ->). reflexivity.
Qed.

Lemma hard_cuts_by_index (r : list TextChunk) :
  Forall (hard_cut text maxLength) r -> r = map (cutAt text maxLength) (map index r).
Proof.
  induction 1 as [|c r Hc Hr IH]; [reflexivity|].
  cbn [map]. rewrite <- IH. f_equal. now apply hard_cut_cutAt.
Qed.

(** The number of pieces of a token that does not fit in one chunk. *)
Lemma Run_cut_count (pos : Z) (idx : nat) (cs r : list TextChunk) :
  no_ws text ->
  Run text maxLength pos idx cs r -> pos = Z.of_nat idx * maxLength ->
  length cs = idx -> pos < len text ->
  length r = pieces text maxLength.
Proof.
  intros Hn.
  induct_run;
    intros Hpos Hcs Hin.
  - lia.
  - rewrite length_app. cbn [length]. unfold pieces.
    assert (E : (len text + maxLength - 1) / maxLength = Z.of_nat idx + 1).
    { symmetry.
      apply Z.div_unique with (r := len text + maxLength - 1
                                    - maxLength * (Z.of_nat idx + 1)); lia. }
    rewrite E. lia.
  - rewrite lastMatch_no_ws in Hlm by now apply no_ws_substring.
    injection Hlm as <-. rewrite choose_split_no_ws in Hsp by (auto; lia).
    subst sp. apply IH; [lia | rewrite length_app; cbn [length]; lia | lia].
  - rewrite lastMatch_no_ws in Hlm by now apply no_ws_substring.
    injection Hlm as <-. rewrite choose_split_no_ws in Hsp by (auto; lia).
    subst sp. rewrite trim_no_ws in He by now apply no_ws_substring.
    apply (f_equal len) in He.
    rewrite substring_length in He by lia. cbn in He. lia.
Qed.

(** The first [k] pieces laid end to end are the first [k * maxLength]
    units of the input. *)
Lemma hardCuts_prefix (k : nat) :
  concat (map (fun i => Chunker.text (cutAt text maxLength i)) (seq 0 k))
  = substring text 0 (Z.min (Z.of_nat k * maxLength) (len text)).
Proof.
  pose proof (len_nonneg text) as Hl.
  induction k as [|k IH].
  - cbn [seq map concat]. change (Z.of_nat 0 * maxLength) with 0.
    rewrite Z.min_l by lia. rewrite substring_eq by lia. reflexivity.
  - rewrite seq_S, map_app, concat_app, IH. cbn [Nat.add map concat cutAt Chunker.text].
    rewrite app_nil_r.
    destruct (Z_le_gt_dec (Z.of_nat k * maxLength) (len text)) as [Hk|Hk].
    + rewrite (@substring_split text 0 (Z.min (Z.of_nat k * maxLength) (len text))
                                (Z.min (Z.of_nat (S k) * maxLength) (len text))) by lia.
      f_equal. f_equal; lia.
    + replace (Z.min (Z.of_nat (S k) * maxLength) (len text)) with (len text) by lia.
      replace (Z.min (Z.of_nat k * maxLength) (len text)) with (len text) by lia.
      replace (Z.min (Z.of_nat k * maxLength + maxLength) (len text)) with (len text) by lia.
      assert (E : substring text (Z.of_nat k * maxLength) (len text) = []).
      { unfold substring, clamp.
        replace (Z.min (Z.max (Z.of_nat k * maxLength) 0) (len text)) with (len text) by lia.
        replace (Z.min (Z.max (len text) 0) (len text)) with (len text) by lia.
        rewrite Nat.min_id, Nat.max_id, Nat.sub_diag. reflexivity. }
      rewrite E. apply app_nil_r.
Qed.

(** The pieces of a token make up the token. *)
Lemma hardCuts_concat :
  concat (map Chunker.text (hardCuts text maxLength)) = text.
Proof.
  unfold hardCuts. rewrite map_map, hardCuts_prefix.
  pose proof (len_nonneg text) as Hl.
  replace (Z.min (Z.of_nat (pieces text maxLength) * maxLength) (len text))
    with (len text); [apply substring_whole|].
  unfold pieces.
  pose proof (Z.div_mod (len text + maxLength - 1) maxLength ltac:(lia)) as D.
  pose proof (Z.mod_pos_bound (len text + maxLength - 1) maxLength ltac:(lia)) as B.
  assert (0 <= (len text + maxLength - 1) / maxLength)
    by (apply Z.div_pos; lia).
  nia.
Qed.

(** [chunkText] returns: the whole input on the early return, else the
    array built by a run of the loop from position [0]. *)
Lemma chunkText_cases :
  (chunkText text maxLength = Some [whole text] /\
   (text = [] \/ len text <= maxLength)) \/
  (maxLength < len text /\
   exists r, chunkText text maxLength = Some r /\ Run text maxLength 0 0 [] r).
Proof.
  unfold chunkText, chunkText_fuel.
  destruct (Nat.eqb_spec (length text) 0) as [E|E].
  - left. split; [reflexivity|]. left. now apply length_zero_iff_nil.
  - cbn [orb]. destruct (Z.leb_spec (len text) maxLength) as [Hle|Hgt].
    + left. split; [reflexivity | now right].
    + right. split; [exact Hgt|].
      apply loop_runs; [exact Hmax | lia | unfold len; lia].
Qed.

Lemma ink_app (a b : jsstring) : ink (a ++ b) = ink a ++ ink b.
Proof. apply filter_app. Qed.

Lemma ink_all_ws (a : jsstring) : all_ws a -> ink a = [].
Proof.
  unfold all_ws, ink. induction a as [|c a IH]; cbn; [reflexivity|].
  destruct (is_ws c); cbn; [exact IH | discriminate].
Qed.

Lemma ink_weave (gaps texts : list jsstring) :
  Forall all_ws gaps -> length gaps = length texts ->
  ink (weave gaps texts) = ink (concat texts).
Proof.
  intros Hg. revert texts.
  induction Hg as [|g gaps Hgw Hgs IH]; intros [|t texts] E; try discriminate;
    [reflexivity|].
  cbn. injection E as E. rewrite !ink_app, (ink_all_ws Hgw), IH by exact E.
  reflexivity.
Qed.

(** Reconstruction up to white space keeps every other unit, once and
    in order. *)
Lemma covers_ink (t : jsstring) (cs : list TextChunk) :
  covers t cs -> ink (concat (map Chunker.text cs)) = ink t.
Proof.
  intros (gaps & tail & Hlen & Hg & Ht & ->).
  rewrite ink_app, (ink_all_ws Ht), app_nil_r.
  symmetry. apply ink_weave; [exact Hg | now rewrite length_map].
Qed.

End ChunkerMore.

(* ================================================================== *)
(** * The chunker: the properties of the specification *)

Section ChunkerTheorems.
Import Js Chunker ChunkRun.
Local Open Scope Z_scope.

(** C1. For every input and every [maxLength >= 1], [chunkText]
    returns, and every chunk it emits has a text of at most
    [maxLength] code units, trimmed or not; this covers the chunks
    split after a sentence end, after a space, by a hard cut, and the
    remainder pushed by the last pass. *)
Theorem chunkText_length_bound (text : jsstring) (maxLength : Z) :
  1 <= maxLength ->
  exists chunks,
    chunkText text maxLength = Some chunks /\
    Forall (fun c => len (trim (Chunker.text c)) <= maxLength /\
                     len (Chunker.text c) <= maxLength) chunks.
Proof.
  intros Hmax.
  assert (Htrim : forall s : jsstring, len s <= maxLength -> len (trim s) <= maxLength).
  { intros s Hs. pose proof (trim_length_le s). unfold len in *. lia. }
  destruct (chunkText_cases text Hmax) as [(E & Hw) | (Hgt & r & E & HR)].
  - exists [whole text]. split; [exact E|].
    constructor; [|constructor]. unfold whole. cbn [Chunker.text].
    assert (len text <= maxLength) by (destruct Hw as [-> | Hw]; [cbn; lia | exact Hw]).
    split; [apply Htrim|]; assumption.
  - exists r. split; [exact E|].
    assert (Hok : Forall (chunk_ok text maxLength) r)
      by (apply (Run_chunk_ok Hmax HR); [lia | constructor]).
    eapply Forall_impl; [|exact Hok].
    intros c (_ & _ & _ & Hc). split; [apply Htrim|]; assumption.
Qed.

Lemma chunkText_length_bound_witness :
  1 <= 25 /\
  exists chunks,
    chunkText hello 25 = Some chunks /\
    Forall (fun c => len (trim (Chunker.text c)) <= 25 /\
                     len (Chunker.text c) <= 25) chunks.
Proof. split; [lia | apply chunkText_length_bound; lia]. Defined.

(** C2. For every input and every [maxLength >= 1], the input is
    exactly the texts of the chunks in index order with white space
    before, between and after them; so the units that are not white
    space are those of the chunks, once each and in order; the text of
    every chunk is its region [[startChar, endChar)] of the input up to
    white space at the two ends of the region; and the regions follow
    one another without overlap. *)
Theorem chunkText_reconstructs (text : jsstring) (maxLength : Z) :
  1 <= maxLength ->
  exists chunks,
    chunkText text maxLength = Some chunks /\
    covers text chunks /\
    ink (concat (map Chunker.text chunks)) = ink text /\
    Forall (fun c =>
              0 <= startChar c <= endChar c /\ endChar c <= len text /\
              exists l r, all_ws l /\ all_ws r /\
                substring text (startChar c) (endChar c) = l ++ Chunker.text c ++ r)
           chunks /\
    in_offset_order chunks.
Proof.
  intros Hmax.
  assert (Hnil : covers (substring text 0 0) []).
  { exists [], []. repeat split; try constructor.
    rewrite substring_eq by (pose proof (len_nonneg text); lia). reflexivity. }
  destruct (chunkText_cases text Hmax) as [(E & Hw) | (Hgt & r & E & HR)].
  - exists [whole text]. split; [exact E|].
    assert (Hc : covers text [whole text]).
    { exists [[]], []. repeat split; try (repeat constructor).
      cbn. now rewrite !app_nil_r. }
    split; [exact Hc|]. split; [now apply covers_ink|].
    split; [|repeat constructor].
    constructor; [|constructor]. cbn. pose proof (len_nonneg text).
    repeat split; try lia.
    exists [], []. repeat split; try constructor.
    rewrite substring_whole. cbn. now rewrite app_nil_r.
  - exists r. split; [exact E|].
    assert (Hc : covers text r)
      by (apply (Run_covers Hmax HR); [pose proof (len_nonneg text); lia | exact Hnil]).
    split; [exact Hc|]. split; [now apply covers_ink|].
    assert (Hok : Forall (chunk_ok text maxLength) r)
      by (apply (Run_chunk_ok Hmax HR); [lia | constructor]).
    split.
    + eapply Forall_impl; [|exact Hok].
      intros c (H1 & H2 & H3 & _). auto.
    + apply (Run_ordered Hmax HR); [lia | constructor | constructor].
Qed.

Lemma chunkText_reconstructs_witness :
  1 <= 25 /\
  exists chunks,
    chunkText hello 25 = Some chunks /\
    covers hello chunks /\
    ink (concat (map Chunker.text chunks)) = ink hello /\
    Forall (fun c =>
              0 <= startChar c <= endChar c /\ endChar c <= len hello /\
              exists l r, all_ws l /\ all_ws r /\
                substring hello (startChar c) (endChar c) = l ++ Chunker.text c ++ r)
           chunks /\
    in_offset_order chunks.
Proof. split; [lia | apply chunkText_reconstructs; lia]. Defined.

(** [chunkText] returns, and no chunk is longer than [maxLength]. *)
Lemma chunkText_bounded (text : jsstring) (maxLength : Z) :
  1 <= maxLength ->
  exists chunks,
    chunkText text maxLength = Some chunks /\
    Forall (fun c => len (Chunker.text c) <= maxLength) chunks.
Proof.
  intros Hmax.
  destruct (chunkText_cases text Hmax) as [(E & Hw) | (Hgt & r & E & HR)].
  - exists [whole text]. split; [exact E|]. constructor; [|constructor].
    cbn [whole Chunker.text]. destruct Hw as [-> | Hw]; [cbn; lia | exact Hw].
  - exists r. split; [exact E|].
    assert (Hok : Forall (chunk_ok text maxLength) r)
      by (apply (Run_chunk_ok Hmax HR); [lia | constructor]).
    eapply Forall_impl; [|exact Hok]. now intros c (_ & _ & _ & Hc).
Qed.

(** C3. For every input and every [maxLength >= 1]. A pass through
    the loop body never fails: it leaves the loop only from the last
    window, after pushing the rest of the input as a chunk, and
    otherwise moves [currentPosition] strictly forward inside the
    input, pushing the trimmed region unless it is empty. [chunkText]
    returns its chunks within [length text + 1] passes, and more fuel
    changes nothing; every chunk has at most [maxLength] units. On an
    input without white space (a single token, whatever its length)
    the chunks returned are exactly the hard cuts: [ceil(length /
    maxLength)] of them (one for the empty input), the chunk of index
    [i] holding the [maxLength] units from [i * maxLength] on, or what
    is left; laid end to end they are the input. *)
Theorem chunkText_terminates (text : jsstring) (maxLength : Z) :
  1 <= maxLength ->
  (forall pos idx cs,
      0 <= pos < len text ->
      match loop_body text maxLength pos idx cs with
      | Some (Break cs') =>
          len text <= pos + maxLength /\ cs' = cs ++ [lastChunk text pos idx]
      | Some (Continue p i cs') =>
          pos < p <= len text /\
          (i = S idx /\ cs' = cs ++ [splitChunk text pos p idx] \/
           i = idx /\ cs' = cs /\ trim (substring text pos p) = [])
      | None => False
      end) /\
  exists chunks,
    chunkText text maxLength = Some chunks /\
    (forall fuel, (S (length text) <= fuel)%nat ->
                  chunkText_fuel fuel text maxLength = Some chunks) /\
    Forall (fun c => len (Chunker.text c) <= maxLength) chunks /\
    (no_ws text ->
     chunks = hardCuts text maxLength /\
     length chunks = pieces text maxLength /\
     Forall (hard_cut text maxLength) chunks /\
     concat (map Chunker.text chunks) = text).
Proof.
  intros Hmax. split; [intros pos idx cs; now apply loop_body_step|].
  destruct (chunkText_bounded text Hmax) as (chunks & E & Hb).
  exists chunks. split; [exact E|]. split; [|split].
  - intros fuel Hf. unfold chunkText, chunkText_fuel in *.
    destruct ((length text =? 0)%nat || (len text <=? maxLength)); [exact E|].
    now apply loop_fuel_mono with (fuel := S (length text)).
  - exact Hb.
  - intros Hn.
    assert (Hcut : Forall (hard_cut text maxLength) chunks /\
                   map index chunks = seq 0 (length chunks) /\
                   length chunks = pieces text maxLength).
    { destruct (chunkText_cases text Hmax) as [(E' & Hw) | (Hgt & r & E' & HR)];
        rewrite E' in E; injection E as <-.
      - assert (Hle : len text <= maxLength)
          by (destruct Hw as [-> | Hw]; [cbn; lia | exact Hw]).
        pose proof (len_nonneg text) as Hl.
        split; [|split; [reflexivity|]].
        + constructor; [|constructor]. unfold hard_cut, whole. cbn.
          repeat split; try lia. now rewrite substring_whole.
        + cbn [length]. unfold pieces.
          assert (Hq : (len text + maxLength - 1) / maxLength <= 1).
          { apply Z.lt_succ_r. apply Z.div_lt_upper_bound; lia. }
          lia.
      - split; [apply (Run_hard_cut Hmax Hn HR); [lia | constructor]|].
        split; [now apply (Run_dense HR)|].
        apply (@Run_cut_count text maxLength Hmax 0 0%nat [] _ Hn HR); cbn; lia. }
    destruct Hcut as (Hc & Hd & Hp).
    assert (Hh : chunks = hardCuts text maxLength).
    { rewrite (hard_cuts_by_index Hc) at 1. now rewrite Hd, Hp. }
    split; [exact Hh|]. split; [exact Hp|]. split; [exact Hc|].
    rewrite Hh. now apply hardCuts_concat.
Qed.

Lemma chunkText_terminates_witness :
  1 <= 3 /\ no_ws (of_string "abcdefgh") /\
  chunkText (of_string "abcdefgh") 3 = Some (hardCuts (of_string "abcdefgh") 3) /\
  map Chunker.text (hardCuts (of_string "abcdefgh") 3)
  = [of_string "abc"; of_string "def"; of_string "gh"].
Proof.
  assert (Hmax : 1 <= 3) by lia.
  assert (Hn : no_ws (of_string "abcdefgh")) by (repeat constructor).
  split; [exact Hmax|]. split; [exact Hn|].
  destruct (@chunkText_terminates (of_string "abcdefgh") 3 Hmax)
    as (_ & chunks & E & _ & _ & H).
  destruct (H Hn) as (Hh & _).
  split; [now rewrite <- Hh | reflexivity].
Defined.

(** The bound [maxLength >= 1] is needed: with [maxLength = 0] a pass
    splits at [currentPosition] itself and the loop never ends. *)
Lemma chunkText_stuck_at_zero (fuel : nat) :
  chunkText_fuel fuel (of_string "ab") 0 = None.
Proof.
  unfold chunkText_fuel. cbn [length Nat.eqb orb of_string].
  replace (len _ <=? 0) with false by reflexivity.
  generalize 0%nat at 2. generalize (@nil TextChunk).
  induction fuel as [|fuel IH]; intros cs idx; [reflexivity|].
  cbn [loop]. replace (0 <? len _) with true by reflexivity.
  replace (loop_body _ 0 0 idx cs) with (Some (Continue 0 idx cs)) by reflexivity.
  apply IH.
Qed.

(** C4, amended. For every input and every [maxLength >= 1]: the
    indices of the chunks are [0 .. N-1], so a candidate dropped for an
    empty trimmed text consumes no index; every chunk but the last has
    a non-empty text that is already trimmed; and when the input is not
    empty and does not end in white space (what the callers pass: a
    non-empty [text.trim()]), every chunk, the last included, has a
    non-empty trimmed text. *)
Theorem chunkText_nonempty (text : jsstring) (maxLength : Z) :
  1 <= maxLength ->
  exists chunks,
    chunkText text maxLength = Some chunks /\
    map index chunks = seq 0 (length chunks) /\
    Forall trimmed (removelast chunks) /\
    (forall t' c, text = t' ++ [c] -> is_ws c = false ->
                  Forall (fun x => trim (Chunker.text x) <> []) chunks).
Proof.
  intros Hmax.
  destruct (chunkText_cases text Hmax) as [(E & Hw) | (Hgt & r & E & HR)].
  - exists [whole text]. split; [exact E|]. split; [reflexivity|].
    split; [constructor|].
    intros t' c -> Hc. constructor; [|constructor]. cbn.
    now apply trim_snoc_keep.
  - exists r. split; [exact E|]. split; [|split].
    + now apply (Run_dense HR).
    + apply (Run_trimmed HR). constructor.
    + intros t' c Et Hc.
      apply (@Run_inked text maxLength Hmax t' c 0 0%nat [] r Et Hc HR);
        [lia | constructor].
Qed.

Lemma chunkText_nonempty_witness :
  1 <= 25 /\
  exists chunks,
    chunkText hello 25 = Some chunks /\
    map index chunks = seq 0 (length chunks) /\
    Forall trimmed (removelast chunks) /\
    (forall t' c, hello = t' ++ [c] -> is_ws c = false ->
                  Forall (fun x => trim (Chunker.text x) <> []) chunks).
Proof. split; [lia | apply chunkText_nonempty; lia]. Defined.

(** C4 as stated fails: the remainder pushed by the last pass is not
    trimmed, so on ["abc  "] with [maxLength = 3] the second chunk is
    a lone space; and the early return emits the empty input as a
    chunk. *)
Lemma chunkText_emits_blank_chunk :
  1 <= 3 /\
  (exists chunks,
      chunkText (of_string "abc  ") 3 = Some chunks /\
      ~ Forall (fun c => trim (Chunker.text c) <> []) chunks) /\
  (exists chunks,
      chunkText [] 3 = Some chunks /\
      ~ Forall (fun c => trim (Chunker.text c) <> []) chunks).
Proof.
  split; [lia|]. split.
  - eexists. split; [vm_compute; reflexivity|].
    intros H. inversion H as [|? ? _ H']; subst.
    inversion H' as [|? ? Hc _]; subst. apply Hc. reflexivity.
  - eexists. split; [vm_compute; reflexivity|].
    intros H. inversion H as [|? ? Hc _]; subst. apply Hc. reflexivity.
Qed.

(** C5. On ["Hello world. This is a test. Another sentence here."]
    with [maxLength = 25] the first pass splits at offset 13, right
    after ["Hello world. "], and emits ["Hello world."]; the whole
    result is the three sentences. *)
Theorem chunkText_boundary_preference :
  loop_body hello 25 0 0%nat [] =
    Some (Continue 13 1%nat
            [ {| index := 0; text := of_string "Hello world.";
                 startChar := 0; endChar := 13 |} ]) /\
  substring hello 0 13 = of_string "Hello world. " /\
  chunkText hello 25 =
    Some [ {| index := 0; text := of_string "Hello world.";
              startChar := 0; endChar := 13 |};
           {| index := 1; text := of_string "This is a test.";
              startChar := 13; endChar := 29 |};
           {| index := 2; text := of_string "Another sentence here.";
              startChar := 29; endChar := 51 |} ].
Proof. repeat split; vm_compute; reflexivity. Qed.

End ChunkerTheorems.

(* ================================================================== *)
(** * The batch route: one result per chunk *)

Section RouteFacts.
Import Js Route.

Lemma mapi_length {A B : Type} (f : nat -> A -> B) (l : list A) :
  forall i, length (mapi f i l) = length l.
Proof. induction l as [|a l IH]; intros i; cbn; [reflexivity | now rewrite IH]. Qed.

Lemma mapi_nth_error {A B : Type} (f : nat -> A -> B) (l : list A) :
  forall i k, nth_error (mapi f i l) k = option_map (f (i + k)) (nth_error l k).
Proof.
  induction l as [|a l IH]; intros i [|k]; cbn; try reflexivity.
  - now rewrite Nat.add_0_r.
  - rewrite IH. now rewrite Nat.add_succ_r.
Qed.

Lemma mapi_map {A B C : Type} (f : nat -> B -> C) (g : A -> B) (l : list A) :
  forall i, mapi f i (map g l) = mapi (fun k a => f k (g a)) i l.
Proof. induction l as [|a l IH]; intros i; cbn; [reflexivity | now rewrite IH]. Qed.

Lemma map_mapi {A B C : Type} (g : B -> C) (f : nat -> A -> B) (l : list A) :
  forall i, map g (mapi f i l) = mapi (fun k a => g (f k a)) i l.
Proof. induction l as [|a l IH]; intros i; cbn; [reflexivity | now rewrite IH]. Qed.

Lemma mapi_const {A B : Type} (g : A -> B) (l : list A) :
  forall i, mapi (fun _ a => g a) i l = map g l.
Proof. induction l as [|a l IH]; intros i; cbn; [reflexivity | now rewrite IH]. Qed.

(** Fulfilled promises are pushed one by one, in order. *)
Lemma collect_fulfilled (chunks_ : list (option ReqChunk)) (values : list ChunkResult) :
  forall i acc errs,
  exists errs',
    collect chunks_ (map Fulfilled values) i acc errs = Returned (acc ++ values, errs').
Proof.
  induction values as [|v values IH]; intros i acc errs; cbn.
  - exists errs. now rewrite app_nil_r.
  - destruct (IH (S i) (acc ++ [v])
                 (if success v then errs
                  else errs ++ [ {| err_chunkIndex := chunkIndex v;
                                    err_error := or_else (error v) "Unknown error" |} ]))
      as (errs' & ->).
    exists errs'. now rewrite <- app_assoc.
Qed.

Lemma filter_split_length {A : Type} (f : A -> bool) (l : list A) :
  length (filter f l) + length (filter (fun a => negb (f a)) l) = length l.
Proof.
  induction l as [|a l IH]; cbn; [reflexivity|].
  destruct (f a); cbn; lia.
Qed.

(** When no element of [chunks] is [null], the [try] block answers
    with the results of the chunks, in order. *)
Lemma process_objects (request : Request) (p : string) (gen : Generator)
      (cs : list ReqChunk) :
  exists body,
    process request p (map Some cs) gen = Json body /\
    body_success body = true /\
    totalChunks body = length cs /\
    successfulChunks body + failedChunks body = length cs /\
    results body = mapi (chunk_result request p gen) 0 cs.
Proof.
  unfold process.
  assert (E : mapi (chunk_promise request p gen) 0 (map Some cs)
              = map Fulfilled (mapi (chunk_result request p gen) 0 cs)).
  { rewrite mapi_map, map_mapi. reflexivity. }
  rewrite E.
  destruct (collect_fulfilled (map Some cs) (mapi (chunk_result request p gen) 0 cs)
                              0 [] []) as (errs' & ->).
  cbn [app]. eexists. split; [reflexivity|]. cbn.
  rewrite length_map, filter_split_length, mapi_length. auto.
Qed.

(** The provider that a valid request names. *)
Lemma valid_provider (request : Request) :
  valid request = true ->
  exists p c cs, provider request = Some p /\ chunks request = Some (c :: cs) /\
                 forall gen, POST request gen = process request p (c :: cs) gen.
Proof.
  unfold valid, POST.
  destruct (chunks request) as [[|c cs]|]; try discriminate.
  destruct (provider request) as [p|]; [|discriminate].
  intros H. exists p, c, cs. split; [reflexivity|]. split; [reflexivity|].
  intros gen. destruct p as [|a p]; [cbn in H; discriminate|].
  destruct (String.eqb_spec (String a p) "minimax") as [E|E].
  - rewrite E in H. cbn in H. rewrite orb_false_r in H.
    destruct (falsy (voice request)); [discriminate | reflexivity].
  - cbn [andb orb] in H.
    destruct (String.eqb (String a p) "elevenlabs"); [|discriminate].
    cbn in H. destruct (falsy (elevenLabsVoiceId request)); [discriminate | reflexivity].
Qed.

(** [valid] is the validation of [POST]: any other request is answered
    with status 400 before a chunk is looked at. *)
Lemma invalid_rejected (request : Request) :
  valid request = false ->
  exists e, forall gen, POST request gen = JsonError 400 e.
Proof.
  unfold valid, POST.
  destruct (chunks request) as [[|c cs]|]; try (intros _; eexists; reflexivity).
  destruct (provider request) as [[|a p]|]; try (intros _; eexists; reflexivity).
  destruct (String.eqb_spec (String a p) "minimax") as [E|E].
  - rewrite E. cbn. rewrite orb_false_r.
    destruct (falsy (voice request)); [|discriminate].
    intros _. eexists. reflexivity.
  - cbn [andb orb].
    destruct (String.eqb (String a p) "elevenlabs"); [|intros _; eexists; reflexivity].
    cbn. destruct (falsy (elevenLabsVoiceId request)); [|discriminate].
    intros _. eexists. reflexivity.
Qed.

(** A response with results was built by the [try] block. *)
Lemma POST_json (request : Request) (gen : Generator) (body : BatchBody) :
  POST request gen = Json body ->
  exists p chunks_, provider request = Some p /\ chunks request = Some chunks_ /\
                    process request p chunks_ gen = Json body.
Proof.
  unfold POST.
  destruct (chunks request) as [[|c cs]|]; try discriminate.
  destruct (provider request) as [[|a p]|]; try discriminate.
  intros H. exists (String a p), (c :: cs). split; [reflexivity|]. split; [reflexivity|].
  destruct (String.eqb (String a p) "minimax").
  - destruct (falsy (voice request)); [discriminate | exact H].
  - destruct (String.eqb (String a p) "elevenlabs"); [|discriminate].
    destruct (falsy (elevenLabsVoiceId request)); [discriminate | exact H].
Qed.

Lemma chunk_result_index (request : Request) (p : string) (gen : Generator)
      (i : nat) (c : ReqChunk) :
  chunkIndex (chunk_result request p gen i c) = index c.
Proof.
  unfold chunk_result. destruct (text c); [|reflexivity].
  destruct (gen i _); reflexivity.
Qed.


End RouteFacts.

Section RouteTheorems.
Import Js Route Samples.
Local Open Scope string_scope.




End RouteTheorems.

(* ================================================================== *)
(** * The batch loop *)

Section SchedulerFacts.
Import Scheduler.

Lemma batchSize_pos : 0 < batchSize.
Proof. unfold batchSize. lia. Qed.

Lemma ceil_div_batches (n : nat) : n <= ceil_div n batchSize * batchSize.
Proof.
  unfold ceil_div.
  pose proof (Nat.div_mod_eq (n + (batchSize - 1)) batchSize) as E.
  pose proof (Nat.mod_upper_bound (n + (batchSize - 1)) batchSize) as U.
  pose proof batchSize_pos. nia.
Qed.

Lemma userClicks_audioChunks (n : nat) (st : State) :
  audioChunks (userClicks n st) = audioChunks st.
Proof. revert st. induction n as [|n IH]; intros st; cbn; [|rewrite IH]; reflexivity. Qed.

Lemma userClicks_batchProgress (n : nat) (st : State) :
  batchProgress (userClicks n st) = batchProgress st.
Proof. revert st. induction n as [|n IH]; intros st; cbn; [|rewrite IH]; reflexivity. Qed.

(** What a pass does to the list of jobs, whatever is clicked in the
    meantime. *)
Lemma iteration_audioChunks (env : State) (w : World) (T k : nat) (st : State) :
  audioChunks (iteration env w T k st) =
  map (fun a =>
         let a' := if inBatch (batchOf env k) a then withStatus generating a else a in
         match processBatch env w (batchOf env k) k with
         | Returned results => applyResult results a'
         | Thrown m => if inBatch (batchOf env k) a' then markFailed m a' else a'
         end)
      (audioChunks st).
Proof.
  unfold iteration.
  destruct ((k <? T - 1) && negb (isPaused env));
    rewrite ?userClicks_audioChunks; unfold settle;
    destruct (processBatch env w (batchOf env k) k);
    cbn; rewrite userClicks_audioChunks; cbn; rewrite map_map; reflexivity.
Qed.

Lemma iteration_batchProgress (env : State) (w : World) (T k : nat) (st : State) :
  batchProgress (iteration env w T k st) =
  option_map
    (fun prev =>
       match processBatch env w (batchOf env k) k with
       | Returned results =>
           {| totalBatches := totalBatches prev;
              completedBatches := k + 1;
              currentBatch := k + 1;
              totalChunks := totalChunks prev;
              completedChunks := completedChunks prev
                                 + length (filter Route.success results);
              failedChunks := failedChunks prev
                              + length (filter (fun r => negb (Route.success r)) results) |}
       | Thrown _ =>
           {| totalBatches := totalBatches prev;
              completedBatches := k + 1;
              currentBatch := k + 1;
              totalChunks := totalChunks prev;
              completedChunks := completedChunks prev;
              failedChunks := failedChunks prev + length (batchOf env k) |}
       end)
    (batchProgress st).
Proof.
  unfold iteration.
  destruct ((k <? T - 1) && negb (isPaused env));
    rewrite ?userClicks_batchProgress; unfold settle;
    destruct (processBatch env w (batchOf env k) k);
    cbn; rewrite userClicks_batchProgress; cbn;
    destruct (batchProgress st); reflexivity.
Qed.

(** The results that the batch route returns to the client carry the
    indices of the chunks of the batch, in order. *)
Lemma processBatch_indices (env : State) (w : World)
      (batch : list Chunker.TextChunk) (k : nat) (results : list Route.ChunkResult) :
  processBatch env w batch k = Returned results ->
  map Route.chunkIndex results = map Chunker.index batch.
Proof.
  unfold processBatch. destruct (transport w k); [discriminate|].
  destruct (Route.POST (batchRequest env batch) (generate w k)) as [body|] eqn:E;
    [|discriminate].
  intros [= <-]. apply POST_json in E.
  destruct E as (p & chunks_ & _ & Hc & E).
  cbn in Hc. injection Hc as <-.
  rewrite <- map_map with (g := @Some Route.ReqChunk)
                          (f := fun chunk => {| Route.index := Chunker.index chunk;
                                                Route.text := Some (Chunker.text chunk) |})
    in E.
  destruct (process_objects (batchRequest env batch) p (generate w k)
              (map (fun chunk => {| Route.index := Chunker.index chunk;
                                    Route.text := Some (Chunker.text chunk) |}) batch))
    as (body' & E' & _ & _ & _ & Hr).
  rewrite E' in E. injection E as <-. rewrite Hr.
  rewrite map_mapi, mapi_map. clear. generalize 0.
  induction batch as [|b batch IH]; intros i; cbn [Route.mapi map]; [reflexivity|].
  rewrite chunk_result_index. cbn [Route.index]. now rewrite IH.
Qed.

Lemma processBatch_length (env : State) (w : World)
      (batch : list Chunker.TextChunk) (k : nat) (results : list Route.ChunkResult) :
  processBatch env w batch k = Returned results ->
  length results = length batch.
Proof.
  intros H. apply processBatch_indices in H.
  apply (f_equal (@length nat)) in H. now rewrite !length_map in H.
Qed.

Lemma batchOf_length (env : State) (k : nat) :
  length (batchOf env k) =
  Nat.min ((k + 1) * batchSize) (length (textChunks env))
  - Nat.min (k * batchSize) (length (textChunks env)).
Proof.
  unfold batchOf, slice. rewrite length_firstn, length_skipn. lia.
Qed.

(** The jobs touched so far are those of the first [k] batches. *)
Lemma firstn_batches (env : State) (k : nat) :
  firstn ((k + 1) * batchSize) (textChunks env) =
  firstn (k * batchSize) (textChunks env) ++ batchOf env k.
Proof.
  unfold batchOf, slice.
  replace ((k + 1) * batchSize) with (k * batchSize + batchSize) by lia.
  rewrite firstn_plus. f_equal.
  set (a := k * batchSize). set (l := textChunks env).
  destruct (Nat.le_gt_cases (a + batchSize) (length l)) as [H|H].
  - f_equal. lia.
  - rewrite !firstn_all2; try reflexivity; rewrite length_skipn; lia.
Qed.

End SchedulerFacts.

(* ================================================================== *)
(** * Counters and job states along a run *)

Section SchedulerRun.
Import Scheduler.

Variable env : State.
Variable w : World.
Variable T : nat.

Lemma sum_is_bounded (k : nat) (st : State) : sum_is env k st -> counters_bounded env st.
Proof.
  intros (p & Hp & Ht & Hs). unfold counters_bounded. rewrite Hp. lia.
Qed.

Lemma iteration_sum (k : nat) (st : State) :
  sum_is env k st ->
  sum_is env (S k) (iteration env w T k st) /\
  counters_grow st (iteration env w T k st).
Proof.
  intros (p & Hp & Ht & Hs). unfold sum_is, counters_grow.
  rewrite iteration_batchProgress, Hp. cbn [option_map].
  pose proof (batchOf_length env k) as Hb.
  replace (S k * batchSize) with ((k + 1) * batchSize) by lia.
  destruct (processBatch env w (batchOf env k) k) as [results|m] eqn:E.
  - pose proof (processBatch_length _ _ _ _ E) as Hl.
    pose proof (filter_split_length Route.success results) as Hf.
    split; [eexists; split; [reflexivity|]|]; cbn; lia.
  - split; [eexists; split; [reflexivity|]|]; cbn; lia.
Qed.

Lemma batchTrace_counters (n : nat) :
  forall k st,
    sum_is env k st ->
    chain counters_grow st (batchTrace env w T n k st) /\
    Forall (counters_bounded env) (batchTrace env w T n k st).
Proof.
  induction n as [|n IH]; intros k st Hs; cbn [batchTrace].
  - split; [exact I | constructor].
  - destruct (isPaused env); [split; [exact I | constructor]|].
    destruct (iteration_sum Hs) as (Hs' & Hg).
    destruct (IH (S k) _ Hs') as (Hc & Hb).
    split; [split; assumption|].
    constructor; [now apply sum_is_bounded with (k := S k) | exact Hb].
Qed.

Lemma last_cons {A : Type} (a d : A) (l : list A) : last (a :: l) d = last l a.
Proof.
  revert a. induction l as [|b l IH]; intros a; [reflexivity|].
  cbn [last] in *. destruct l; [reflexivity | apply IH].
Qed.

(** The loop ends in the last state of its trace, up to the message. *)
Lemma batchLoop_last (n : nat) :
  forall k st,
    batchProgress (batchLoop env w T n k st)
    = batchProgress (last (batchTrace env w T n k st) st) /\
    audioChunks (batchLoop env w T n k st)
    = audioChunks (last (batchTrace env w T n k st) st).
Proof.
  induction n as [|n IH]; intros k st; cbn [batchLoop batchTrace].
  - split; reflexivity.
  - destruct (isPaused env); [split; reflexivity|].
    rewrite last_cons. apply IH.
Qed.

(** ** Job states *)

Lemma inBatch_In (batch : list Chunker.TextChunk) (a : AudioChunk) :
  inBatch batch a = true <-> In (chunkIndex a) (map Chunker.index batch).
Proof.
  unfold inBatch. rewrite existsb_exists, in_map_iff. split.
  - intros (bc & Hin & E). apply Nat.eqb_eq in E. eauto.
  - intros (bc & E & Hin). exists bc. split; [exact Hin | now apply Nat.eqb_eq].
Qed.

Lemma findResult_Some (results : list Route.ChunkResult) (a : AudioChunk) :
  In (chunkIndex a) (map Route.chunkIndex results) ->
  exists r, findResult results a = Some r.
Proof.
  intros H. unfold findResult.
  destruct (find _ results) as [r|] eqn:F; [eauto|].
  apply in_map_iff in H. destruct H as (r & E & Hin).
  apply (find_none _ _ F) in Hin. apply Nat.eqb_neq in Hin. congruence.
Qed.

Lemma findResult_None (results : list Route.ChunkResult) (a : AudioChunk) :
  ~ In (chunkIndex a) (map Route.chunkIndex results) ->
  findResult results a = None.
Proof.
  intros H. unfold findResult.
  destruct (find _ results) as [r|] eqn:F; [|reflexivity].
  apply find_some in F. destruct F as (Hin & E). apply Nat.eqb_eq in E.
  exfalso. apply H. rewrite <- E. now apply in_map.
Qed.

(** What a pass does to one job: a job of the batch ends [completed]
    or [failed] - [failed] with the message when the batch throws -
    and any other job is left as it is. *)
Lemma pass_job (k : nat) (a : AudioChunk) :
  let batch := batchOf env k in
  let a' := if inBatch batch a then withStatus generating a else a in
  let a'' := match processBatch env w batch k with
             | Returned results => applyResult results a'
             | Thrown m => if inBatch batch a' then markFailed m a' else a'
             end in
  chunkIndex a'' = chunkIndex a /\
  (inBatch batch a = true ->
   terminal a'' /\
   forall m, processBatch env w batch k = Thrown m ->
             status a'' = failed /\ error a'' = Some m) /\
  (inBatch batch a = false -> a'' = a).
Proof.
  cbv zeta. set (batch := batchOf env k).
  destruct (inBatch batch a) eqn:Hin.
  - assert (Hin' : inBatch batch (withStatus generating a) = true) by exact Hin.
    destruct (processBatch env w batch k) as [results|m] eqn:E.
    + pose proof (processBatch_indices _ _ _ _ E) as Hidx.
      destruct (@findResult_Some results (withStatus generating a)) as (r & Hr).
      { rewrite Hidx. now apply inBatch_In. }
      unfold applyResult. rewrite Hr. cbn.
      split; [reflexivity|]. split; [|discriminate]. intros _. split.
      * unfold terminal. cbn. destruct (Route.success r); auto.
      * discriminate.
    + rewrite Hin'. cbn. split; [reflexivity|]. split; [|discriminate].
      intros _. split; [right; reflexivity|].
      intros m' [= <-]. auto.
  - destruct (processBatch env w batch k) as [results|m] eqn:E.
    + pose proof (processBatch_indices _ _ _ _ E) as Hidx.
      unfold applyResult. rewrite findResult_None.
      * split; [reflexivity|]. split; [discriminate | reflexivity].
      * rewrite Hidx. intros H. apply inBatch_In in H. congruence.
    + rewrite Hin. split; [reflexivity|]. split; [discriminate | reflexivity].
Qed.

Lemma iteration_settled (k : nat) (st : State) :
  settled_upto env k st -> settled_upto env (S k) (iteration env w T k st).
Proof.
  intros (Hidx & Hall). unfold settled_upto.
  rewrite iteration_audioChunks. split.
  - rewrite <- Hidx, map_map. apply map_ext.
    intros a. apply (pass_job k a).
  - apply Forall_map. rewrite Forall_forall in *. intros a Hin Hb.
    destruct (pass_job k a) as (Hi & Ht & Hn). cbv zeta in *.
    apply inBatch_In in Hb. rewrite Hi in Hb.
    replace (S k * batchSize) with ((k + 1) * batchSize) in Hb by lia.
    rewrite firstn_batches, map_app, in_app_iff in Hb.
    destruct (inBatch (batchOf env k) a) eqn:E.
    + now apply Ht.
    + rewrite Hn by reflexivity. destruct Hb as [Hb|Hb].
      * apply Hall; [exact Hin|]. now apply inBatch_In.
      * apply inBatch_In in Hb. congruence.
Qed.

Hypothesis running : isPaused env = false.

Lemma batchLoop_settled (n : nat) :
  forall k st,
    settled_upto env k st -> settled_upto env (k + n) (batchLoop env w T n k st).
Proof.
  induction n as [|n IH]; intros k st H; cbn [batchLoop].
  - now rewrite Nat.add_0_r.
  - rewrite running. replace (k + S n) with (S k + n) by lia.
    apply IH. now apply iteration_settled.
Qed.

Lemma batchLoop_batches (n : nat) :
  forall k st p,
    0 < n -> batchProgress st = Some p ->
    exists p', batchProgress (batchLoop env w T n k st) = Some p' /\
               completedBatches p' = k + n /\
               totalBatches p' = totalBatches p.
Proof.
  induction n as [|n IH]; intros k st p Hn Hp; [lia|].
  cbn [batchLoop]. rewrite running.
  assert (Hit : exists q, batchProgress (iteration env w T k st) = Some q /\
                          completedBatches q = k + 1 /\
                          totalBatches q = totalBatches p).
  { rewrite iteration_batchProgress, Hp. cbn [option_map].
    destruct (processBatch env w (batchOf env k) k);
      (eexists; split; [reflexivity|]; cbn; auto). }
  destruct Hit as (q & Hq & Hqb & Hqt).
  destruct n as [|n].
  - cbn [batchLoop]. exists q. repeat split; try assumption; lia.
  - destruct (IH (S k) _ q ltac:(lia) Hq) as (p' & Hp' & Hb & Ht).
    exists p'. repeat split; try assumption; lia.
Qed.

End SchedulerRun.

(* ================================================================== *)
(** * The scheduler: the properties of the specification *)

Section SchedulerTheorems.
Import Scheduler Samples.

Lemma started_sum (env : State) : sum_is env 0 (started env).
Proof.
  unfold sum_is. exists (initialProgress env). cbn. repeat split; lia.
Qed.

Lemma started_settled (env : State) : settled_upto env 0 (started env).
Proof.
  unfold settled_upto. cbn. split.
  - unfold initialAudioChunks. rewrite map_map. reflexivity.
  - apply Forall_forall. intros a _ H. discriminate.
Qed.

Lemma guard_chunks (env : State) : guard env = None -> 0 < length (textChunks env).
Proof.
  unfold guard.
  destruct (length (Js.trim (st_text env)) =? 0); [discriminate|].
  destruct (String.length (selectedVoice env) =? 0); [discriminate|].
  destruct (Nat.eqb_spec (length (textChunks env)) 0); [discriminate|].
  intros _. lia.
Qed.

(** The fields of the final state that the loop decides. *)
Lemma handleGenerateAudio_loop (env : State) (w : World) :
  guard env = None ->
  let T := ceil_div (length (textChunks env)) batchSize in
  batchProgress (handleGenerateAudio env w)
  = batchProgress (batchLoop env w T T 0 (started env)) /\
  audioChunks (handleGenerateAudio env w)
  = audioChunks (batchLoop env w T T 0 (started env)).
Proof.
  intros G. unfold handleGenerateAudio. rewrite G. cbv zeta.
  destruct (batchProgress env); split; reflexivity.
Qed.

(** The sample run, evaluated once: the token of 60001 letters gives 21
    chunks and passes the guards; with a click on Pause during the
    first batch the flag is set after batch 1 and the jobs still end
    [completed]; with the second batch thrown its ten jobs end
    [failed]. *)
Lemma typed_env_facts :
  (let env := typed_env in
   (length (textChunks env), guard env, isPaused env,
    (option_map isPaused (nth_error (runTrace env pause_world) 1),
     option_map (fun s => map status (audioChunks s))
                (nth_error (runTrace env pause_world) 2),
     map status (audioChunks (handleGenerateAudio env pause_world)),
     option_map completedBatches (batchProgress (handleGenerateAudio env pause_world))),
    (processBatch env broken_world (batchOf env 1) 1,
     map status (audioChunks (handleGenerateAudio env broken_world)))))
  = (21, None, false,
     (Some true, Some (repeat completed 20 ++ [pending]), repeat completed 21, Some 3),
     (Thrown "Failed to fetch"%string,
      repeat completed 10 ++ repeat failed 10 ++ [completed])).
Proof. vm_compute. reflexivity. Qed.

Lemma pair_inj {A B : Type} (a c : A) (b d : B) :
  (a, b) = (c, d) -> a = c /\ b = d.
Proof. intros [= -> ->]. now split. Qed.

(** The same facts, one by one. *)
Lemma typed_env_facts_split :
  (length (textChunks typed_env) = 21 /\
   guard typed_env = None /\
   isPaused typed_env = false) /\
  (option_map isPaused (nth_error (runTrace typed_env pause_world) 1) = Some true /\
   option_map (fun s => map status (audioChunks s))
              (nth_error (runTrace typed_env pause_world) 2)
   = Some (repeat completed 20 ++ [pending]) /\
   map status (audioChunks (handleGenerateAudio typed_env pause_world))
   = repeat completed 21 /\
   option_map completedBatches
              (batchProgress (handleGenerateAudio typed_env pause_world))
   = Some 3) /\
  (processBatch typed_env broken_world (batchOf typed_env 1) 1
   = Thrown "Failed to fetch"%string /\
   map status (audioChunks (handleGenerateAudio typed_env broken_world))
   = repeat completed 10 ++ repeat failed 10 ++ [completed]).
Proof.
  pose proof typed_env_facts as H. cbv zeta in H.
  apply pair_inj in H. destruct H as (H & Hb).
  apply pair_inj in H. destruct H as (H & Hp).
  apply pair_inj in H. destruct H as (H & H3).
  apply pair_inj in H. destruct H as (H1 & H2).
  apply pair_inj in Hb. destruct Hb as (Hb1 & Hb2).
  apply pair_inj in Hp. destruct Hp as (Hp & Hp4).
  apply pair_inj in Hp. destruct Hp as (Hp & Hp3).
  apply pair_inj in Hp. destruct Hp as (Hp1 & Hp2).
  split; [|split].
  - split; [exact H1|]. split; [exact H2 | exact H3].
  - split; [exact Hp1|]. split; [exact Hp2|]. split; [exact Hp3 | exact Hp4].
  - split; [exact Hb1 | exact Hb2].
Qed.

Lemma typed_env_guard : guard typed_env = None.
Proof. apply typed_env_facts_split. Qed.

Lemma typed_env_running : isPaused typed_env = false.
Proof. apply typed_env_facts_split. Qed.

Lemma typed_env_broken_batch :
  processBatch typed_env broken_world (batchOf typed_env 1) 1
  = Thrown "Failed to fetch"%string.
Proof. apply typed_env_facts_split. Qed.


(** C6. Along a run - the state at loop entry and the states after
    each settled batch, whether the batch returned results or threw -
    [completedChunks] and [failedChunks] never decrease from one state
    to the next, [totalChunks] is the number of text chunks throughout
    and [completedChunks + failedChunks] never exceeds it; the run
    ends with the progress of the last of these states. *)
Theorem progress_counters_monotone (env : State) (w : World) :
  chain counters_grow (hd env (runTrace env w)) (tl (runTrace env w)) /\
  Forall (counters_bounded env) (runTrace env w) /\
  (guard env = None ->
   batchProgress (handleGenerateAudio env w)
   = batchProgress (last (runTrace env w) env)).
Proof.
  unfold runTrace. cbn [hd tl].
  set (T := ceil_div (length (textChunks env)) batchSize).
  destruct (@batchTrace_counters env w T T 0 (started env) (started_sum env))
    as (Hc & Hb).
  split; [exact Hc|]. split.
  - constructor; [|exact Hb].
    apply sum_is_bounded with (k := 0). apply started_sum.
  - intros G. rewrite last_cons.
    destruct (handleGenerateAudio_loop env w G) as (-> & _).
    apply batchLoop_last.
Qed.

Lemma progress_counters_monotone_witness :
  guard typed_env = None /\
  chain counters_grow (hd typed_env (runTrace typed_env broken_world))
        (tl (runTrace typed_env broken_world)) /\
  Forall (counters_bounded typed_env) (runTrace typed_env broken_world) /\
  batchProgress (handleGenerateAudio typed_env broken_world)
  = batchProgress (last (runTrace typed_env broken_world) typed_env).
Proof.
  pose proof typed_env_guard as G.
  split; [exact G|].
  destruct (progress_counters_monotone typed_env broken_world) as (H1 & H2 & H3).
  split; [exact H1|]. split; [exact H2|]. exact (H3 G).
Defined.

(** C7. When the submission of batch [k] throws with message [m]:
    every job of the batch becomes [failed] with error [m] and every
    other job is left alone, [failedChunks] grows by the size of the
    batch, [completedBatches] becomes [k + 1], and the loop goes on
    with batch [k + 1]. Whatever the outcome of a batch, its jobs are
    [completed] or [failed] once the pass is over; and a run that
    starts ends with every job [completed] or [failed] and
    [completedBatches = totalBatches]. *)
Theorem batch_error_fails_whole_batch (env : State) (w : World) :
  (forall T k st m,
      isPaused env = false ->
      processBatch env w (batchOf env k) k = Thrown m ->
      (forall j a,
          nth_error (audioChunks st) j = Some a ->
          exists a',
            nth_error (audioChunks (iteration env w T k st)) j = Some a' /\
            chunkIndex a' = chunkIndex a /\
            (inBatch (batchOf env k) a = true ->
             status a' = failed /\ error a' = Some m) /\
            (inBatch (batchOf env k) a = false -> a' = a)) /\
      (forall p,
          batchProgress st = Some p ->
          exists p',
            batchProgress (iteration env w T k st) = Some p' /\
            failedChunks p' = failedChunks p + length (batchOf env k) /\
            completedChunks p' = completedChunks p /\
            completedBatches p' = k + 1) /\
      (forall n,
          batchLoop env w T (S n) k st
          = batchLoop env w T n (S k) (iteration env w T k st))) /\
  (forall T k st a',
      In a' (audioChunks (iteration env w T k st)) ->
      inBatch (batchOf env k) a' = true -> terminal a') /\
  (guard env = None -> isPaused env = false ->
   Forall terminal (audioChunks (handleGenerateAudio env w)) /\
   exists p,
     batchProgress (handleGenerateAudio env w) = Some p /\
     completedBatches p = totalBatches p /\
     totalBatches p = ceil_div (length (textChunks env)) batchSize).
Proof.
  split; [|split].
  - intros T k st m Hrun Hthrow. split; [|split].
    + intros j a Hj. rewrite iteration_audioChunks, nth_error_map, Hj.
      cbn [option_map]. eexists. split; [reflexivity|].
      destruct (pass_job env w k a) as (Hi & Ht & Hn). cbv zeta in *.
      split; [exact Hi|]. split; [|exact Hn].
      intros Hin. destruct (Ht Hin) as (_ & Hm). now apply Hm.
    + intros p Hp. rewrite iteration_batchProgress, Hp, Hthrow.
      cbn [option_map]. eexists. split; [reflexivity|]. cbn. auto.
    + intros n. cbn [batchLoop]. now rewrite Hrun.
  - intros T k st a' Hin Hb. rewrite iteration_audioChunks in Hin.
    apply in_map_iff in Hin. destruct Hin as (a & <- & _).
    destruct (pass_job env w k a) as (Hi & Ht & _). cbv zeta in *.
    apply Ht. apply inBatch_In. apply inBatch_In in Hb. now rewrite <- Hi.
  - intros G Hrun.
    destruct (handleGenerateAudio_loop env w G) as (Hp & Ha). cbv zeta in *.
    set (T := ceil_div (length (textChunks env)) batchSize) in *.
    pose proof (guard_chunks env G) as Hpos.
    pose proof (ceil_div_batches (length (textChunks env))) as HT. fold T in HT.
    split.
    + rewrite Ha.
      destruct (@batchLoop_settled env w T Hrun T 0 (started env) (started_settled env))
        as (Hidx & Hall).
      rewrite Forall_forall in *. intros a Hin. apply (Hall a Hin).
      cbn [Nat.add]. rewrite firstn_all2 by lia.
      apply inBatch_In. rewrite <- Hidx. now apply in_map.
    + rewrite Hp.
      destruct (@batchLoop_batches env w T Hrun T 0 (started env) (initialProgress env))
        as (p' & Hp' & Hb & Ht); [nia | reflexivity |].
      exists p'. split; [exact Hp'|]. rewrite Ht, Hb. cbn. auto.
Qed.

Lemma batch_error_fails_whole_batch_witness :
  isPaused typed_env = false /\
  processBatch typed_env broken_world (batchOf typed_env 1) 1
  = Thrown "Failed to fetch"%string /\
  guard typed_env = None /\
  (forall p,
      batchProgress (started typed_env) = Some p ->
      exists p',
        batchProgress (iteration typed_env broken_world 3 1 (started typed_env))
        = Some p' /\
        failedChunks p' = failedChunks p + length (batchOf typed_env 1) /\
        completedChunks p' = completedChunks p /\
        completedBatches p' = 1 + 1) /\
  Forall terminal (audioChunks (handleGenerateAudio typed_env broken_world)).
Proof.
  pose proof typed_env_running as R.
  pose proof typed_env_broken_batch as E.
  pose proof typed_env_guard as G.
  split; [exact R|]. split; [exact E|]. split; [exact G|].
  destruct (batch_error_fails_whole_batch typed_env broken_world)
    as (H1 & _ & H3).
  split.
  - destruct (H1 3 1 (started typed_env) "Failed to fetch"%string R E) as (_ & Hp & _).
    exact Hp.
  - destruct (H3 G R) as (Ht & _). exact Ht.
Defined.

(** C8, evaluated on the code. A single token of 60001 letters is
    typed into the fresh component: 21 chunks, 3 batches. Generate is
    clicked with the pause flag clear, and Pause is clicked while the
    first batch is in flight. The click is taken - the state after
    batch 1 has [isPaused = true] - but the loop reads the [isPaused]
    of the render that started it: batch 2 is sent all the same (after
    it settled only the last job is still [pending]), then batch 3;
    the run ends with no job [pending] and [completedBatches = 3]. *)
Theorem pause_click_does_not_stop_the_run :
  length (textChunks typed_env) = 21 /\
  guard typed_env = None /\
  isPaused typed_env = false /\
  option_map isPaused (nth_error (runTrace typed_env pause_world) 1) = Some true /\
  option_map (fun s => map status (audioChunks s))
             (nth_error (runTrace typed_env pause_world) 2)
  = Some (repeat completed 20 ++ [pending]) /\
  map status (audioChunks (handleGenerateAudio typed_env pause_world))
  = repeat completed 21 /\
  option_map completedBatches
             (batchProgress (handleGenerateAudio typed_env pause_world))
  = Some 3.
Proof.
  destruct typed_env_facts_split as ((H1 & H2 & H3) & (H4 & H5 & H6 & H7) & _).
  split; [exact H1|]. split; [exact H2|]. split; [exact H3|].
  split; [exact H4|]. split; [exact H5|]. split; [exact H6 | exact H7].
Qed.

(** The clicks on Pause/Resume during a run change neither the jobs
    nor the progress it ends with. *)
Lemma run_ignores_clicks (env : State) (w : World) (inFlight inDelay : nat -> nat) :
  audioChunks (handleGenerateAudio env (with_clicks inFlight inDelay w))
  = audioChunks (handleGenerateAudio env w) /\
  batchProgress (handleGenerateAudio env (with_clicks inFlight inDelay w))
  = batchProgress (handleGenerateAudio env w).
Proof.
  set (w' := with_clicks inFlight inDelay w).
  assert (Hloop : forall T n k st st',
             audioChunks st = audioChunks st' ->
             batchProgress st = batchProgress st' ->
             audioChunks (batchLoop env w' T n k st)
             = audioChunks (batchLoop env w T n k st') /\
             batchProgress (batchLoop env w' T n k st)
             = batchProgress (batchLoop env w T n k st')).
  { intros T n. induction n as [|n IH]; intros k st st' Ha Hp; cbn [batchLoop].
    - now split.
    - destruct (isPaused env); [now split|].
      apply IH.
      + rewrite !iteration_audioChunks, Ha. reflexivity.
      + rewrite !iteration_batchProgress, Hp. reflexivity. }
  destruct (guard env) as [m|] eqn:G.
  - unfold handleGenerateAudio. rewrite G. now split.
  - destruct (handleGenerateAudio_loop env w G) as (-> & ->).
    destruct (handleGenerateAudio_loop env w' G) as (-> & ->).
    cbv zeta. destruct (Hloop (ceil_div (length (textChunks env)) batchSize)
                              (ceil_div (length (textChunks env)) batchSize)
                              0 (started env) (started env) eq_refl eq_refl)
      as (Ha & Hp).
    now split.
Qed.

(** ** ZIP export *)






End SchedulerTheorems.


(* ================================================================== *)
(** * The scheduler: batches, requests and single jobs *)

Section SchedulerExtras.
Import Scheduler Samples.

Lemma concat_batches (env : State) (n : nat) :
  concat (map (batchOf env) (seq 0 n)) = firstn (n * batchSize) (textChunks env).
Proof.
  induction n as [|n IH]; [reflexivity|].
  rewrite seq_S, map_app, concat_app, IH. cbn [map concat Nat.add].
  rewrite app_nil_r. replace (S n) with (n + 1) by lia.
  symmetry. apply firstn_batches.
Qed.

Lemma ceil_div_tight (n : nat) :
  0 < n -> (ceil_div n batchSize - 1) * batchSize < n.
Proof.
  intros Hn. unfold ceil_div.
  pose proof (Nat.div_mod_eq (n + (batchSize - 1)) batchSize) as E.
  pose proof (Nat.mod_upper_bound (n + (batchSize - 1)) batchSize) as U.
  pose proof batchSize_pos. nia.
Qed.

(** X1. The batches of a run cut the text chunks into consecutive
    slices: put end to end in batch order they are the text chunks,
    each of the [totalBatches] batches holds at least one and at most
    [batchSize] chunks, and there is nothing left for a further batch. *)
Theorem batches_partition (env : State) :
  concat (map (batchOf env)
              (seq 0 (ceil_div (length (textChunks env)) batchSize)))
  = textChunks env /\
  (forall k, k < ceil_div (length (textChunks env)) batchSize ->
             0 < length (batchOf env k) <= batchSize) /\
  (forall k, ceil_div (length (textChunks env)) batchSize <= k ->
             batchOf env k = []).
Proof.
  pose proof (ceil_div_batches (length (textChunks env))) as HT.
  set (T := ceil_div (length (textChunks env)) batchSize) in *.
  split; [|split].
  - rewrite concat_batches. apply firstn_all2. exact HT.
  - intros k Hk. rewrite batchOf_length.
    assert (0 < length (textChunks env)).
    { destruct (Nat.eq_dec (length (textChunks env)) 0) as [E|E]; [|lia].
      exfalso. subst T. rewrite E in Hk. unfold ceil_div in Hk.
      rewrite Nat.div_small in Hk by (pose proof batchSize_pos; lia). lia. }
    pose proof (ceil_div_tight H) as Ht. fold T in Ht.
    pose proof batchSize_pos. nia.
  - intros k Hk. apply length_zero_iff_nil. rewrite batchOf_length.
    pose proof batchSize_pos. nia.
Qed.

Lemma falsy_Some (s : string) : s <> EmptyString -> Js.falsy (Some s) = false.
Proof. destruct s; [congruence | reflexivity]. Qed.

Lemma batchRequest_valid (env : State) (batch : list Chunker.TextChunk) :
  knownProvider (selectedProvider env) -> selectedVoice env <> EmptyString ->
  batch <> [] -> Route.valid (batchRequest env batch) = true.
Proof.
  intros Hp Hv Hb. unfold Route.valid, batchRequest.
  cbn [Route.chunks Route.provider Route.voice Route.elevenLabsVoiceId].
  destruct batch as [|c batch]; [congruence|]. cbn [map].
  destruct Hp as [-> | ->]; cbn [String.eqb Ascii.eqb Bool.eqb andb orb];
    now rewrite falsy_Some.
Qed.

(** What the client gets back from the batch route for a request that
    passes its validation. *)
Lemma processBatch_results (env : State) (w : World)
      (batch : list Chunker.TextChunk) (k : nat) :
  knownProvider (selectedProvider env) -> selectedVoice env <> EmptyString ->
  batch <> [] -> transport w k = None ->
  processBatch env w batch k =
  Returned (Route.mapi (Route.chunk_result (batchRequest env batch)
                                           (selectedProvider env) (generate w k))
                       0 (map sentChunk batch)).
Proof.
  intros Hp Hv Hb Ht. unfold processBatch. rewrite Ht.
  destruct (valid_provider _ (@batchRequest_valid env batch Hp Hv Hb)) as (p & c & cs & Ep & Ec & HP).
  cbn [batchRequest Route.provider] in Ep. injection Ep as <-.
  assert (Ecs : c :: cs = map Some (map sentChunk batch)).
  { cbn [batchRequest Route.chunks] in Ec. injection Ec as <-.
    rewrite map_map. reflexivity. }
  rewrite HP, Ecs.
  destruct (process_objects (batchRequest env batch) (selectedProvider env)
                            (generate w k) (map sentChunk batch))
    as (body & E & _ & _ & _ & Hr).
  rewrite E, Hr. reflexivity.
Qed.

(** X2. With a provider of the table and a voice selected, the request
    of a non-empty batch passes the validation of the batch route, so
    the submission of the batch throws exactly when the [fetch] of the
    route itself is rejected, with the message of that rejection;
    otherwise it returns one result per chunk, whatever the single
    generations did. *)
Theorem batch_throws_only_on_transport (env : State) (w : World)
        (batch : list Chunker.TextChunk) (k : nat) :
  knownProvider (selectedProvider env) -> selectedVoice env <> EmptyString ->
  batch <> [] ->
  Route.valid (batchRequest env batch) = true /\
  (forall m, processBatch env w batch k = Thrown m <-> transport w k = Some m) /\
  (transport w k = None ->
   exists results, processBatch env w batch k = Returned results /\
                   map Route.chunkIndex results = map Chunker.index batch).
Proof.
  intros Hp Hv Hb. split; [now apply batchRequest_valid|]. split.
  - intros m. destruct (transport w k) as [m'|] eqn:Ht.
    + unfold processBatch. rewrite Ht. split; congruence.
    + rewrite (@processBatch_results env w batch k Hp Hv Hb Ht). split; discriminate.
  - intros Ht. eexists. split; [now apply processBatch_results|].
    eapply processBatch_indices. now apply processBatch_results.
Qed.

Lemma batch_throws_only_on_transport_witness :
  knownProvider (selectedProvider initialState) /\
  selectedVoice initialState <> EmptyString /\
  (forall m, processBatch initialState broken_world [Chunker.whole hello] 1 = Thrown m
             <-> transport broken_world 1 = Some m).
Proof.
  assert (Hp : knownProvider (selectedProvider initialState)) by (left; reflexivity).
  assert (Hv : selectedVoice initialState <> EmptyString) by discriminate.
  split; [exact Hp|]. split; [exact Hv|].
  apply (@batch_throws_only_on_transport initialState broken_world
           [Chunker.whole hello] 1 Hp Hv).
  discriminate.
Defined.

(** ** The fate of a single job *)

Lemma find_key {A : Type} (key : A -> nat) (l : list A) :
  forall i x n,
    NoDup (map key l) -> nth_error l i = Some x -> key x = n ->
    find (fun r => key r =? n) l = Some x.
Proof.
  induction l as [|y l IH]; intros [|i] x n Hnd Hx Hk; try discriminate.
  - cbn in Hx. injection Hx as ->. cbn. now rewrite Hk, Nat.eqb_refl.
  - cbn in Hx. cbn [find]. cbn [map] in Hnd. inversion Hnd as [|? ? Hy Hl]; subst.
    destruct (Nat.eqb_spec (key y) (key x)) as [E|E].
    + exfalso. apply Hy. rewrite E. apply in_map. eapply nth_error_In, Hx.
    + now apply IH with (i := i).
Qed.

Lemma nth_error_batchOf (env : State) (k i : nat) :
  i < batchSize ->
  nth_error (batchOf env k) i = nth_error (textChunks env) (k * batchSize + i).
Proof.
  intros Hi. unfold batchOf, slice. rewrite nth_error_firstn, nth_error_skipn.
  destruct (Nat.ltb_spec i (Nat.min (k * batchSize + batchSize)
                                    (length (textChunks env)) - k * batchSize))
    as [H|H]; [reflexivity|].
  symmetry. apply nth_error_None. lia.
Qed.

Lemma NoDup_batchOf (env : State) (k : nat) :
  NoDup (map Chunker.index (textChunks env)) ->
  NoDup (map Chunker.index (batchOf env k)).
Proof.
  intros H. unfold batchOf, slice.
  rewrite <- (firstn_skipn (k * batchSize) (textChunks env)), map_app in H.
  apply NoDup_app_remove_l in H.
  rewrite <- (firstn_skipn (Nat.min (k * batchSize + batchSize)
                                    (length (textChunks env)) - k * batchSize)
                           (skipn (k * batchSize) (textChunks env))), map_app in H.
  now apply NoDup_app_remove_r in H.
Qed.

Section JobIsolation.

Variable env : State.
Variable w : World.
Hypothesis distinct : NoDup (map Chunker.index (textChunks env)).

(** With distinct chunk indices, a job belongs to the batch of its
    position and to no other. *)
Lemma inBatch_position (k j : nat) (c : Chunker.TextChunk) (a : AudioChunk) :
  nth_error (textChunks env) j = Some c -> chunkIndex a = Chunker.index c ->
  inBatch (batchOf env k) a = (k =? j / batchSize).
Proof.
  intros Hc Ha. pose proof batchSize_pos as Hb.
  destruct (Nat.eqb_spec k (j / batchSize)) as [E|E].
  - apply inBatch_In. rewrite Ha. apply in_map.
    apply nth_error_In with (n := j mod batchSize).
    rewrite nth_error_batchOf by (apply Nat.mod_upper_bound; lia).
    rewrite E. rewrite <- Hc. f_equal.
    rewrite (Nat.div_mod_eq j batchSize) at 3. lia.
  - destruct (inBatch (batchOf env k) a) eqn:Hin; [|reflexivity].
    exfalso. apply E. apply inBatch_In in Hin. rewrite Ha in Hin.
    apply in_map_iff in Hin. destruct Hin as (c' & Ec & Hin).
    apply In_nth_error in Hin. destruct Hin as (i & Hi).
    assert (Hlt : i < batchSize).
    { assert (i < length (batchOf env k)) by (apply nth_error_Some; congruence).
      rewrite batchOf_length in H. lia. }
    rewrite nth_error_batchOf in Hi by exact Hlt.
    assert (Ej : k * batchSize + i = j).
    { apply (proj1 (NoDup_nth_error _) distinct).
      - rewrite length_map. apply nth_error_Some. congruence.
      - rewrite !nth_error_map, Hi, Hc. cbn. now rewrite Ec. }
    apply Nat.div_unique with (r := i); lia.
Qed.

Lemma passJob_chunkIndex (k : nat) (a : AudioChunk) :
  chunkIndex (passJob env w k a) = chunkIndex a.
Proof. apply (pass_job env w k a). Qed.

Lemma passJob_other (k : nat) (a : AudioChunk) :
  inBatch (batchOf env k) a = false -> passJob env w k a = a.
Proof. apply (pass_job env w k a). Qed.

Hypothesis running : isPaused env = false.

Lemma batchLoop_job (T n : nat) :
  forall k st j c a,
    nth_error (textChunks env) j = Some c ->
    nth_error (audioChunks st) j = Some a ->
    chunkIndex a = Chunker.index c ->
    nth_error (audioChunks (batchLoop env w T n k st)) j
    = Some (if (k <=? j / batchSize) && (j / batchSize <? k + n)
            then passJob env w (j / batchSize) a else a).
Proof.
  induction n as [|n IH]; intros k st j c a Hc Ha Hi; cbn [batchLoop].
  - rewrite Ha. f_equal.
    destruct (Nat.leb_spec k (j / batchSize)); [|reflexivity].
    destruct (Nat.ltb_spec (j / batchSize) (k + 0)); [lia | reflexivity].
  - rewrite running.
    assert (Ha' : nth_error (audioChunks (iteration env w T k st)) j
                  = Some (passJob env w k a)).
    { rewrite iteration_audioChunks.
      change (nth_error (map (passJob env w k) (audioChunks st)) j
              = Some (passJob env w k a)).
      now rewrite nth_error_map, Ha. }
    rewrite (IH (S k) _ j c _ Hc Ha') by (now rewrite passJob_chunkIndex).
    f_equal.
    destruct (Nat.eq_dec k (j / batchSize)) as [E|E].
    + rewrite <- E.
      replace (S k <=? k) with false by (symmetry; apply Nat.leb_gt; lia).
      replace (k <=? k) with true by (symmetry; apply Nat.leb_le; lia).
      replace (k <? k + S n) with true by (symmetry; apply Nat.ltb_lt; lia).
      reflexivity.
    + rewrite (passJob_other k a)
        by (rewrite (@inBatch_position k j c a Hc Hi); now apply Nat.eqb_neq).
      destruct (Nat.leb_spec (S k) (j / batchSize)), (Nat.leb_spec k (j / batchSize));
        try lia; cbn [andb]; [|reflexivity].
      destruct (Nat.ltb_spec (j / batchSize) (S k + n)),
               (Nat.ltb_spec (j / batchSize) (k + S n)); try lia; reflexivity.
Qed.

Hypothesis guarded : guard env = None.

(** The job at a position of the final list is the initial job of the
    text chunk at that position, after the one pass of its batch. *)
Lemma final_job (j : nat) (c : Chunker.TextChunk) :
  nth_error (textChunks env) j = Some c ->
  nth_error (audioChunks (handleGenerateAudio env w)) j
  = Some (passJob env w (j / batchSize) (initialJob c)).
Proof.
  intros Hc. destruct (handleGenerateAudio_loop env w guarded) as (_ & ->).
  assert (Hs : nth_error (audioChunks (started env)) j = Some (initialJob c)).
  { change (audioChunks (started env)) with (map initialJob (textChunks env)).
    now rewrite nth_error_map, Hc. }
  rewrite (@batchLoop_job _ _ 0 _ j c _ Hc Hs eq_refl). f_equal.
  assert (j < length (textChunks env)) by (apply nth_error_Some; congruence).
  pose proof (ceil_div_batches (length (textChunks env))).
  assert (j / batchSize < ceil_div (length (textChunks env)) batchSize).
  { apply Nat.Div0.div_lt_upper_bound; pose proof batchSize_pos; lia. }
  replace (0 <=? j / batchSize) with true by (symmetry; apply Nat.leb_le; lia).
  cbn [andb Nat.add].
  now replace (j / batchSize <? ceil_div (length (textChunks env)) batchSize)
    with true by (symmetry; apply Nat.ltb_lt; lia).
Qed.

Hypothesis known : knownProvider (selectedProvider env).

Lemma guard_voice : selectedVoice env <> EmptyString.
Proof.
  intros E. unfold guard in guarded. rewrite E in guarded. cbn in guarded.
  destruct (length (Js.trim (st_text env)) =? 0); discriminate.
Qed.

(** The result that the pass finds for the job of a chunk. *)
Lemma findResult_job (j : nat) (c : Chunker.TextChunk) (a : AudioChunk) :
  nth_error (textChunks env) j = Some c -> chunkIndex a = Chunker.index c ->
  transport w (j / batchSize) = None ->
  exists results,
    processBatch env w (batchOf env (j / batchSize)) (j / batchSize) = Returned results /\
    findResult results a
    = Some (Route.chunk_result
              (batchRequest env (batchOf env (j / batchSize)))
              (selectedProvider env) (generate w (j / batchSize))
              (j mod batchSize) (sentChunk c)).
Proof.
  intros Hc Ha Ht. pose proof batchSize_pos as Hb.
  set (k := j / batchSize) in *. set (i := j mod batchSize).
  assert (Hi : nth_error (batchOf env k) i = Some c).
  { unfold i. rewrite nth_error_batchOf by (apply Nat.mod_upper_bound; lia).
    rewrite <- Hc. f_equal. unfold k.
    rewrite (Nat.div_mod_eq j batchSize) at 3. lia. }
  assert (Hne : batchOf env k <> []) by (intros E; rewrite E in Hi; destruct i; discriminate).
  pose proof (@processBatch_results env w (batchOf env k) k known guard_voice Hne Ht) as HR.
  eexists. split; [exact HR|].
  unfold findResult. apply find_key with (i := i).
  - rewrite (processBatch_indices _ _ _ _ HR). now apply NoDup_batchOf.
  - rewrite mapi_nth_error, nth_error_map, Hi. reflexivity.
  - rewrite chunk_result_index. cbn. congruence.
Qed.

End JobIsolation.

(** Jobs are settled one by one, on a page where only Pause/Resume
    is clicked during the run: the job at position [j] of the final
    list belongs to the text chunk at that position, and its fate is
    that of the [fetch] of its batch and of its own generation. *)
Lemma quiet_run_job (env : State) (w : World) (j : nat) (c : Chunker.TextChunk) :
  guard env = None -> isPaused env = false ->
  knownProvider (selectedProvider env) ->
  NoDup (map Chunker.index (textChunks env)) ->
  nth_error (textChunks env) j = Some c ->
  exists a,
    nth_error (audioChunks (handleGenerateAudio env w)) j = Some a /\
    chunkIndex a = Chunker.index c /\ text a = Chunker.text c /\
    match transport w (j / batchSize) with
    | Some m => status a = failed /\ error a = Some m /\ audioUrl a = EmptyString
    | None =>
        match jobAnswer env w j c with
        | Route.OkData d =>
            status a = completed /\ error a = None /\
            audioUrl a = Js.or_else (Route.d_audioUrl d) EmptyString /\
            duration a = match Route.d_duration d with Some n => n | None => 0 end /\
            filename a = Js.or_else (Route.d_filename d) EmptyString
        | _ => status a = failed /\ exists m, error a = Some m
        end
    end.
Proof.
  intros G R K D Hc. eexists. split; [exact (@final_job env w D R G j c Hc)|].
  assert (Hin : inBatch (batchOf env (j / batchSize)) (initialJob c) = true).
  { rewrite (@inBatch_position env D (j / batchSize) j c (initialJob c) Hc eq_refl). apply Nat.eqb_refl. }
  unfold passJob. rewrite Hin.
  destruct (transport w (j / batchSize)) as [m|] eqn:Ht.
  - unfold processBatch. rewrite Ht.
    change (inBatch (batchOf env (j / batchSize)) (withStatus generating (initialJob c)))
      with (inBatch (batchOf env (j / batchSize)) (initialJob c)).
    rewrite Hin. cbn. auto.
  - destruct (@findResult_job env w D G K j c (withStatus generating (initialJob c))
                Hc eq_refl Ht) as (results & -> & F).
    unfold applyResult. rewrite F. unfold Route.chunk_result.
    cbn [sentChunk Route.text].
    change (generate w (j / batchSize) (j mod batchSize) _) with (jobAnswer env w j c).
    destruct (jobAnswer env w j c); cbn;
      (split; [reflexivity|]); (split; [reflexivity|]); split; try reflexivity;
      try (eexists; reflexivity); repeat split.
Qed.

End SchedulerExtras.

(* ================================================================== *)
(** * The counters and the jobs *)

Section CounterExtras.
Import Scheduler.

Lemma NoDup_app_disjoint {A : Type} (l1 l2 : list A) (x : A) :
  NoDup (l1 ++ l2) -> In x l1 -> ~ In x l2.
Proof.
  induction l1 as [|a l1 IH]; cbn [app In]; [contradiction|].
  intros H [->|Hin] Hx; inversion H as [|? ? Ha Hl]; subst.
  - apply Ha. apply in_or_app. now right.
  - now apply (IH Hl Hin).
Qed.

Lemma terminal_counts (jobs : list AudioChunk) :
  Forall terminal jobs ->
  length (filter isCompleted jobs) + length (filter isFailed jobs) = length jobs.
Proof.
  induction 1 as [|a jobs Ha _ IH]; [reflexivity|].
  cbn [filter length].
  destruct (isCompleted a) eqn:E1, (isFailed a) eqn:E2; cbn [length]; try lia;
    exfalso; unfold isCompleted, isFailed in E1, E2;
    destruct Ha as [H|H]; rewrite H in E1, E2; discriminate.
Qed.

Lemma filter_app_length {A : Type} (f : A -> bool) (a b : list A) :
  length (filter f (a ++ b)) = length (filter f a) + length (filter f b).
Proof. now rewrite filter_app, length_app. Qed.

Section Pass.

Variable env : State.
Variable w : World.
Variable k : nat.
Hypothesis distinctBatch : NoDup (map Chunker.index (batchOf env k)).

Lemma inBatch_initialJob (c : Chunker.TextChunk) :
  In c (batchOf env k) -> inBatch (batchOf env k) (initialJob c) = true.
Proof. intros H. apply inBatch_In. cbn. now apply in_map. Qed.

(** When the batch throws, its jobs are [failed]. *)
Lemma settled_thrown (m : string) (c : Chunker.TextChunk) :
  processBatch env w (batchOf env k) k = Thrown m -> In c (batchOf env k) ->
  status (settledJob env w k c) = failed.
Proof.
  intros E Hin. unfold settledJob, passJob. rewrite E.
  rewrite (@inBatch_initialJob c Hin).
  change (inBatch (batchOf env k) (withStatus generating (initialJob c)))
    with (inBatch (batchOf env k) (initialJob c)).
  now rewrite (@inBatch_initialJob c Hin).
Qed.

(** When the batch returns, the job at a position takes the result at
    that position. *)
Lemma settled_returned (results : list Route.ChunkResult) (i : nat)
      (c : Chunker.TextChunk) :
  processBatch env w (batchOf env k) k = Returned results ->
  nth_error (batchOf env k) i = Some c ->
  exists r, nth_error results i = Some r /\
            status (settledJob env w k c)
            = if Route.success r then completed else failed.
Proof.
  intros E Hc. pose proof (processBatch_indices _ _ _ _ E) as Hidx.
  assert (Hr : exists r, nth_error results i = Some r /\
                         Route.chunkIndex r = Chunker.index c).
  { pose proof (f_equal (fun l => nth_error l i) Hidx) as H. cbv beta in H.
    rewrite !nth_error_map, Hc in H. cbn in H.
    destruct (nth_error results i) as [r|]; [|discriminate].
    exists r. split; [reflexivity|]. cbn in H. congruence. }
  destruct Hr as (r & Hr & Hi). exists r. split; [exact Hr|].
  unfold settledJob, passJob. rewrite E.
  rewrite (@inBatch_initialJob c (nth_error_In _ _ Hc)).
  unfold applyResult, findResult. cbn [chunkIndex withStatus initialJob].
  rewrite (@find_key _ Route.chunkIndex results i r (Chunker.index c));
    [reflexivity | now rewrite Hidx | exact Hr | exact Hi].
Qed.

(** The jobs of the batch after its pass, counted. *)
Lemma settled_counts :
  let jobs := map (settledJob env w k) (batchOf env k) in
  Forall terminal jobs /\
  match processBatch env w (batchOf env k) k with
  | Returned results =>
      length (filter isCompleted jobs) = length (filter Route.success results) /\
      length (filter isFailed jobs)
      = length (filter (fun r => negb (Route.success r)) results)
  | Thrown _ =>
      length (filter isCompleted jobs) = 0 /\
      length (filter isFailed jobs) = length (batchOf env k)
  end.
Proof.
  cbv zeta. destruct (processBatch env w (batchOf env k) k) as [results|m] eqn:E.
  - assert (Hs : map status (map (settledJob env w k) (batchOf env k))
                 = map (fun r => if Route.success r then completed else failed) results).
    { apply nth_error_ext. intros i. rewrite !nth_error_map.
      destruct (nth_error (batchOf env k) i) as [c|] eqn:Hc.
      - destruct (@settled_returned results i c E Hc) as (r & Hr & Hst).
        rewrite Hr. cbn [option_map]. now rewrite Hst.
      - apply nth_error_None in Hc.
        rewrite <- (processBatch_length _ _ _ _ E) in Hc.
        apply nth_error_None in Hc. now rewrite Hc. }
    revert Hs. generalize (map (settledJob env w k) (batchOf env k)).
    clear. induction results as [|r results IH]; intros [|a jobs] Hs;
      try discriminate; [repeat split; constructor|].
    cbn [map] in Hs. injection Hs as Ha Hs. destruct (IH _ Hs) as (Ht & Hc & Hf).
    cbn [filter]. unfold isCompleted at 1, isFailed at 1. rewrite Ha.
    split; [constructor; [unfold terminal; rewrite Ha;
                          destruct (Route.success r); auto | exact Ht]|].
    destruct (Route.success r); cbn; lia.
  - assert (Hs : Forall (fun a => status a = failed)
                        (map (settledJob env w k) (batchOf env k))).
    { apply Forall_map, Forall_forall. intros c Hc. now apply settled_thrown with (m := m). }
    rewrite <- (length_map (settledJob env w k) (batchOf env k)).
    revert Hs. generalize (map (settledJob env w k) (batchOf env k)). clear.
    induction 1 as [|a jobs Ha _ (Ht & Hc & Hf)]; [repeat split; constructor|].
    cbn [filter length]. unfold isCompleted at 1, isFailed at 1. rewrite Ha. cbn.
    split; [constructor; [now right | exact Ht]|]. lia.
Qed.

End Pass.

Section Run.

Variable env : State.
Variable w : World.
Hypothesis distinct : NoDup (map Chunker.index (textChunks env)).

Lemma skipn_batches (k : nat) :
  skipn (k * batchSize) (textChunks env)
  = batchOf env k ++ skipn ((k + 1) * batchSize) (textChunks env).
Proof.
  pose proof (firstn_skipn ((k + 1) * batchSize) (textChunks env)) as H1.
  rewrite firstn_batches, <- app_assoc in H1.
  pose proof (firstn_skipn (k * batchSize) (textChunks env)) as H2.
  rewrite <- H2 in H1 at 3. now apply app_inv_head in H1.
Qed.

Lemma chunks_split (k : nat) :
  textChunks env
  = firstn (k * batchSize) (textChunks env)
    ++ batchOf env k ++ skipn ((k + 1) * batchSize) (textChunks env).
Proof. rewrite <- skipn_batches. symmetry. apply firstn_skipn. Qed.

(** One pass keeps the tally. *)
Lemma iteration_tallied (T k : nat) (st : State) :
  tallied env k st -> tallied env (S k) (iteration env w T k st).
Proof.
  intros (D & p & Ha & Hi & Ht & Hp & Htot & Hc & Hf).
  pose proof (chunks_split k) as Hs.
  assert (Hnd : NoDup (map Chunker.index (firstn (k * batchSize) (textChunks env))
                       ++ map Chunker.index (batchOf env k)
                       ++ map Chunker.index (skipn ((k + 1) * batchSize) (textChunks env))))
    by (rewrite <- !map_app, <- Hs; exact distinct).
  assert (Hb : NoDup (map Chunker.index (batchOf env k)))
    by (apply NoDup_app_remove_l in Hnd; now apply NoDup_app_remove_r in Hnd).
  destruct (@settled_counts env w k Hb) as (Hterm & Hcount). cbv zeta in *.
  exists (D ++ map (settledJob env w k) (batchOf env k)).
  rewrite iteration_batchProgress, Hp. cbn [option_map].
  eexists. split; [|split; [|split; [|split; [reflexivity|]]]].
  - rewrite iteration_audioChunks.
    change (map (passJob env w k) (audioChunks st)
            = (D ++ map (settledJob env w k) (batchOf env k))
                ++ map initialJob (skipn (S k * batchSize) (textChunks env))).
    rewrite Ha, skipn_batches, !map_app, <- app_assoc.
    replace (S k * batchSize) with ((k + 1) * batchSize) by lia.
    f_equal; [|f_equal].
    + rewrite <- (map_id D) at 2. apply map_ext_in. intros a Hin.
      apply (pass_job env w k a). destruct (inBatch (batchOf env k) a) eqn:E; [|reflexivity].
      exfalso. apply inBatch_In in E.
      apply (@NoDup_app_disjoint _ _ _ (chunkIndex a) Hnd).
      * rewrite <- Hi. now apply in_map.
      * apply in_or_app. now left.
    + now rewrite map_map.
    + rewrite map_map. apply map_ext_in. intros c Hin.
      apply (pass_job env w k (initialJob c)).
      destruct (inBatch (batchOf env k) (initialJob c)) eqn:E; [|reflexivity].
      exfalso. apply inBatch_In in E. cbn in E.
      apply NoDup_app_remove_l in Hnd.
      apply (@NoDup_app_disjoint _ _ _ (Chunker.index c) Hnd E). now apply in_map.
  - replace (S k * batchSize) with ((k + 1) * batchSize) by lia.
    rewrite firstn_batches, !map_app, Hi. f_equal.
    rewrite map_map. apply map_ext. intros c. apply (pass_job env w k (initialJob c)).
  - apply Forall_app. split; [exact Ht | exact Hterm].
  - rewrite !filter_app_length.
    destruct (processBatch env w (batchOf env k) k); cbn; lia.
Qed.

Hypothesis running : isPaused env = false.

Lemma batchLoop_tallied (T n : nat) :
  forall k st, tallied env k st -> tallied env (k + n) (batchLoop env w T n k st).
Proof.
  induction n as [|n IH]; intros k st H; cbn [batchLoop].
  - now rewrite Nat.add_0_r.
  - rewrite running. replace (k + S n) with (S k + n) by lia.
    apply IH. now apply iteration_tallied.
Qed.

End Run.

Lemma started_tallied (env : State) : tallied env 0 (started env).
Proof.
  exists [], (initialProgress env). cbn. repeat split; constructor.
Qed.

Lemma userClicks_summary (n : nat) (st : State) :
  isSummary (message st) = false -> isSummary (message (userClicks n st)) = false.
Proof.
  revert st. induction n as [|n IH]; intros st H; cbn [userClicks]; [exact H|].
  apply IH. unfold handlePauseResume. cbn. now destruct (negb (isPaused st)).
Qed.

Lemma batchLoop_summary (env : State) (w : World) (T n : nat) :
  forall k st,
    isSummary (message st) = false ->
    isSummary (message (batchLoop env w T n k st)) = false.
Proof.
  induction n as [|n IH]; intros k st H; cbn [batchLoop]; [exact H|].
  destruct (isPaused env); [reflexivity|]. apply IH.
  unfold iteration. cbv zeta.
  assert (H4 : isSummary (message (settle (batchOf env k) k
                                          (processBatch env w (batchOf env k) k)
                 (userClicks (clicksInFlight w k)
                    (setAudioChunks
                       (map (fun chunk => if inBatch (batchOf env k) chunk
                                          then withStatus generating chunk else chunk))
                       (setBatchProgress
                          (option_map (fun prev =>
                             {| totalBatches := totalBatches prev;
                                completedBatches := completedBatches prev;
                                currentBatch := k + 1;
                                totalChunks := totalChunks prev;
                                completedChunks := completedChunks prev;
                                failedChunks := failedChunks prev |})) st)))))
               = false).
  { unfold settle. destruct (processBatch env w (batchOf env k) k); cbn [message setBatchProgress setAudioChunks];
      now apply userClicks_summary. }
  destruct ((k <? T - 1) && negb (isPaused env)); [|exact H4].
  now apply userClicks_summary.
Qed.

(** On a page where only Pause/Resume is clicked during the run, the
    progress at the end counts the jobs of the list; the summary
    message is built from the [batchProgress] of the render that
    started the run. *)
Lemma counters_quiet (env : State) (w : World) :
  guard env = None -> isPaused env = false ->
  NoDup (map Chunker.index (textChunks env)) ->
  (exists p,
      batchProgress (handleGenerateAudio env w) = Some p /\
      completedChunks p
      = length (filter isCompleted (audioChunks (handleGenerateAudio env w))) /\
      failedChunks p
      = length (filter isFailed (audioChunks (handleGenerateAudio env w))) /\
      completedChunks p + failedChunks p = totalChunks p /\
      totalChunks p = length (textChunks env)) /\
  match batchProgress env with
  | Some before =>
      message (handleGenerateAudio env w)
      = Some (Completed (completedChunks before) (totalChunks before)
                        (failedChunks before =? 0))
  | None => isSummary (message (handleGenerateAudio env w)) = false
  end.
Proof.
  intros G R D. split.
  - destruct (handleGenerateAudio_loop env w G) as (-> & ->).
    set (T := ceil_div (length (textChunks env)) batchSize).
    destruct (@batchLoop_tallied env w D R T T 0 (started env) (started_tallied env))
      as (settled & p & Ha & Hi & Ht & Hp & Htot & Hc & Hf).
    cbn [Nat.add] in *.
    assert (Hrest : skipn (T * batchSize) (textChunks env) = []).
    { apply skipn_all2. apply ceil_div_batches. }
    rewrite Hrest in Ha. cbn [map] in Ha. rewrite app_nil_r in Ha.
    exists p. rewrite Ha. repeat split; try assumption.
    rewrite Hc, Hf, (terminal_counts Ht), Htot.
    apply (f_equal (@length nat)) in Hi. rewrite !length_map in Hi. rewrite Hi.
    rewrite firstn_all2 by apply ceil_div_batches. reflexivity.
  - unfold handleGenerateAudio. rewrite G. cbv zeta.
    destruct (batchProgress env) as [before|]; [reflexivity|].
    cbn [message setIsPaused setIsGenerating].
    now apply batchLoop_summary.
Qed.

End CounterExtras.

(* ================================================================== *)
(** * The page: typing, provider changes and the Generate button *)

Section ChunkerSummary.
Import Js Chunker ChunkRun.
Local Open Scope Z_scope.

Lemma ink_nil_all_ws (s : jsstring) : ink s = [] -> all_ws s.
Proof.
  unfold ink, all_ws. induction s as [|c s IH]; cbn; [reflexivity|].
  destruct (is_ws c); cbn; [exact IH | discriminate].
Qed.

Lemma all_ws_trim (s : jsstring) : all_ws s -> trim s = [].
Proof.
  intros H. unfold trim.
  pose proof (@trimStart_app_ws s [] H) as E. rewrite app_nil_r in E.
  rewrite E. reflexivity.
Qed.

Lemma ink_trim (s : jsstring) : ink (trim s) = ink s.
Proof.
  destruct (trim_decomp s) as (l & r & E & Hl & Hr).
  rewrite E at 2. rewrite !ink_app, (ink_all_ws Hl), (ink_all_ws Hr).
  cbn. now rewrite app_nil_r.
Qed.

(** [chunkText] in one statement: it returns, the indices count up from
    [0], the texts cover the input up to white space, and no text is
    longer than [maxLength]. *)
Lemma chunkText_facts (text : jsstring) (maxLength : Z) :
  1 <= maxLength ->
  exists r,
    chunkText text maxLength = Some r /\
    map index r = seq 0 (length r) /\
    covers text r /\
    Forall (fun c => len (Chunker.text c) <= maxLength) r.
Proof.
  intros Hmax.
  destruct (chunkText_cases text Hmax) as [(E & Hw) | (Hgt & r & E & HR)].
  - exists [whole text]. split; [exact E|]. split; [reflexivity|]. split.
    + exists [[]], []. repeat split; try (repeat constructor).
      cbn. now rewrite !app_nil_r.
    + constructor; [|constructor]. cbn.
      destruct Hw as [-> | Hw]; [cbn; lia | exact Hw].
  - exists r. split; [exact E|]. split; [|split].
    + now apply (Run_dense HR).
    + apply (Run_covers Hmax HR); [pose proof (len_nonneg text); lia|].
      exists [], []. repeat split; try constructor.
      rewrite substring_eq by (pose proof (len_nonneg text); lia). reflexivity.
    + assert (Hok : Forall (chunk_ok text maxLength) r)
        by (apply (Run_chunk_ok Hmax HR); [lia | constructor]).
      eapply Forall_impl; [|exact Hok]. now intros c (_ & _ & _ & Hc).
Qed.

End ChunkerSummary.

Section PageExtras.
Import Js Scheduler Page.

Lemma chunkSize_known (p : string) : knownProvider p -> chunkSize p = Some 3000%Z.
Proof. now intros [-> | ->]. Qed.

Lemma all_ws_dec (s : jsstring) : {all_ws s} + {~ all_ws s}.
Proof. unfold all_ws. destruct (forallb is_ws s); [now left | right; discriminate]. Qed.

Lemma trim_length_zero (s : jsstring) : (length (trim s) =? 0) = forallb is_ws s.
Proof.
  destruct (all_ws_dec s) as [H|H].
  - rewrite (all_ws_trim H). symmetry. exact H.
  - destruct (trim s) eqn:E.
    + apply trim_nil_all_ws in E. contradiction.
    + cbn. unfold all_ws in H. now destruct (forallb is_ws s).
Qed.

(** The text chunks after [newText] has been typed. *)
Lemma handleTextChange_textChunks (newText : jsstring) (env : State) :
  knownProvider (selectedProvider env) ->
  exists chunks,
    Chunker.chunkText (trim newText) 3000 = Some chunks /\
    textChunks (handleTextChange newText env)
    = if forallb is_ws newText then [] else chunks.
Proof.
  intros K. destruct (@chunkText_facts (trim newText) 3000 ltac:(lia)) as (r & E & _).
  exists r. split; [exact E|]. unfold handleTextChange. cbv zeta.
  rewrite (chunkSize_known K), E, <- trim_length_zero.
  destruct (trim newText); reflexivity.
Qed.

(** X4. Typing establishes what a run relies on. With a provider of the
    table selected, after [handleTextChange] the text cell holds the
    new text, the audio jobs are cleared, and the text chunks are those
    of [chunkText] on the trimmed text with the chunk size 3000: their
    indices count up from [0] (so they are distinct), no chunk text is
    longer than 3000 units, the chunk texts hold every unit of the new
    text that is not white space, once and in order, and there is no
    chunk exactly when the new text is blank. *)
Theorem handleTextChange_invariants (newText : jsstring) (env : State) :
  knownProvider (selectedProvider env) ->
  let st := handleTextChange newText env in
  st_text st = newText /\
  audioChunks st = [] /\
  map Chunker.index (textChunks st) = seq 0 (length (textChunks st)) /\
  NoDup (map Chunker.index (textChunks st)) /\
  Forall (fun c => (len (Chunker.text c) <= 3000)%Z) (textChunks st) /\
  ink (concat (map Chunker.text (textChunks st))) = ink newText /\
  (textChunks st = [] <-> all_ws newText).
Proof.
  intros K st.
  assert (Ht : st_text st = newText).
  { unfold st, handleTextChange. cbv zeta.
    destruct (0 <? length (trim newText)); [|reflexivity].
    destruct (chunkSize (selectedProvider env)); [|reflexivity].
    destruct (Chunker.chunkText (trim newText) z); reflexivity. }
  assert (Ha : audioChunks st = []) by reflexivity.
  destruct (@chunkText_facts (trim newText) 3000 ltac:(lia)) as (r & E & Hd & Hc & Hl).
  destruct (@handleTextChange_textChunks newText env K) as (r' & E' & Hr).
  rewrite E in E'. injection E' as <-. fold st in Hr.
  split; [exact Ht|]. split; [exact Ha|]. rewrite Hr.
  destruct (all_ws_dec newText) as [W|W].
  - rewrite W. cbn. repeat split; try constructor.
    + symmetry. now apply ink_all_ws.
    + intros _. exact W.
  - assert (Wf : forallb is_ws newText = false)
      by (unfold all_ws in W; now destruct (forallb is_ws newText)).
    rewrite Wf. split; [exact Hd|]. split; [rewrite Hd; apply seq_NoDup|].
    split; [exact Hl|].
    assert (Hi : ink (concat (map Chunker.text r)) = ink newText)
      by (rewrite (covers_ink Hc); apply ink_trim).
    split; [exact Hi|]. split; [|contradiction].
    intros ->. cbn in Hi. exfalso. apply W. now apply ink_nil_all_ws.
Qed.

Lemma handleTextChange_invariants_witness :
  knownProvider (selectedProvider initialState) /\
  audioChunks (handleTextChange hello initialState) = [] /\
  NoDup (map Chunker.index (textChunks (handleTextChange hello initialState))).
Proof.
  assert (K : knownProvider (selectedProvider initialState)) by (left; reflexivity).
  split; [exact K|].
  destruct (@handleTextChange_invariants hello initialState K)
    as (_ & Ha & _ & Hn & _).
  split; [exact Ha | exact Hn].
Defined.

Lemma handleTextChange_fields (newText : jsstring) (env : State) :
  let st := handleTextChange newText env in
  selectedProvider st = selectedProvider env /\
  selectedVoice st = selectedVoice env /\
  selectedModel st = selectedModel env /\
  isGenerating st = isGenerating env /\
  isPaused st = isPaused env /\
  st_text st = newText.
Proof.
  unfold handleTextChange. cbv zeta.
  destruct (0 <? length (trim newText)); [|cbn; auto 7].
  destruct (chunkSize (selectedProvider env)); [|cbn; auto 7].
  destruct (Chunker.chunkText (trim newText) z); cbn; auto 7.
Qed.

(** X5. When the Generate button works. With a provider of the table
    selected, after [newText] has been typed the button is disabled
    exactly while a run is going on or the text is blank, and a click
    passes the three guards of [handleGenerateAudio] exactly when the
    text is not blank and a voice is selected: [chunkText] never
    leaves a text that has something in it without a chunk. *)
Theorem generate_enabled_after_typing (newText : jsstring) (env : State) :
  knownProvider (selectedProvider env) ->
  generateDisabled (handleTextChange newText env)
  = isGenerating env || forallb is_ws newText /\
  (guard (handleTextChange newText env) = None
   <-> ~ all_ws newText /\ selectedVoice env <> EmptyString).
Proof.
  intros K.
  destruct (handleTextChange_fields newText env) as (_ & Hv & _ & Hg & _ & Ht).
  destruct (@handleTextChange_textChunks newText env K) as (r & E & Hr).
  destruct (@chunkText_facts (trim newText) 3000 ltac:(lia)) as (r' & E' & _ & Hc & _).
  rewrite E in E'. injection E' as <-.
  assert (Hne : ~ all_ws newText -> r <> []).
  { intros W ->. apply W, ink_nil_all_ws.
    rewrite <- ink_trim, <- (covers_ink Hc). reflexivity. }
  unfold generateDisabled, guard. rewrite Hg, Hv, Ht, Hr, trim_length_zero.
  destruct (all_ws_dec newText) as [W|W].
  - rewrite W. split; [now destruct (isGenerating env)|].
    split; [discriminate | intros (H & _); contradiction].
  - assert (Wf : forallb is_ws newText = false)
      by (unfold all_ws in W; now destruct (forallb is_ws newText)).
    rewrite Wf. specialize (Hne W).
    destruct r as [|c r]; [congruence|]. cbn [length Nat.eqb orb].
    split; [now destruct (isGenerating env)|].
    destruct (selectedVoice env) as [|a v]; cbn.
    + split; [discriminate | intros (_ & H); congruence].
    + split; [intros _; split; [exact W | discriminate] | reflexivity].
Qed.

Lemma generate_enabled_after_typing_witness :
  knownProvider (selectedProvider initialState) /\
  generateDisabled (handleTextChange hello initialState)
  = isGenerating initialState || forallb is_ws hello.
Proof.
  assert (K : knownProvider (selectedProvider initialState)) by (left; reflexivity).
  split; [exact K|].
  apply (@generate_enabled_after_typing hello initialState K).
Defined.

(** ** Provider changes *)

Lemma TTS_PROVIDERS_known (p : string) :
  knownProvider p ->
  exists entry v vs,
    TTS_PROVIDERS p = Some entry /\ voices entry = v :: vs /\
    id v <> EmptyString /\ provider_chunkSize entry = 3000%Z.
Proof.
  intros [-> | ->]; eexists; eexists; eexists;
    (split; [reflexivity|]); (split; [reflexivity|]); split;
    [discriminate | reflexivity | discriminate | reflexivity].
Qed.

(** [handleProviderChange] for a provider of the table, step by step. *)
Lemma handleProviderChange_known (p : string) (env : State) :
  knownProvider p ->
  exists entry v vs chunks,
    TTS_PROVIDERS p = Some entry /\ voices entry = v :: vs /\
    id v <> EmptyString /\
    Chunker.chunkText (trim (st_text env)) 3000 = Some chunks /\
    handleProviderChange p env =
    let st2 := setSelectedVoice (id v) (setSelectedProvider p env) in
    let st3 := if String.eqb p "minimax"
               then setSelectedModel "speech-02-hd" st2 else st2 in
    if forallb is_ws (st_text env) then st3 else setTextChunks chunks st3.
Proof.
  intros K. destruct (TTS_PROVIDERS_known K) as (entry & v & vs & E & Ev & Hv & Hs).
  destruct (@chunkText_facts (trim (st_text env)) 3000 ltac:(lia)) as (r & Er & _).
  exists entry, v, vs, r. split; [exact E|]. split; [exact Ev|].
  split; [exact Hv|]. split; [exact Er|].
  unfold handleProviderChange. cbv zeta. rewrite E, Ev, Hs, Er.
  rewrite <- trim_length_zero. destruct (trim (st_text env)); reflexivity.
Qed.

(** X6. A provider change leaves a consistent selection. For a
    provider of the table, [handleProviderChange] selects the provider
    and the first voice of its list, sets the model back to
    [speech-02-hd] for MiniMax and keeps it for ElevenLabs; the text,
    the audio jobs and the progress stay as they were; the text chunks
    are those of [chunkText] on the trimmed text with the chunk size
    3000, or stay as they were when the text is blank. The request of
    every non-empty batch built from the new selection passes the
    validation of the batch route. *)
Theorem handleProviderChange_selection (p : string) (env : State) :
  knownProvider p ->
  let st := handleProviderChange p env in
  selectedProvider st = p /\
  (exists entry v vs, TTS_PROVIDERS p = Some entry /\ voices entry = v :: vs /\
                      selectedVoice st = id v) /\
  (p = "minimax"%string -> selectedModel st = "speech-02-hd"%string) /\
  (p = "elevenlabs"%string -> selectedModel st = selectedModel env) /\
  st_text st = st_text env /\
  audioChunks st = audioChunks env /\
  batchProgress st = batchProgress env /\
  (exists chunks,
      Chunker.chunkText (trim (st_text env)) 3000 = Some chunks /\
      textChunks st = if forallb is_ws (st_text env) then textChunks env else chunks) /\
  (forall batch, batch <> [] -> Route.valid (batchRequest st batch) = true).
Proof.
  intros K st.
  destruct (@handleProviderChange_known p env K)
    as (entry & v & vs & chunks & E & Ev & Hv & Ec & H).
  cbv zeta in H. fold st in H.
  assert (Hp : selectedProvider st = p).
  { rewrite H. destruct (forallb is_ws (st_text env)), (String.eqb p "minimax");
      reflexivity. }
  assert (Hsv : selectedVoice st = id v).
  { rewrite H. destruct (forallb is_ws (st_text env)), (String.eqb p "minimax");
      reflexivity. }
  split; [exact Hp|]. split; [exists entry, v, vs; auto|].
  split; [intros ->; rewrite H; cbn; now destruct (forallb is_ws (st_text env))|].
  split; [intros ->; rewrite H; cbn; now destruct (forallb is_ws (st_text env))|].
  split; [rewrite H; destruct (forallb is_ws (st_text env)), (String.eqb p "minimax");
          reflexivity|].
  split; [rewrite H; destruct (forallb is_ws (st_text env)), (String.eqb p "minimax");
          reflexivity|].
  split; [rewrite H; destruct (forallb is_ws (st_text env)), (String.eqb p "minimax");
          reflexivity|].
  split.
  - exists chunks. split; [exact Ec|]. rewrite H.
    destruct (forallb is_ws (st_text env)), (String.eqb p "minimax"); reflexivity.
  - intros batch Hb. apply batchRequest_valid; [now rewrite Hp | now rewrite Hsv | exact Hb].
Qed.

Lemma handleProviderChange_selection_witness :
  knownProvider "elevenlabs" /\
  selectedVoice (handleProviderChange "elevenlabs" hello_env)
  = "21m00Tcm4TlvDq8ikWAM"%string /\
  audioChunks (handleProviderChange "elevenlabs" hello_env) = audioChunks hello_env.
Proof.
  assert (K : knownProvider "elevenlabs") by (right; reflexivity).
  split; [exact K|].
  destruct (@handleProviderChange_selection "elevenlabs" hello_env K)
    as (_ & (entry & v & vs & E & Ev & Hv) & _ & _ & _ & Ha & _).
  split; [|exact Ha].
  rewrite Hv. cbn in E. injection E as <-. cbn in Ev. now injection Ev as <- _.
Defined.

(** X7. Changing the provider after typing does not move the chunk
    boundaries: both providers of the table have the chunk size 3000,
    so the text chunks after the change are those that typing left,
    and the audio jobs stay cleared. *)
Theorem provider_change_keeps_chunks (p : string) (newText : jsstring) (env : State) :
  knownProvider p -> knownProvider (selectedProvider env) ->
  textChunks (handleProviderChange p (handleTextChange newText env))
  = textChunks (handleTextChange newText env) /\
  audioChunks (handleProviderChange p (handleTextChange newText env)) = [].
Proof.
  intros K K'.
  destruct (@handleProviderChange_known p (handleTextChange newText env) K)
    as (entry & v & vs & chunks & _ & _ & _ & Ec & H).
  cbv zeta in H.
  destruct (handleTextChange_fields newText env) as (_ & _ & _ & _ & _ & Ht).
  destruct (@handleTextChange_textChunks newText env K') as (r & E & Hr).
  rewrite Ht in *. rewrite E in Ec. injection Ec as <-.
  rewrite H. split.
  - destruct (forallb is_ws newText) eqn:W, (String.eqb p "minimax");
      cbn [textChunks setTextChunks setSelectedModel setSelectedVoice
           setSelectedProvider];
      rewrite ?Hr, ?W; reflexivity.
  - destruct (forallb is_ws newText), (String.eqb p "minimax"); reflexivity.
Qed.

Lemma provider_change_keeps_chunks_witness :
  knownProvider "elevenlabs" /\ knownProvider (selectedProvider initialState) /\
  textChunks (handleProviderChange "elevenlabs" (handleTextChange hello initialState))
  = textChunks (handleTextChange hello initialState).
Proof.
  assert (K : knownProvider "elevenlabs") by (right; reflexivity).
  assert (K' : knownProvider (selectedProvider initialState)) by (left; reflexivity).
  split; [exact K|]. split; [exact K'|].
  apply (@provider_change_keeps_chunks "elevenlabs" hello initialState K K').
Defined.

End PageExtras.

(* ================================================================== *)
(** * The batch route: the summary of its answer *)

Section RouteExtras.
Import Route.




End RouteExtras.

(* ================================================================== *)
(** * The ZIP export: names and contents of the archive *)

Section ZipExtras.
Import Scheduler.

Lemma leadingNumber_uint (d : Decimal.uint) (f : string) :
  forall acc,
    leadingNumber (NilEmpty.string_of_uint d ++ String "_" f) acc
    = Nat.of_uint_acc d acc.
Proof.
  induction d; intros acc; cbn [NilEmpty.string_of_uint Nat.of_uint_acc];
    [reflexivity| ..];
    change (String ?c ?s ++ ?t)%string with (String c (s ++ t));
    cbn [leadingNumber]; rewrite Nat.tail_mul_spec;
    match goal with
    | |- context [digitValue ?c] =>
        let r := eval cbv in (digitValue c) in change (digitValue c) with r
    end;
    cbv iota; rewrite IHd; f_equal; lia.
Qed.

Lemma leadingNumber_zeros (k : nat) (t : string) :
  leadingNumber (string_of_list_ascii (repeat "0"%char k) ++ t) 0 = leadingNumber t 0.
Proof. induction k as [|k IH]; [reflexivity | exact IH]. Qed.

Lemma append_assoc (a b c : string) : ((a ++ b) ++ c = a ++ (b ++ c))%string.
Proof. induction a as [|x a IH]; cbn; [reflexivity | now rewrite IH]. Qed.

Lemma append_cancel (a b c : string) : (a ++ b = a ++ c)%string -> b = c.
Proof. induction a as [|x a IH]; cbn; [auto | intros [= H]; auto]. Qed.

(** The archive name of a job starts with its number. *)
Lemma entryName_number (a : AudioChunk) :
  leadingNumber (entryName a) 0 = chunkIndex a + 1.
Proof.
  unfold entryName, padStart0. rewrite !append_assoc, leadingNumber_zeros.
  unfold string_of_nat.
  change ("_" ++ filename a)%string with (String "_" (filename a)).
  rewrite leadingNumber_uint. apply DecimalNat.Unsigned.of_to.
Qed.

Lemma entryName_inj (a b : AudioChunk) :
  entryName a = entryName b ->
  chunkIndex a = chunkIndex b /\ filename a = filename b.
Proof.
  intros E.
  assert (Hi : chunkIndex a = chunkIndex b).
  { pose proof (entryName_number a) as Ha. pose proof (entryName_number b) as Hb.
    rewrite E in Ha. lia. }
  split; [exact Hi|].
  unfold entryName in E. rewrite Hi in E.
  apply append_cancel in E. now injection E.
Qed.

Lemma zipFile_fresh (name : string) (data : Blob) (zip : Zip) :
  ~ In name (map fst zip) -> zipFile name data zip = zip ++ [(name, data)].
Proof.
  induction zip as [|[n d] zip IH]; cbn; [reflexivity|].
  intros H. destruct (String.eqb_spec n name) as [E|E].
  - exfalso. apply H. now left.
  - rewrite IH; [reflexivity|]. intros Hin. apply H. now right.
Qed.

Lemma NoDup_map_finer {A B C : Type} (f : A -> B) (g : A -> C) (l : list A) :
  (forall a b, g a = g b -> f a = f b) -> NoDup (map f l) -> NoDup (map g l).
Proof.
  intros Hfg. induction l as [|a l IH]; cbn; intros H; [constructor|].
  inversion H as [|? ? Ha Hl]; subst. constructor; [|now apply IH].
  intros Hin. apply Ha. apply in_map_iff in Hin. destruct Hin as (b & E & Hb).
  apply in_map_iff. exists b. split; [now apply Hfg | exact Hb].
Qed.

(** The completed jobs of a list with distinct indices have distinct
    indices. *)
Lemma completed_distinct (jobs : list AudioChunk) :
  NoDup (map chunkIndex jobs) ->
  NoDup (map chunkIndex (filter isCompleted jobs)).
Proof.
  induction jobs as [|a jobs IH]; cbn [map filter]; intros H; [constructor|].
  inversion H as [|? ? Ha Hl]; subst.
  destruct (isCompleted a); [|now apply IH]. cbn [map].
  constructor; [|now apply IH].
  intros Hin. apply Ha. apply in_map_iff in Hin. destruct Hin as (b & E & Hb).
  apply in_map_iff. exists b. split; [exact E|]. now apply filter_In in Hb.
Qed.

Lemma zipEntry_names (fetchBlob : string -> option Blob) (chunks : list AudioChunk) :
  forall n, In n (map fst (flat_map (zipEntry fetchBlob) chunks)) ->
            In n (map entryName chunks).
Proof.
  induction chunks as [|c chunks IH]; cbn; intros n H; [exact H|].
  rewrite map_app, in_app_iff in H. destruct H as [H|H]; [|right; now apply IH].
  unfold zipEntry in H. destruct (fetchBlob (audioUrl c)); cbn in H; [|contradiction].
  destruct H as [H|[]]. now left.
Qed.

(** With names that differ, the loop of the export appends. *)
Lemma addAll_fresh (fetchBlob : string -> option Blob) (chunks : list AudioChunk) :
  forall zip,
    NoDup (map entryName chunks) ->
    (forall c, In c chunks -> ~ In (entryName c) (map fst zip)) ->
    addAll fetchBlob chunks zip = zip ++ flat_map (zipEntry fetchBlob) chunks.
Proof.
  induction chunks as [|c chunks IH]; intros zip Hnd Hz; cbn [addAll flat_map].
  - now rewrite app_nil_r.
  - cbn [map] in Hnd. inversion Hnd as [|? ? Hc Hl]; subst.
    unfold zipEntry at 1. destruct (fetchBlob (audioUrl c)) as [b|].
    + rewrite zipFile_fresh by (apply Hz; now left).
      rewrite IH; [now rewrite <- app_assoc | exact Hl |].
      intros c' Hc' Hin. rewrite map_app, in_app_iff in Hin.
      destruct Hin as [Hin|[Hin|[]]].
      * apply (Hz c'); [now right | exact Hin].
      * cbn [fst] in Hin. apply Hc. rewrite Hin. now apply in_map.
    + apply IH; [exact Hl|]. intros c' Hc'. apply Hz. now right.
Qed.

Lemma NoDup_zipEntry (fetchBlob : string -> option Blob) (chunks : list AudioChunk) :
  NoDup (map entryName chunks) ->
  NoDup (map fst (flat_map (zipEntry fetchBlob) chunks)).
Proof.
  induction chunks as [|c chunks IH]; cbn; intros H; [constructor|].
  inversion H as [|? ? Hc Hl]; subst. rewrite map_app.
  unfold zipEntry at 1. destruct (fetchBlob (audioUrl c)); cbn; [|now apply IH].
  constructor; [|now apply IH]. intros Hin. apply Hc.
  now apply zipEntry_names in Hin.
Qed.

(** X8. No audio is lost to a name clash. The name of a job in the
    archive starts with its number [chunkIndex + 1], so jobs of
    different indices have different names. Hence, when the jobs have
    distinct indices and some job is completed, the archive handed to
    [saveAs] holds, in job order, one file for every completed job
    whose audio could be fetched, under the name of that job and with
    the data fetched from its [audioUrl]; no file replaces another; and
    when every fetch succeeds the files are those of the completed
    jobs, one each. *)
Theorem zip_holds_every_fetched_job (st : State) (fetchBlob : string -> option Blob) :
  NoDup (map chunkIndex (audioChunks st)) ->
  filter isCompleted (audioChunks st) <> [] ->
  let completedChunks_ := filter isCompleted (audioChunks st) in
  (forall a, leadingNumber (entryName a) 0 = chunkIndex a + 1) /\
  exists zip,
    snd (handleDownloadAllAsZip st fetchBlob) = Some zip /\
    zip = flat_map (zipEntry fetchBlob) completedChunks_ /\
    NoDup (map fst zip) /\
    ((forall c, In c completedChunks_ -> fetchBlob (audioUrl c) <> None) ->
     map fst zip = map entryName completedChunks_).
Proof.
  intros Hnd Hne completedChunks_. split; [exact entryName_number|].
  subst completedChunks_.
  assert (Hn : NoDup (map entryName (filter isCompleted (audioChunks st)))).
  { apply NoDup_map_finer with (f := chunkIndex).
    - intros a b E. now apply entryName_inj in E.
    - now apply completed_distinct. }
  exists (flat_map (zipEntry fetchBlob) (filter isCompleted (audioChunks st))).
  split; [|split; [reflexivity|split]].
  - unfold handleDownloadAllAsZip. cbv zeta.
    destruct (filter isCompleted (audioChunks st)) as [|c cs] eqn:E; [congruence|].
    cbn [length Nat.eqb snd]. f_equal.
    rewrite addAll_fresh; [reflexivity | exact Hn | intros ? _ []].
  - now apply NoDup_zipEntry.
  - intros Hf. clear Hn Hne.
    induction (filter isCompleted (audioChunks st)) as [|c cs IH]; [reflexivity|].
    cbn [flat_map map]. rewrite map_app. unfold zipEntry at 1.
    destruct (fetchBlob (audioUrl c)) eqn:F.
    + cbn [map fst app]. f_equal. apply IH. intros c' Hc'. apply Hf. now right.
    + exfalso. apply (Hf c); [now left | exact F].
Qed.

Lemma zip_holds_every_fetched_job_witness :
  NoDup (map chunkIndex (audioChunks hello_done)) /\
  filter isCompleted (audioChunks hello_done) <> [] /\
  exists zip,
    snd (handleDownloadAllAsZip hello_done Samples.fetch_all) = Some zip /\
    NoDup (map fst zip).
Proof.
  assert (Hd : NoDup (map chunkIndex (audioChunks hello_done))).
  { change (NoDup [0]). constructor; [intros []|constructor]. }
  assert (Hc : filter isCompleted (audioChunks hello_done) <> []).
  { intros E. apply (f_equal (@length AudioChunk)) in E. discriminate E. }
  split; [exact Hd|]. split; [exact Hc|].
  destruct (@zip_holds_every_fetched_job hello_done Samples.fetch_all Hd Hc)
    as (_ & zip & Hz & _ & Hn & _).
  exists zip. split; [exact Hz | exact Hn].
Defined.

End ZipExtras.

(* ================================================================== *)
(** * The chunker: where a chunk ends, and how many chunks there are *)

Section RegexMatches.
Import Js Regex.

Lemma run_spec (p : char -> bool) (s : jsstring) :
  forall k, k < run p s -> exists u, nth_error s k = Some u /\ p u = true.
Proof.
  induction s as [|c r IH]; cbn [run]; intros k Hk; [lia|].
  destruct (p c) eqn:Hc; [|lia].
  destruct k as [|k]; [exists c; auto|]. apply IH. lia.
Qed.

(** What a match at the head of [s] looks like. *)
Lemma match_here_sound (s : jsstring) (n : nat) :
  match_here s = Some n ->
  1 <= n <= length s /\
  (exists u, nth_error s (n - 1) = Some u /\ is_ws u = true) /\
  ((exists u, nth_error s 0 = Some u /\ is_newline u = true /\
              exists v, nth_error s (n - 1) = Some v /\ is_newline v = true) \/
   (exists t, nth_error s 0 = Some t /\ is_terminator t = true /\ 2 <= n /\
              forall k, 0 < k < n -> exists u, nth_error s k = Some u /\ is_ws u = true)).
Proof.
  intros H. split; [now apply match_here_bounds|].
  destruct s as [|c r]; [discriminate|]. unfold match_here in H.
  destruct (is_terminator c && (0 <? run is_ws r)) eqn:Ht.
  - injection H as <-. apply andb_true_iff in Ht. destruct Ht as (Ht & Hr).
    apply Nat.ltb_lt in Hr.
    assert (Hk : forall k, 0 < k < S (run is_ws r) ->
                           exists u, nth_error (c :: r) k = Some u /\ is_ws u = true).
    { intros [|k] Hk; [lia|]. cbn [nth_error]. apply run_spec. lia. }
    split; [apply Hk; lia|]. right. exists c. repeat split; auto; lia.
  - destruct (is_newline c) eqn:Hn; [|discriminate]. injection H as <-.
    assert (H1 : 1 <= run is_newline (c :: r)) by (cbn; rewrite Hn; lia).
    destruct (@run_spec is_newline (c :: r) (run is_newline (c :: r) - 1) ltac:(lia))
      as (v & Hv & Hvn).
    split; [exists v; split; [exact Hv | now apply is_newline_ws]|].
    left. exists c. repeat split; auto. exists v. auto.
Qed.

(** What the lack of a match at the head of [s] excludes. *)
Lemma match_here_none (s : jsstring) :
  match_here s = None ->
  match s with
  | [] => True
  | c :: r =>
      is_newline c = false /\
      (is_terminator c = true ->
       match r with [] => True | d :: _ => is_ws d = false end)
  end.
Proof.
  destruct s as [|c r]; [auto|]. unfold match_here.
  destruct (is_terminator c) eqn:Ht; cbn [andb].
  - destruct r as [|d r']; cbn [run].
    + cbn. destruct (is_newline c); [discriminate | auto].
    + destruct (is_ws d); cbn; [discriminate|].
      destruct (is_newline c); [discriminate | auto].
  - destruct (is_newline c); [discriminate|]. intros _. split; [reflexivity | discriminate].
Qed.

Lemma search_sound (s : jsstring) :
  forall i j n, search s i = Some (j, n) ->
                i <= j /\ match_here (skipn (j - i) s) = Some n.
Proof.
  induction s as [|c r IH]; intros i j n; [discriminate|].
  cbn [search]. destruct (match_here (c :: r)) as [m|] eqn:Hm.
  - intros [= <- <-]. rewrite Nat.sub_diag. auto.
  - intros H. apply IH in H. destruct H as (Hi & H). split; [lia|].
    replace (j - i) with (S (j - S i)) by lia. exact H.
Qed.

Lemma search_complete (s : jsstring) :
  forall i, search s i = None -> forall k, match_here (skipn k s) = None.
Proof.
  induction s as [|c r IH]; intros i H k.
  - now destruct k.
  - cbn [search] in H. destruct (match_here (c :: r)) as [m|] eqn:Hm; [discriminate|].
    destruct k as [|k]; [exact Hm|]. cbn [skipn]. now apply (IH (S i)).
Qed.

(** The end of the last match that the loop over [exec] keeps. *)
Lemma exec_loop_sound (s : jsstring) (cur : Z) (fuel : nat) :
  forall re last lm,
    exec_loop fuel re s cur last = Some lm ->
    (lm = last /\ fst (exec re s) = None) \/
    (exists j n, match_here (skipn j s) = Some n /\
                 lm = (cur + Z.of_nat j + Z.of_nat n)%Z /\ j + n <= length s).
Proof.
  induction fuel as [|fuel IH]; intros re last lm; [discriminate|].
  cbn [exec_loop]. destruct (exec re s) as [[[j n]|] re'] eqn:He.
  - intros H. right.
    destruct (IH _ _ _ H) as [(-> & _) | R]; [|exact R].
    exists j, n. pose proof (exec_bounds _ _ He) as Hb.
    unfold exec in He.
    destruct (length s <? lastIndex re); [discriminate|].
    destruct (search (skipn (lastIndex re) s) (lastIndex re)) as [[j' n']|] eqn:Hs;
      [|discriminate].
    injection He as <- <- _. apply search_sound in Hs. destruct Hs as (Hl & Hs).
    rewrite skipn_skipn in Hs.
    replace (j' - lastIndex re + lastIndex re) with j' in Hs by lia.
    split; [exact Hs|]. split; [reflexivity | lia].
  - intros [= <-]. left. auto.
Qed.

Lemma lastMatch_sound (s : jsstring) (cur lm : Z) :
  lastMatch s cur = Some lm ->
  (lm = (-1)%Z /\ forall k, match_here (skipn k s) = None) \/
  (exists j n, match_here (skipn j s) = Some n /\
               lm = (cur + Z.of_nat j + Z.of_nat n)%Z /\ j + n <= length s).
Proof.
  intros H. apply exec_loop_sound in H. destruct H as [(-> & H) | R]; [|now right].
  left. split; [reflexivity|]. unfold exec in H. cbn in H.
  destruct (search s 0) as [[j n]|] eqn:Hs; [discriminate|].
  now apply search_complete with (i := 0).
Qed.

End RegexMatches.

Section SplitRule.
Import Js Regex Chunker ChunkRun.
Local Open Scope Z_scope.

Lemma last_index_in_max (c : char) (s : jsstring) :
  forall i found k,
    found < i -> nth_error s k = Some c ->
    i + Z.of_nat k <= last_index_in c s i found.
Proof.
  induction s as [|x r IH]; intros i found k Hf Hk; [now destruct k|].
  cbn [last_index_in]. destruct k as [|k].
  - cbn in Hk. injection Hk as ->. rewrite N.eqb_refl.
    destruct (last_index_in_spec c r (i + 1) i) as [E | (E & _)]; cbn in E |- *; lia.
  - cbn [nth_error] in Hk.
    pose proof (IH (i + 1) (if N.eqb x c then i else found) k
                   ltac:(destruct (N.eqb x c); lia) Hk).
    lia.
Qed.

(** [lastIndexOf] finds the last occurrence at or before [fromIndex]. *)
Lemma lastIndexOf_max (s : jsstring) (c : char) (fromIndex k : Z) :
  0 <= k <= fromIndex -> unit_at s k = Some c -> k <= lastIndexOf s c fromIndex.
Proof.
  intros Hk Hu. unfold unit_at in Hu.
  destruct (Z.ltb_spec k 0); [lia|].
  assert (Hlt : (Z.to_nat k < length s)%nat) by (apply nth_error_Some; congruence).
  unfold lastIndexOf, len.
  set (start := Z.min (Z.max fromIndex 0) (Z.of_nat (length s) - 1)).
  assert (Hn : nth_error (firstn (Z.to_nat (start + 1)) s) (Z.to_nat k) = Some c).
  { rewrite nth_error_firstn.
    destruct (Nat.ltb_spec (Z.to_nat k) (Z.to_nat (start + 1))); [exact Hu|].
    unfold start in *. lia. }
  pose proof (@last_index_in_max c _ 0 (-1) _ ltac:(lia) Hn). lia.
Qed.

Lemma lastIndexOf_unit (s : jsstring) (c : char) (fromIndex : Z) :
  0 <= lastIndexOf s c fromIndex ->
  unit_at s (lastIndexOf s c fromIndex) = Some c /\
  lastIndexOf s c fromIndex <= Z.max fromIndex 0.
Proof.
  intros H. destruct (lastIndexOf_spec s c fromIndex) as [E | (Hr & _ & Hn)];
    cbn zeta in *; [lia|].
  split; [|lia]. unfold unit_at.
  destruct (Z.ltb_spec (lastIndexOf s c fromIndex) 0); [lia | exact Hn].
Qed.

(** The units of a window are those of the text. *)
Lemma window_unit (text : jsstring) (a b : Z) (k : nat) :
  0 <= a <= b -> b <= len text ->
  nth_error (substring text a b) k
  = if (Z.of_nat k <? b - a) then unit_at text (a + Z.of_nat k) else None.
Proof.
  intros Hab Hb. rewrite substring_eq by assumption.
  rewrite nth_error_firstn, nth_error_skipn. unfold unit_at.
  destruct (Z.ltb_spec (Z.of_nat k) (b - a)) as [H|H].
  - destruct (Nat.ltb_spec k (Z.to_nat (b - a))); [|lia].
    destruct (Z.ltb_spec (a + Z.of_nat k) 0); [lia|].
    f_equal. lia.
  - destruct (Nat.ltb_spec k (Z.to_nat (b - a))); [lia | reflexivity].
Qed.

Lemma window_skipn (text : jsstring) (a b : Z) (j k : nat) :
  0 <= a <= b -> b <= len text ->
  nth_error (skipn j (substring text a b)) k
  = if (Z.of_nat (j + k) <? b - a) then unit_at text (a + Z.of_nat (j + k)) else None.
Proof.
  intros Hab Hb. rewrite nth_error_skipn. now apply window_unit.
Qed.

Variable text : jsstring.
Variable maxLength : Z.
Hypothesis Hmax : 1 <= maxLength.

(** A match in the window is a sentence end of the text. *)
Lemma match_sentence_end (pos : Z) (j n : nat) :
  0 <= pos -> pos + maxLength <= len text ->
  match_here (skipn j (substring text pos (pos + maxLength))) = Some n ->
  (j + n <= length (substring text pos (pos + maxLength)))%nat ->
  has_sentence_end text pos (pos + maxLength) /\
  sentence_end text (pos + Z.of_nat j + Z.of_nat n).
Proof.
  intros Hpos Hend Hm Hjn.
  assert (Hlen : length (substring text pos (pos + maxLength)) = Z.to_nat maxLength).
  { pose proof (@substring_length text pos (pos + maxLength) ltac:(lia) Hend) as E.
    unfold len in E. lia. }
  assert (W : forall k u,
             nth_error (skipn j (substring text pos (pos + maxLength))) k = Some u ->
             Z.of_nat (j + k) < maxLength /\
             unit_at text (pos + Z.of_nat (j + k)) = Some u).
  { intros k u Hk. rewrite window_skipn in Hk by lia.
    replace (pos + maxLength - pos) with maxLength in Hk by lia.
    destruct (Z.ltb_spec (Z.of_nat (j + k)) maxLength); [auto | discriminate]. }
  destruct (match_here_sound _ Hm) as (Hn & _ & [N | T]).
  - destruct N as (u & Hu & Hun & v & Hv & Hvn).
    apply W in Hu. apply W in Hv. destruct Hu as (Hu1 & Hu), Hv as (Hv1 & Hv).
    split.
    + left. exists (pos + Z.of_nat (j + 0)), u. split; [lia | auto].
    + left. exists v. split; [|exact Hvn].
      rewrite <- Hv. f_equal. lia.
  - destruct T as (t & Ht & Htt & Hn2 & Hk).
    apply W in Ht. destruct Ht as (Ht1 & Ht).
    destruct (Hk 1%nat ltac:(lia)) as (v & Hv & Hvw).
    apply W in Hv. destruct Hv as (Hv1 & Hv).
    split.
    + right. exists (pos + Z.of_nat (j + 0)), t, v.
      split; [lia|]. split; [lia|]. split; [exact Ht|]. split; [exact Htt|].
      split; [|exact Hvw]. rewrite <- Hv. f_equal. lia.
    + right. exists (pos + Z.of_nat (j + 0)), t.
      split; [lia|]. split; [lia|]. split; [exact Ht|]. split; [exact Htt|].
      intros k Hkr.
      destruct (Hk (Z.to_nat (k - pos - Z.of_nat j)) ltac:(lia)) as (u & Hu & Huw).
      apply W in Hu. destruct Hu as (_ & Hu). exists u. split; [|exact Huw].
      rewrite <- Hu. f_equal. lia.
Qed.

(** No match in the window: the window holds no sentence end. *)
Lemma no_match_no_sentence_end (pos : Z) :
  0 <= pos -> pos + maxLength <= len text ->
  (forall k, match_here (skipn k (substring text pos (pos + maxLength))) = None) ->
  ~ has_sentence_end text pos (pos + maxLength).
Proof.
  intros Hpos Hend Hnone Hs.
  assert (W : forall k : nat,
             nth_error (skipn k (substring text pos (pos + maxLength))) 0
             = if Z.of_nat k <? maxLength then unit_at text (pos + Z.of_nat k) else None).
  { intros k. rewrite window_skipn by lia. rewrite Nat.add_0_r.
    now replace (pos + maxLength - pos) with maxLength by lia. }
  assert (W1 : forall k : nat,
             nth_error (skipn k (substring text pos (pos + maxLength))) 1
             = if Z.of_nat (k + 1) <? maxLength
               then unit_at text (pos + Z.of_nat (k + 1)) else None).
  { intros k. rewrite window_skipn by lia.
    now replace (pos + maxLength - pos) with maxLength by lia. }
  destruct Hs as [(k & u & Hk & Hu & Hn) | (k & u & v & Hk & Hk1 & Hu & Ht & Hv & Hw)].
  - specialize (Hnone (Z.to_nat (k - pos))). apply match_here_none in Hnone.
    specialize (W (Z.to_nat (k - pos))).
    destruct (Z.ltb_spec (Z.of_nat (Z.to_nat (k - pos))) maxLength); [|lia].
    replace (pos + Z.of_nat (Z.to_nat (k - pos))) with k in W by lia.
    rewrite Hu in W.
    destruct (skipn (Z.to_nat (k - pos)) (substring text pos (pos + maxLength)))
      as [|c r]; [discriminate|].
    cbn in W. injection W as ->. destruct Hnone as (Hc & _). congruence.
  - specialize (Hnone (Z.to_nat (k - pos))). apply match_here_none in Hnone.
    specialize (W (Z.to_nat (k - pos))). specialize (W1 (Z.to_nat (k - pos))).
    destruct (Z.ltb_spec (Z.of_nat (Z.to_nat (k - pos))) maxLength); [|lia].
    destruct (Z.ltb_spec (Z.of_nat (Z.to_nat (k - pos) + 1)) maxLength); [|lia].
    replace (pos + Z.of_nat (Z.to_nat (k - pos))) with k in W by lia.
    replace (pos + Z.of_nat (Z.to_nat (k - pos) + 1)) with (k + 1) in W1 by lia.
    rewrite Hu in W. rewrite Hv in W1.
    destruct (skipn (Z.to_nat (k - pos)) (substring text pos (pos + maxLength)))
      as [|c [|d r]]; try discriminate.
    cbn in W, W1. injection W as ->. injection W1 as ->.
    destruct Hnone as (_ & Hc). specialize (Hc Ht). congruence.
Qed.

(** The choice of the split position, case by case. *)
Lemma choose_split_kind (pos lm : Z) :
  0 <= pos -> pos + maxLength < len text ->
  lastMatch (substring text pos (pos + maxLength)) pos = Some lm ->
  split_rule text maxLength
             {| index := 0; Chunker.text := [];
                startChar := pos;
                endChar := choose_split text pos (pos + maxLength) lm |}.
Proof.
  intros Hpos Hmore Hlm. unfold split_rule. cbn [startChar endChar]. cbv zeta.
  right. split; [exact Hmore|].
  assert (Hlen : length (substring text pos (pos + maxLength)) = Z.to_nat maxLength).
  { pose proof (@substring_length text pos (pos + maxLength) ltac:(lia) ltac:(lia)) as E.
    unfold len in E. lia. }
  destruct (lastMatch_sound _ _ Hlm) as [(-> & Hnone) | (j & n & Hm & -> & Hjn)].
  - assert (Hno : ~ has_sentence_end text pos (pos + maxLength))
      by (apply no_match_no_sentence_end; [lia | lia | exact Hnone]).
    right. unfold choose_split.
    destruct (Z.gtb_spec (-1) pos); [lia|].
    cbn [andb]. cbv zeta.
    destruct (Z.gtb_spec (lastIndexOf text space (pos + maxLength)) pos) as [Hsp|Hsp].
    + left. destruct (@lastIndexOf_unit text space (pos + maxLength) ltac:(lia))
        as (Hu & Hle).
      split; [exact Hno|]. split.
      { exists (lastIndexOf text space (pos + maxLength)). split; [lia | exact Hu]. }
      split; [now replace (lastIndexOf text space (pos + maxLength) + 1 - 1)
                with (lastIndexOf text space (pos + maxLength)) by lia|].
      split; [lia|].
      intros k Hk Hku.
      pose proof (@lastIndexOf_max text space (pos + maxLength) k ltac:(lia) Hku). lia.
    + right. split; [exact Hno|]. split; [|reflexivity].
      intros (k & Hk & Hku).
      pose proof (@lastIndexOf_max text space (pos + maxLength) k ltac:(lia) Hku). lia.
  - pose proof (match_here_bounds _ Hm) as Hn.
    destruct (@match_sentence_end pos j n Hpos ltac:(lia) Hm Hjn) as (Hh & Hs).
    left. unfold choose_split.
    destruct (Z.gtb_spec (pos + Z.of_nat j + Z.of_nat n) pos); [|lia].
    destruct (Z.leb_spec (pos + Z.of_nat j + Z.of_nat n) (pos + maxLength)); [|lia].
    cbn [andb]. split; [exact Hh|]. split; [exact Hs|]. lia.
Qed.

(** Every chunk of a run ends where the rule says. *)
Lemma Run_split_rule (pos : Z) (idx : nat) (cs r : list TextChunk) :
  Run text maxLength pos idx cs r -> 0 <= pos ->
  Forall (split_rule text maxLength) cs -> Forall (split_rule text maxLength) r.
Proof.
  induct_run; intros Hpos Hcs.
  - exact Hcs.
  - apply Forall_app. split; [exact Hcs|]. constructor; [|constructor].
    left. cbn. split; [lia | reflexivity].
  - destruct (@choose_split_bounds text maxLength Hmax pos lm Hpos Hmore) as (H1 & _).
    rewrite <- Hsp in *. apply IH; [lia|].
    apply Forall_app. split; [exact Hcs|]. constructor; [|constructor].
    rewrite Hsp. exact (@choose_split_kind pos lm Hpos Hmore Hlm).
  - destruct (@choose_split_bounds text maxLength Hmax pos lm Hpos Hmore) as (H1 & _).
    rewrite <- Hsp in *. apply IH; [lia | exact Hcs].
Qed.

End SplitRule.

Section ChunkerExtras.
Import Js Chunker ChunkRun.
Local Open Scope Z_scope.

(** X9. Where chunks end. For every input and every [maxLength >= 1],
    [chunkText] returns chunks whose regions end by one rule. With
    [chunkEnd = startChar + maxLength]: the region ends at the end of
    the input when [chunkEnd] reaches it; else right after a sentence
    end (a line break, or white space after [.], [?] or [!]) inside the
    window [[startChar, chunkEnd)] whenever the window holds one; else
    right after the last space of [(startChar, chunkEnd]] whenever
    there is one; and only when the window holds neither is the text
    cut at [chunkEnd]. A word is cut in two only in that last case. *)
Theorem chunkText_split_rule (text : jsstring) (maxLength : Z) :
  1 <= maxLength ->
  exists chunks,
    chunkText text maxLength = Some chunks /\
    Forall (split_rule text maxLength) chunks.
Proof.
  intros Hmax.
  destruct (chunkText_cases text Hmax) as [(E & Hw) | (Hgt & r & E & HR)].
  - exists [whole text]. split; [exact E|]. constructor; [|constructor].
    left. cbn. split; [|reflexivity].
    destruct Hw as [-> | Hw]; [cbn; lia | lia].
  - exists r. split; [exact E|].
    apply (@Run_split_rule text maxLength Hmax 0 0%nat [] r HR); [lia | constructor].
Qed.

Lemma chunkText_split_rule_witness :
  1 <= 25 /\
  exists chunks,
    chunkText hello 25 = Some chunks /\ Forall (split_rule hello 25) chunks.
Proof. split; [lia | apply chunkText_split_rule; lia]. Defined.

Lemma ink_length_le (s : jsstring) : (length (ink s) <= length s)%nat.
Proof. apply filter_length_le. Qed.

Lemma concat_ink_upper (texts : list jsstring) (m : Z) :
  Forall (fun t => len t <= m) texts ->
  Z.of_nat (length (ink (concat texts))) <= Z.of_nat (length texts) * m.
Proof.
  induction 1 as [|t texts Ht Hts IH]; [cbn; lia|].
  cbn [concat]. rewrite ink_app, length_app. cbn [length].
  pose proof (ink_length_le t). unfold len in Ht. lia.
Qed.

Lemma concat_ink_lower (texts : list jsstring) :
  Forall (fun t => ink t <> []) texts ->
  (length texts <= length (ink (concat texts)))%nat.
Proof.
  induction 1 as [|t texts Ht Hts IH]; [cbn; lia|].
  cbn [concat]. rewrite ink_app, length_app. cbn [length].
  destruct (ink t); [congruence | cbn; lia].
Qed.

Lemma trimmed_inked (c : TextChunk) : trimmed c -> ink (Chunker.text c) <> [].
Proof.
  intros (Hne & Ht) E. apply Hne. rewrite <- Ht.
  now apply all_ws_trim, ink_nil_all_ws.
Qed.

(** X10. How many chunks. For every input and every [maxLength >= 1]
    the number [n] of chunks that [chunkText] returns is tied to the
    number [k] of units of the input that are not white space:
    [k <= n * maxLength], since no chunk holds more than [maxLength]
    units, and [n <= k + 1], since only the last chunk may be blank.
    The result is empty only for a blank input longer than
    [maxLength]. *)
Theorem chunkText_count (text : jsstring) (maxLength : Z) :
  1 <= maxLength ->
  exists chunks,
    chunkText text maxLength = Some chunks /\
    Z.of_nat (length (ink text)) <= Z.of_nat (length chunks) * maxLength /\
    (length chunks <= length (ink text) + 1)%nat /\
    (chunks = [] -> all_ws text /\ maxLength < len text).
Proof.
  intros Hmax.
  destruct (@chunkText_facts text maxLength Hmax) as (r & E & _ & Hc & Hl).
  exists r. split; [exact E|].
  pose proof (covers_ink Hc) as Hi.
  split; [|split].
  - rewrite <- Hi. rewrite <- (length_map Chunker.text r).
    apply concat_ink_upper. now apply Forall_map.
  - destruct (chunkText_cases text Hmax) as [(E' & _) | (_ & r' & E' & HR)];
      rewrite E in E'; injection E' as ->; [cbn; lia|].
    pose proof (@Run_trimmed text maxLength 0 0%nat [] r' HR (Forall_nil _)) as Ht.
    assert (Hlow : (length (removelast r')
                    <= length (ink (concat (map Chunker.text (removelast r')))))%nat).
    { rewrite <- (length_map Chunker.text (removelast r')).
      apply concat_ink_lower. apply Forall_map.
      eapply Forall_impl; [|exact Ht]. exact trimmed_inked. }
    destruct r' as [|c r'] using rev_ind; [cbn; lia|].
    rewrite removelast_last in Hlow.
    rewrite <- Hi, map_app, concat_app, ink_app, !length_app. cbn [length]. lia.
  - intros ->. cbn in Hi. split; [now apply ink_nil_all_ws|].
    destruct (chunkText_cases text Hmax) as [(E' & _) | (Hgt & _)];
      [rewrite E in E'; discriminate | exact Hgt].
Qed.

Lemma chunkText_count_witness :
  1 <= 25 /\
  exists chunks,
    chunkText hello 25 = Some chunks /\
    Z.of_nat (length (ink hello)) <= Z.of_nat (length chunks) * 25 /\
    (length chunks <= length (ink hello) + 1)%nat.
Proof.
  split; [lia|].
  destruct (@chunkText_count hello 25 ltac:(lia)) as (chunks & E & H1 & H2 & _).
  exists chunks. auto.
Defined.

End ChunkerExtras.

(* ================================================================== *)
(** * Decoding the hexadecimal audio *)

Section HexExtras.
Import Js Hex.
Local Open Scope Z_scope.

Lemma ToUint8_byte (n : option Z) : isByte (ToUint8 n).
Proof.
  unfold isByte, ToUint8. destruct n as [z|]; [|lia].
  apply Z.mod_pos_bound. lia.
Qed.

Lemma setByte_inside (pre post : list Z) (old v : Z) :
  setByte (pre ++ old :: post) (length pre) v = pre ++ v :: post.
Proof.
  unfold setByte. rewrite length_app. cbn [length].
  destruct (Nat.ltb_spec (length pre) (length pre + S (length post))); [|lia].
  rewrite firstn_app, Nat.sub_diag, firstn_all, app_nil_r. cbn [firstn]. f_equal.
  f_equal. replace (S (length pre)) with (length pre + 1)%nat by lia.
  rewrite skipn_app, skipn_all2 by lia.
  replace (length pre + 1 - length pre)%nat with 1%nat by lia. reflexivity.
Qed.

Lemma setByte_outside (bytes : list Z) (k : nat) (v : Z) :
  (length bytes <= k)%nat -> setByte bytes k v = bytes.
Proof.
  intros H. unfold setByte. destruct (Nat.ltb_spec k (length bytes)); [lia | reflexivity].
Qed.

(** The loop fills the array from left to right and returns. *)
Lemma hexLoop_spec (h : jsstring) (fuel : nat) :
  forall k,
    (k <= length h / 2)%nat -> (length h - 2 * k < fuel)%nat ->
    hexLoop fuel h (2 * k)
            (map (byteAt h) (seq 0 k) ++ repeat 0 (length h / 2 - k)%nat)
    = Some (map (byteAt h) (seq 0 (length h / 2))).
Proof.
  pose proof (Nat.div_mod_eq (length h) 2) as Hd.
  pose proof (Nat.mod_upper_bound (length h) 2 ltac:(lia)) as Hm.
  induction fuel as [|fuel IH]; intros k Hk Hf; [lia|].
  cbn [hexLoop]. destruct (Nat.ltb_spec (2 * k) (length h)) as [Hlt|Hge].
  - replace (2 * k / 2)%nat with k
      by (symmetry; rewrite Nat.mul_comm; apply Nat.div_mul; lia).
    fold (byteAt h k).
    destruct (Nat.eq_dec k (length h / 2)) as [E|E].
    + (* an odd length: the last unit is read and the write is ignored *)
      rewrite setByte_outside
        by (rewrite length_app, length_map, length_seq, repeat_length; lia).
      destruct fuel as [|fuel]; [lia|]. cbn [hexLoop].
      destruct (Nat.ltb_spec (2 * k + 2) (length h)); [lia|].
      rewrite E, Nat.sub_diag. cbn [repeat]. now rewrite app_nil_r.
    + replace (length h / 2 - k)%nat with (S (length h / 2 - S k)) by lia.
      cbn [repeat].
      pose proof (setByte_inside (map (byteAt h) (seq 0 k))
                                 (repeat 0 (length h / 2 - S k)%nat) 0 (byteAt h k)) as Hs.
      rewrite length_map, length_seq in Hs. rewrite Hs.
      replace (2 * k + 2)%nat with (2 * S k)%nat by lia.
      specialize (IH (S k) ltac:(lia) ltac:(lia)).
      rewrite seq_S, map_app in IH. cbn [map Nat.add] in IH.
      rewrite <- app_assoc in IH. exact IH.
  - replace k with (length h / 2)%nat by lia.
    rewrite Nat.sub_diag. cbn [repeat]. now rewrite app_nil_r.
Qed.

(** The decoded bytes in closed form. *)
Lemma decodeHex_eq (h : jsstring) :
  decodeHex h = Some (map (byteAt h) (seq 0 (length h / 2))).
Proof.
  unfold decodeHex.
  pose proof (@hexLoop_spec h (S (length h)) 0%nat ltac:(lia) ltac:(lia)) as H.
  cbn [seq map app Nat.mul] in H. rewrite Nat.sub_0_r in H. exact H.
Qed.

(** A byte depends on its two units only. *)
Lemma substring_app_inside (h t : jsstring) (a b : Z) :
  0 <= a <= b -> b <= len h -> substring (h ++ t) a b = substring h a b.
Proof.
  intros Hab Hb. rewrite !substring_eq; try assumption.
  - rewrite skipn_app, firstn_app, length_skipn.
    replace (Z.to_nat (b - a) - (length h - Z.to_nat a))%nat with 0%nat
      by (unfold len in Hb; lia).
    cbn [firstn]. now rewrite app_nil_r.
  - rewrite len_app. pose proof (len_nonneg t). lia.
Qed.

Lemma byteAt_app (h t : jsstring) (k : nat) :
  (2 * k + 2 <= length h)%nat -> byteAt (h ++ t) k = byteAt h k.
Proof.
  intros H. unfold byteAt. rewrite substring_app_inside; [reflexivity | lia|].
  unfold len. lia.
Qed.

(** X11. Decoding never fails and never reads across pairs. For every
    string, the decoding loop of [generateSingleAudioChunk] returns,
    within [length + 1] passes, an array of [floor(length / 2)] bytes,
    each in [0, 255]; the byte at index [k] is what [parseInt] reads in
    the units [2k] and [2k + 1] alone, [NaN] counting as [0]; and the
    last unit of a string of odd length is ignored: the write that it
    causes falls past the end of the array. *)
Theorem decodeHex_total (hexString : jsstring) :
  exists bytes,
    decodeHex hexString = Some bytes /\
    length bytes = (length hexString / 2)%nat /\
    Forall isByte bytes /\
    (forall k, (k < length hexString / 2)%nat ->
               nth_error bytes k = Some (byteAt hexString k)) /\
    (forall c, Nat.even (length hexString) = true ->
               decodeHex (hexString ++ [c]) = Some bytes).
Proof.
  exists (map (byteAt hexString) (seq 0 (length hexString / 2))).
  split; [apply decodeHex_eq|]. split; [now rewrite length_map, length_seq|].
  split; [|split].
  - apply Forall_map, Forall_forall. intros k _. apply ToUint8_byte.
  - intros k Hk. rewrite nth_error_map, nth_error_seq.
    destruct (Nat.ltb_spec k (length hexString / 2)); [reflexivity | lia].
  - intros c He. rewrite decodeHex_eq. f_equal.
    apply Nat.even_spec in He. destruct He as (n & Hn).
    rewrite length_app. cbn [length]. rewrite Hn.
    replace ((2 * n + 1) / 2)%nat with n
      by (apply Nat.div_unique with (r := 1%nat); lia).
    replace (2 * n / 2)%nat with n
      by (symmetry; rewrite Nat.mul_comm; apply Nat.div_mul; lia).
    apply map_ext_in. intros k Hk. apply in_seq in Hk.
    apply byteAt_app. lia.
Qed.

Lemma hexChar_cases (d : Z) :
  0 <= d < 16 ->
  d = 0 \/ d = 1 \/ d = 2 \/ d = 3 \/ d = 4 \/ d = 5 \/ d = 6 \/ d = 7 \/
  d = 8 \/ d = 9 \/ d = 10 \/ d = 11 \/ d = 12 \/ d = 13 \/ d = 14 \/ d = 15.
Proof. lia. Qed.

Ltac each_digit H :=
  apply hexChar_cases in H;
  repeat (destruct H as [H|H]; [subst|]); subst.

(** What holds of a digit that the provider writes. *)
Lemma hexChar_spec (upper : bool) (d : Z) :
  0 <= d < 16 ->
  hexValue (hexChar upper d) = Some d /\
  is_ws (hexChar upper d) = false /\
  (hexChar upper d =? 43)%N = false /\ (hexChar upper d =? 45)%N = false /\
  (hexChar upper d =? 120)%N = false /\ (hexChar upper d =? 88)%N = false.
Proof.
  intros H. each_digit H; destruct upper; cbv; auto 6.
Qed.

Lemma parseInt16_pair (upper : bool) (x y : Z) :
  0 <= x < 16 -> 0 <= y < 16 ->
  parseInt16 [hexChar upper x; hexChar upper y] = Some (16 * x + y).
Proof.
  intros Hx Hy.
  destruct (hexChar_spec upper Hx) as (Vx & Wx & Px & Mx & _).
  destruct (hexChar_spec upper Hy) as (Vy & _ & _ & _ & Ly & Uy).
  unfold parseInt16. cbn [trimStart]. rewrite Wx. cbv zeta.
  rewrite Px, Mx. cbn [orb]. rewrite Ly, Uy. cbn [orb]. rewrite andb_false_r.
  cbn [hexPrefix]. rewrite Vx, Vy. cbn [option_map]. f_equal. lia.
Qed.

Lemma encodeHex_length (upper : bool) (bytes : list Z) :
  length (encodeHex upper bytes) = (2 * length bytes)%nat.
Proof.
  unfold encodeHex. induction bytes as [|b bytes IH]; [reflexivity|].
  cbn [flat_map length app]. rewrite IH. lia.
Qed.

Lemma encodeHex_app (upper : bool) (a b : list Z) :
  encodeHex upper (a ++ b) = encodeHex upper a ++ encodeHex upper b.
Proof. apply flat_map_app. Qed.

Lemma byteAt_encodeHex (upper : bool) (pre post : list Z) (b : Z) :
  isByte b -> byteAt (encodeHex upper (pre ++ b :: post)) (length pre) = b.
Proof.
  intros Hb. unfold byteAt.
  rewrite encodeHex_app.
  change (encodeHex upper (b :: post))
    with ([hexChar upper (b / 16); hexChar upper (b mod 16)] ++ encodeHex upper post).
  rewrite substring_eq.
  - replace (Z.to_nat (Z.of_nat (2 * length pre) + 2 - Z.of_nat (2 * length pre)))
      with 2%nat by lia.
    rewrite Nat2Z.id, skipn_app, <- (encodeHex_length upper pre), skipn_all, Nat.sub_diag.
    cbn [skipn app firstn].
    unfold isByte in Hb.
    rewrite parseInt16_pair.
    + cbn [ToUint8]. rewrite <- Z.div_mod by lia. apply Z.mod_small. lia.
    + split; [apply Z.div_pos; lia | apply Z.div_lt_upper_bound; lia].
    + apply Z.mod_pos_bound. lia.
  - lia.
  - unfold len. rewrite length_app, encodeHex_length. cbn [length app]. lia.
Qed.

Lemma decode_encoded (upper : bool) (bytes : list Z) :
  Forall isByte bytes ->
  forall pre,
    map (byteAt (encodeHex upper (pre ++ bytes))) (seq (length pre) (length bytes))
    = bytes.
Proof.
  induction 1 as [|b bytes Hb Hbs IH]; intros pre; [reflexivity|].
  cbn [length seq map]. rewrite byteAt_encodeHex by exact Hb. f_equal.
  specialize (IH (pre ++ [b])). rewrite <- app_assoc, length_app in IH.
  cbn [app length] in IH. now rewrite Nat.add_1_r in IH.
Qed.

(** X12. Decoding undoes the encoding. A list of bytes written with two
    hexadecimal digits per byte, in upper or in lower case, is decoded
    to the same list of bytes. *)
Theorem decodeHex_encodeHex (upper : bool) (bytes : list Z) :
  Forall isByte bytes ->
  decodeHex (encodeHex upper bytes) = Some bytes.
Proof.
  intros H. rewrite decodeHex_eq, encodeHex_length.
  replace (2 * length bytes / 2)%nat with (length bytes)
    by (symmetry; rewrite Nat.mul_comm; apply Nat.div_mul; lia).
  f_equal. exact (decode_encoded upper H []).
Qed.

Lemma decodeHex_encodeHex_witness :
  Forall isByte [255; 0; 73; 68; 51] /\
  decodeHex (encodeHex true [255; 0; 73; 68; 51]) = Some [255; 0; 73; 68; 51].
Proof.
  assert (H : Forall isByte [255; 0; 73; 68; 51])
    by (repeat constructor; unfold isByte; lia).
  split; [exact H | exact (@decodeHex_encodeHex true _ H)].
Defined.

End HexExtras.

(* ================================================================== *)
(** * Serving the generated files *)

Section PathFacts.
Import TempAudio.
Local Open Scope string_scope.

Lemma splitSlash_plain (s : string) : hasChar "/" s = false -> splitSlash s = [s].
Proof.
  induction s as [|c r IH]; cbn [hasChar splitSlash]; [reflexivity|].
  intros H. apply orb_false_iff in H. destruct H as (Hc & Hr).
  rewrite Hc, (IH Hr). reflexivity.
Qed.

Lemma endsWithSlash_plain (s : string) : hasChar "/" s = false -> endsWithSlash s = false.
Proof.
  induction s as [|c r IH]; cbn [hasChar endsWithSlash]; [reflexivity|].
  intros H. apply orb_false_iff in H. destruct H as (Hc & Hr).
  destruct r; [exact Hc | now apply IH].
Qed.

Lemma plain_spec (name : string) :
  plain name = true ->
  hasChar "/" name = false /\ hasChar Ascii.zero name = false /\
  String.eqb name "" = false /\ String.eqb name "." = false /\
  String.eqb name ".." = false.
Proof.
  unfold plain. intros H.
  repeat (apply andb_true_iff in H; destruct H as (H & ?)).
  repeat split; now apply negb_true_iff.
Qed.

Lemma normalizeStep_plain (stack : list string) (name : string) :
  plain name = true -> normalizeStep stack name = (stack ++ [name])%list.
Proof.
  intros H. destruct (plain_spec _ H) as (_ & _ & H1 & H2 & H3).
  unfold normalizeStep. now rewrite H1, H2, H3.
Qed.

(** Joining plain names appends them. *)
Lemma join_plain (base : list string) (names : list string) :
  Forall (fun n => plain n = true) names ->
  join base names = {| segments := (base ++ names)%list; trailing := false; wellFormed := true |}.
Proof.
  intros H. unfold join.
  assert (Hf : filter (fun p => negb (String.eqb p "")) names = names).
  { induction H as [|n names Hn _ IH]; [reflexivity|]. cbn [filter].
    destruct (plain_spec _ Hn) as (_ & _ & -> & _). cbn. now rewrite IH. }
  rewrite Hf. clear Hf. f_equal.
  - revert base. induction H as [|n names Hn _ IH]; intros base; cbn [flat_map fold_left].
    + now rewrite app_nil_r.
    + destruct (plain_spec _ Hn) as (Hs & _).
      rewrite (splitSlash_plain _ Hs). cbn [app fold_left].
      rewrite normalizeStep_plain by exact Hn. rewrite IH, <- app_assoc. reflexivity.
  - destruct names as [|n names] using rev_ind; [reflexivity|].
    rewrite last_last. apply Forall_app in H. destruct H as (_ & Hn).
    inversion Hn as [|? ? Hp _]; subst.
    apply endsWithSlash_plain. now destruct (plain_spec _ Hp).
  - apply negb_true_iff.
    induction H as [|n names Hn _ IH]; [reflexivity|]. cbn [existsb].
    destruct (plain_spec _ Hn) as (_ & -> & _). exact IH.
Qed.

Lemma resolve_app (n : Node) (a b : list string) :
  resolve n (a ++ b)%list = match resolve n a with
                       | Some c => resolve c b
                       | None => None
                       end.
Proof.
  revert n. induction a as [|s a IH]; intros n; cbn [app resolve]; [reflexivity|].
  destruct n as [d|entries]; [reflexivity|].
  destruct (lookupEntry s entries); [apply IH | reflexivity].
Qed.

End PathFacts.

Section GetExtras.
Import TempAudio.
Local Open Scope string_scope.

Lemma lookupEntry_In (name : string) (n : Node) (entries : list (string * Node)) :
  NoDup (map fst entries) -> In (name, n) entries -> lookupEntry name entries = Some n.
Proof.
  induction entries as [|[x c] entries IH]; cbn [map fst lookupEntry]; intros Hnd Hin;
    [contradiction|].
  inversion Hnd as [|? ? Hx Hl]; subst. destruct Hin as [[= -> ->] | Hin].
  - now rewrite String.eqb_refl.
  - destruct (String.eqb_spec x name) as [E|E]; [|now apply IH].
    exfalso. apply Hx. subst. now apply (in_map fst) in Hin.
Qed.

Section PlainName.

Variable w : World.
Variable filename : string.
Variable entries : list (string * Node).
Hypothesis Hplain : plain filename = true.
Hypothesis Hdir : resolve (root w) (tempAudioDir w) = Some (Dir entries).
Hypothesis Hnames : Forall (fun e => plain (fst e) = true) entries.
Hypothesis Hdistinct : NoDup (map fst entries).

Lemma access_direct :
  join (tempAudioDir w) [filename]
  = {| segments := (tempAudioDir w ++ [filename])%list;
       trailing := false; wellFormed := true |} /\
  resolve (root w) (tempAudioDir w ++ [filename])%list = lookupEntry filename entries.
Proof.
  split; [apply join_plain; now constructor|].
  rewrite resolve_app, Hdir. cbn [resolve].
  now destruct (lookupEntry filename entries).
Qed.

Lemma searchSubdirs_spec (rest : list (string * Node)) :
  (forall e, In e rest -> In e entries) ->
  match firstHolding filename rest with
  | Some c => exists p, searchSubdirs w filename rest = Some p /\
                        resolve (root w) (segments p) = Some c /\
                        trailing p = false /\ wellFormed p = true
  | None => searchSubdirs w filename rest = None
  end.
Proof.
  induction rest as [|[name n] rest IH]; intros Hin; cbn [firstHolding searchSubdirs];
    [reflexivity|].
  specialize (IH (fun e He => Hin e (or_intror He))).
  destruct n as [d|es]; cbn [isDirectory]; [exact IH|].
  assert (He : In (name, Dir es) entries) by (apply Hin; now left).
  assert (Hn : plain name = true)
    by (rewrite Forall_forall in Hnames; exact (Hnames _ He)).
  rewrite (@join_plain (tempAudioDir w) [name; filename])
    by (constructor; [exact Hn | constructor; [exact Hplain | constructor]]).
  unfold access. cbn [wellFormed segments trailing andb].
  rewrite resolve_app, Hdir. cbn [resolve].
  rewrite (@lookupEntry_In name (Dir es) entries Hdistinct He).
  destruct (lookupEntry filename es) as [c|] eqn:E; [|exact IH].
  eexists. split; [reflexivity|]. cbn [segments trailing wellFormed].
  rewrite resolve_app, Hdir. cbn [resolve].
  rewrite (@lookupEntry_In name (Dir es) entries Hdistinct He), E.
  split; [|split]; reflexivity.
Qed.

End PlainName.

(** The answer for a plain name, case by case. *)
Lemma GET_served (w : World) (filename : string) (entries : list (string * Node)) :
  plain filename = true ->
  resolve (root w) (tempAudioDir w) = Some (Dir entries) ->
  Forall (fun e => plain (fst e) = true) entries ->
  NoDup (map fst entries) ->
  GET w filename =
  match servedEntry filename entries with
  | Some (File data) => Audio data (string_of_nat (length data))
  | Some (Dir _) => JsonError 500 "Internal server error"
  | None => JsonError 404 "File not found"
  end.
Proof.
  intros Hp Hd Hn Hnd. unfold GET, findAudioFile, servedEntry. cbv zeta.
  destruct (@access_direct w filename entries Hp Hd) as (-> & Hr).
  unfold access at 1. cbn [wellFormed segments trailing andb]. rewrite Hr.
  destruct (lookupEntry filename entries) as [c|] eqn:E.
  - unfold readFile. cbn [wellFormed segments trailing andb negb]. rewrite Hr.
    now destruct c.
  - rewrite Hd.
    pose proof (@searchSubdirs_spec w filename entries Hp Hd Hn Hnd entries
                                    (fun e He => He)) as H.
    destruct (firstHolding filename entries) as [c|].
    + destruct H as (p & -> & Hc & Ht & Hw). unfold readFile.
      rewrite Hw, Ht, Hc. cbn [andb negb]. now destruct c.
    + now rewrite H.
Qed.

(** X13. What a plain name is served from. For a file name of one
    path segment, with [temp-audio-processing] a directory whose
    entries have distinct plain names, [GET] serves the file of that
    name in the directory itself if there is an entry of that name,
    else the entry of that name in the first subdirectory, in [readdir]
    order, that has one, whichever request wrote it; the answer is 200
    with the bytes of the file and their count, 500 when the entry is a
    directory, and 404 when there is no such entry. *)
Theorem GET_plain_name (w : World) (filename : string) (entries : list (string * Node)) :
  plain filename = true ->
  resolve (root w) (tempAudioDir w) = Some (Dir entries) ->
  Forall (fun e => plain (fst e) = true) entries ->
  NoDup (map fst entries) ->
  GET w filename =
  match servedEntry filename entries with
  | Some (File data) => Audio data (string_of_nat (length data))
  | Some (Dir _) => JsonError 500 "Internal server error"
  | None => JsonError 404 "File not found"
  end.
Proof. apply GET_served. Qed.

Lemma GET_plain_name_witness :
  plain sample_name = true /\
  GET sample_world sample_name = Audio [73; 68; 51]%Z "3".
Proof.
  split; [reflexivity|].
  refine (@GET_plain_name sample_world sample_name sample_entries
                          eq_refl eq_refl _ _).
  - repeat constructor.
  - repeat constructor. intros [].
Defined.

(** ** Names that are paths *)

Lemma splitSlash_app_slash (a b : string) :
  hasChar "/" a = false -> splitSlash (a ++ String "/" b) = a :: splitSlash b.
Proof.
  induction a as [|c a IH]; cbn [hasChar append splitSlash]; [reflexivity|].
  intros H. apply orb_false_iff in H. destruct H as (Hc & Ha).
  rewrite Hc, (IH Ha). reflexivity.
Qed.

Lemma splitSlash_ups (k : nat) (t : string) :
  splitSlash (ups k ++ t) = (repeat ".." k ++ splitSlash t)%list.
Proof.
  induction k as [|k IH]; [reflexivity|].
  change (ups (S k) ++ t) with (".." ++ String "/" (ups k ++ t)).
  rewrite splitSlash_app_slash by reflexivity. now rewrite IH.
Qed.

Lemma splitSlash_concat (segs : list string) :
  Forall (fun s => plain s = true) segs -> segs <> [] ->
  splitSlash (String.concat "/" segs) = segs.
Proof.
  induction 1 as [|s segs Hs Hsegs IH]; intros Hne; [congruence|].
  destruct (plain_spec _ Hs) as (Hslash & _).
  destruct segs as [|s' segs]; [now apply splitSlash_plain|].
  change (String.concat "/" (s :: s' :: segs))
    with (s ++ String "/" (String.concat "/" (s' :: segs))).
  rewrite splitSlash_app_slash by exact Hslash. now rewrite IH.
Qed.

Lemma fold_ups (k : nat) (base : list string) :
  fold_left normalizeStep (repeat ".." k) base = climb k base.
Proof.
  unfold climb. revert base. induction k as [|k IH]; intros base; [reflexivity|].
  cbn [repeat fold_left]. rewrite IH. change (normalizeStep base "..") with (removelast base).
  symmetry. apply Nat.iter_succ_r.
Qed.

Lemma fold_plain (segs base : list string) :
  Forall (fun s => plain s = true) segs ->
  fold_left normalizeStep segs base = (base ++ segs)%list.
Proof.
  intros H. revert base. induction H as [|s segs Hs _ IH]; intros base; cbn [fold_left].
  - now rewrite app_nil_r.
  - rewrite normalizeStep_plain by exact Hs. rewrite IH, <- app_assoc. reflexivity.
Qed.

Lemma hasChar_app (c : ascii) (a b : string) :
  hasChar c (a ++ b) = hasChar c a || hasChar c b.
Proof.
  induction a as [|x a IH]; cbn [append hasChar]; [reflexivity|].
  now rewrite IH, orb_assoc.
Qed.

Lemma endsWithSlash_app (a b : string) :
  b <> "" -> endsWithSlash (a ++ b) = endsWithSlash b.
Proof.
  intros Hb. induction a as [|x a IH]; cbn [append]; [reflexivity|].
  cbn [endsWithSlash]. destruct (a ++ b) eqn:E; [|exact IH].
  destruct a; [cbn in E; congruence | discriminate].
Qed.

Lemma concat_facts (segs : list string) :
  Forall (fun s => plain s = true) segs -> segs <> [] ->
  String.concat "/" segs <> "" /\
  endsWithSlash (String.concat "/" segs) = false /\
  hasChar Ascii.zero (String.concat "/" segs) = false.
Proof.
  induction 1 as [|s segs Hs Hsegs IH]; intros Hne; [congruence|].
  destruct (plain_spec _ Hs) as (Hslash & Hz & He & _).
  destruct segs as [|s' segs].
  - cbn [String.concat]. split; [|split].
    + intros ->. discriminate.
    + now apply endsWithSlash_plain.
    + exact Hz.
  - destruct (IH ltac:(discriminate)) as (H1 & H2 & H3).
    change (String.concat "/" (s :: s' :: segs))
      with (s ++ String "/" (String.concat "/" (s' :: segs))).
    split; [|split].
    + destruct s; discriminate.
    + rewrite endsWithSlash_app by discriminate. cbn [endsWithSlash].
      destruct (String.concat "/" (s' :: segs)); [congruence | exact H2].
    + rewrite hasChar_app. cbn [hasChar]. now rewrite Hz, H3.
Qed.

Lemma ups_facts (k : nat) : hasChar Ascii.zero (ups k) = false.
Proof. induction k as [|k IH]; [reflexivity | exact IH]. Qed.

(** X14. The file name is read as a path. [GET] passes the name to
    [path.join], which resolves [/] and [..]: for every [k] and every
    path of plain segments, the name made of [k] times [../] and that
    path is served from the file found under that path [k] levels
    above [temp-audio-processing]. With [k = 0] this reaches any depth
    below the directory; with [k >= 1] it leaves it, so the lookup is
    not confined to the generated audio. *)
Theorem GET_follows_relative_path (w : World) (k : nat) (segs : list string)
        (data : Bytes) :
  Forall (fun s => plain s = true) segs -> segs <> [] ->
  resolve (root w) (climb k (tempAudioDir w) ++ segs)%list = Some (File data) ->
  GET w (ups k ++ String.concat "/" segs) = Audio data (string_of_nat (length data)).
Proof.
  intros Hs Hne Hr.
  destruct (concat_facts Hs Hne) as (Hc & Ht & Hz).
  set (filename := ups k ++ String.concat "/" segs).
  assert (Hf : String.eqb filename "" = false).
  { apply String.eqb_neq. unfold filename. intros E.
    destruct (ups k); [cbn in E; congruence | discriminate]. }
  assert (Hj : join (tempAudioDir w) [filename]
               = {| segments := (climb k (tempAudioDir w) ++ segs)%list;
                    trailing := false; wellFormed := true |}).
  { unfold join. cbn [filter]. rewrite Hf. cbn [negb flat_map last existsb].
    rewrite app_nil_r. f_equal.
    - unfold filename. rewrite splitSlash_ups, splitSlash_concat by assumption.
      rewrite fold_left_app, fold_ups. now apply fold_plain.
    - unfold filename. rewrite endsWithSlash_app by exact Hc. exact Ht.
    - unfold filename. rewrite hasChar_app, ups_facts, Hz. reflexivity. }
  unfold GET, findAudioFile. cbv zeta. rewrite Hj.
  unfold access, readFile. cbn [wellFormed segments trailing andb negb].
  rewrite Hr. cbn [wellFormed segments trailing andb negb]. now rewrite Hr.
Qed.

Lemma GET_follows_relative_path_witness :
  Forall (fun s => plain s = true) [".env"] /\
  GET sample_world "../.env" = Audio [75; 69; 89]%Z "3".
Proof.
  assert (H : Forall (fun s => plain s = true) [".env"]) by (repeat constructor).
  split; [exact H|].
  refine (@GET_follows_relative_path sample_world 1 [".env"] [75; 69; 89]%Z H _ eq_refl).
  discriminate.
Defined.

End GetExtras.

(* ================================================================== *)
(** * The single-chunk route and the files it leaves *)

Section EntryFacts.
Import TempAudio Single.
Local Open Scope string_scope.

Lemma lookup_set_same (s : string) (c : Node) (es : list (string * Node)) :
  lookupEntry s (setEntry s c es) = Some c.
Proof.
  induction es as [|[n x] es IH]; cbn [setEntry lookupEntry].
  - now rewrite String.eqb_refl.
  - destruct (String.eqb n s) eqn:E; cbn [lookupEntry]; rewrite E; [reflexivity | exact IH].
Qed.

Lemma lookup_set_other (s t : string) (c : Node) (es : list (string * Node)) :
  s <> t -> lookupEntry t (setEntry s c es) = lookupEntry t es.
Proof.
  intros Hst. induction es as [|[n x] es IH]; cbn [setEntry lookupEntry].
  - now rewrite (proj2 (String.eqb_neq s t) Hst).
  - destruct (String.eqb_spec n s) as [->|E]; cbn [lookupEntry].
    + now rewrite (proj2 (String.eqb_neq s t) Hst).
    + now rewrite IH.
Qed.

Lemma setEntry_new (s : string) (c : Node) (es : list (string * Node)) :
  lookupEntry s es = None -> setEntry s c es = (es ++ [(s, c)])%list.
Proof.
  induction es as [|[n x] es IH]; cbn [setEntry lookupEntry app]; [reflexivity|].
  destruct (String.eqb n s); [discriminate|]. intros H. now rewrite IH.
Qed.

Lemma setEntry_names (s : string) (c : Node) (es : list (string * Node)) :
  map fst (setEntry s c es)
  = match lookupEntry s es with
    | Some _ => map fst es
    | None => (map fst es ++ [s])%list
    end.
Proof.
  induction es as [|[n x] es IH]; cbn [setEntry lookupEntry map fst app]; [reflexivity|].
  destruct (String.eqb n s); [reflexivity|]. cbn [map fst]. rewrite IH.
  now destruct (lookupEntry s es).
Qed.

Lemma lookup_None_names (s : string) (es : list (string * Node)) :
  lookupEntry s es = None <-> ~ In s (map fst es).
Proof.
  induction es as [|[n x] es IH]; cbn [lookupEntry map fst In]; [tauto|].
  destruct (String.eqb_spec n s) as [->|E].
  - split; [discriminate | intros H; exfalso; apply H; now left].
  - rewrite IH. tauto.
Qed.

(** Setting an entry keeps the names plain and distinct. *)
Lemma setEntry_tidy (s : string) (c : Node) (es : list (string * Node)) :
  plain s = true ->
  Forall (fun e => plain (fst e) = true) es -> NoDup (map fst es) ->
  Forall (fun e => plain (fst e) = true) (setEntry s c es) /\
  NoDup (map fst (setEntry s c es)).
Proof.
  intros Hs Hp Hn. split.
  - clear Hn. induction Hp as [|[n x] es Hx Hes IH]; cbn [setEntry].
    + repeat constructor. exact Hs.
    + destruct (String.eqb n s); constructor; auto.
  - rewrite setEntry_names. destruct (lookupEntry s es) eqn:E; [exact Hn|].
    apply lookup_None_names in E.
    apply NoDup_app; [exact Hn | repeat constructor; intros [] | ].
    intros x Hx [<-|[]]. contradiction.
Qed.

(** With no holder of [f] before, the holder after an entry is set is
    that entry. *)
Lemma firstHolding_setEntry (f d : string) (es' : list (string * Node))
      (E : list (string * Node)) :
  firstHolding f E = None ->
  firstHolding f (setEntry d (Dir es') E) = lookupEntry f es'.
Proof.
  induction E as [|[n x] E IH]; cbn [firstHolding setEntry].
  - intros _. now destruct (lookupEntry f es').
  - intros H. destruct (String.eqb n d).
    + cbn [firstHolding].
      destruct x as [data|es]; [now destruct (lookupEntry f es')|].
      destruct (lookupEntry f es); [discriminate|].
      now destruct (lookupEntry f es').
    + cbn [firstHolding]. destruct x as [data|es]; [now apply IH|].
      destruct (lookupEntry f es); [discriminate | now apply IH].
Qed.

End EntryFacts.

Section StoreFacts.
Import TempAudio Single.
Local Open Scope string_scope.

Lemma setEntry_twice (s : string) (x y : Node) (es : list (string * Node)) :
  setEntry s x (setEntry s y es) = setEntry s x es.
Proof.
  induction es as [|[n c] es IH]; cbn [setEntry].
  - now rewrite String.eqb_refl.
  - destruct (String.eqb n s) eqn:E; cbn [setEntry]; rewrite E; [reflexivity|].
    now rewrite IH.
Qed.

Lemma alter_app (g : list (string * Node) -> option (list (string * Node)))
      (a b : list string) :
  forall n n' c,
    alter g n (a ++ b) = Some n' -> resolve n a = Some c ->
    exists c', alter g c b = Some c' /\ resolve n' a = Some c'.
Proof.
  induction a as [|s a IH]; intros n n' c Ha Hr.
  - cbn in Hr. injection Hr as <-. exists n'. split; [exact Ha | reflexivity].
  - destruct n as [data|es]; [discriminate|].
    cbn [app alter] in Ha. cbn [resolve] in Hr.
    destruct (lookupEntry s es) as [x|]; [|discriminate].
    destruct (alter g x (a ++ b)) as [x'|] eqn:Hx; [|discriminate].
    cbn [option_map] in Ha. injection Ha as <-.
    destruct (IH _ _ _ Hx Hr) as (c' & Hc & Hr').
    exists c'. split; [exact Hc|]. cbn [resolve]. now rewrite lookup_set_same.
Qed.

Lemma alter_total (g : list (string * Node) -> option (list (string * Node)))
      (a : list string) :
  forall n es es',
    resolve n a = Some (Dir es) -> g es = Some es' -> exists n', alter g n a = Some n'.
Proof.
  induction a as [|s a IH]; intros n es es' Hr Hg.
  - cbn in Hr. injection Hr as ->. cbn [alter]. rewrite Hg. eexists. reflexivity.
  - destruct n as [data|entries]; [discriminate|]. cbn [resolve] in Hr. cbn [alter].
    destruct (lookupEntry s entries) as [x|]; [|discriminate].
    destruct (IH _ _ _ Hr Hg) as (x' & ->). eexists. reflexivity.
Qed.

Lemma mkdir_app (a b : list string) :
  forall n n' c,
    mkdir n (a ++ b) = Made n' -> resolve n a = Some c ->
    exists c', mkdir c b = Made c' /\ resolve n' a = Some c'.
Proof.
  induction a as [|s a IH]; intros n n' c Ha Hr.
  - cbn in Hr. injection Hr as <-. exists n'. split; [exact Ha | reflexivity].
  - destruct n as [data|es]; [discriminate|].
    cbn [app mkdir] in Ha. cbn [resolve] in Hr.
    destruct (lookupEntry s es) as [x|]; [|discriminate].
    destruct (mkdir x (a ++ b)) as [x'| |] eqn:Hx; try discriminate.
    injection Ha as <-.
    destruct (IH _ _ _ Hx Hr) as (c' & Hc & Hr').
    exists c'. split; [exact Hc|]. cbn [resolve]. now rewrite lookup_set_same.
Qed.

(** [EEXIST]: the path is a file. *)
Lemma mkdir_EEXIST (segs : list string) :
  forall n, mkdir n segs = EEXIST -> exists data, resolve n segs = Some (File data).
Proof.
  induction segs as [|s segs IH]; intros n H.
  - destruct n as [data|es]; [exists data; reflexivity | discriminate].
  - destruct n as [data|es]; [discriminate|]. cbn [mkdir] in H. cbn [resolve].
    destruct (lookupEntry s es) as [x|]; [|discriminate].
    destruct (mkdir x segs) as [x'| |] eqn:Hx; try discriminate.
    now apply IH.
Qed.

(** What [mkdir] makes of the working directory. *)
Lemma mkdir_temp (here : list (string * Node)) (d : string) (c' : Node) :
  match lookupEntry "temp-audio-processing" here with
  | Some (File _) => False
  | _ => True
  end ->
  mkdir (Dir here) ["temp-audio-processing"; d] = Made c' ->
  c' = Dir (setEntry "temp-audio-processing"
                     (Dir (setEntry d (Dir (dirBefore d (entriesBefore here)))
                                    (entriesBefore here)))
                     here).
Proof.
  unfold entriesBefore, dirBefore. cbn [mkdir].
  destruct (lookupEntry "temp-audio-processing" here) as [[data|E]|] eqn:Ht;
    intros Hok H; [contradiction | |].
  - destruct (lookupEntry d E) as [[data|x]|] eqn:Hd; cbn [mkdir newDirs] in H.
    + discriminate.
    + now injection H as <-.
    + injection H as <-. now rewrite (@setEntry_new d (Dir []) E Hd).
  - injection H as <-. cbn [lookupEntry newDirs setEntry].
    now rewrite (@setEntry_new "temp-audio-processing" (Dir [(d, Dir [])]) here Ht).
Qed.

End StoreFacts.

Section StoreAndServe.
Import TempAudio Single.
Local Open Scope string_scope.

Variable w : World.
Variables d f : string.
Variable audio : Bytes.
Variable refused : Path -> option string.
Hypothesis Hd : plain d = true.
Hypothesis Hf : plain f = true.
Hypothesis Hdf : d <> f.

(** A file written into the directory of a request is the one served
    under its name, if nothing was served under that name before. *)
Lemma store_then_serve (root1 root2 : Node) :
  tidy w ->
  ensureDir (root w) (join (tempAudioDir w) [d]) = Returned root1 ->
  writeFile refused root1 (join (segments (join (tempAudioDir w) [d])) [f]) audio
  = Returned root2 ->
  GET w f = TempAudio.JsonError 404 "File not found" ->
  GET (withRoot w root2) f = Audio audio (string_of_nat (length audio)) /\
  tidy (withRoot w root2).
Proof.
  intros (here & Hcwd & Htemp) He Hw Hg.
  rewrite (@join_plain (tempAudioDir w) [d]) in He, Hw by (repeat constructor; exact Hd).
  cbn [segments] in Hw.
  rewrite (@join_plain (tempAudioDir w ++ [d]) [f]) in Hw by (repeat constructor; exact Hf).
  set (E0 := entriesBefore here) in *.
  set (ed := dirBefore d E0) in *.
  assert (HE0 : Forall (fun e => plain (fst e) = true) E0 /\ NoDup (map fst E0)).
  { unfold E0, entriesBefore.
    destruct (lookupEntry "temp-audio-processing" here) as [[data|E]|];
      [contradiction | exact Htemp | split; constructor]. }
  assert (Hbefore : lookupEntry f E0 = None /\ firstHolding f E0 = None).
  { unfold E0, entriesBefore.
    destruct (lookupEntry "temp-audio-processing" here) as [[data|E]|] eqn:Ht;
      [contradiction | | split; reflexivity].
    assert (Hr : resolve (root w) (tempAudioDir w) = Some (Dir E)).
    { unfold tempAudioDir. rewrite resolve_app, Hcwd. cbn [resolve]. now rewrite Ht. }
    rewrite (@GET_served w f E Hf Hr (proj1 Htemp) (proj2 Htemp)) in Hg.
    unfold servedEntry in Hg.
    destruct (lookupEntry f E) as [[?|?]|]; try discriminate.
    destruct (firstHolding f E) as [[?|?]|]; try discriminate. auto. }
  destruct Hbefore as (Hl0 & Hf0).
  (* the directory of the request after [ensureDir] *)
  unfold ensureDir in He. cbn [wellFormed segments] in He.
  destruct (mkdir (root w) (tempAudioDir w ++ [d])) as [r1| |] eqn:Hm;
    [injection He as -> | injection He as <- | discriminate].
  2: { destruct (mkdir_EEXIST _ _ Hm) as (data & Hr).
       unfold writeFile in Hw. cbv zeta in Hw.
       cbn [wellFormed segments trailing] in Hw.
       destruct ((tempAudioDir w ++ [d]) ++ [f])%list eqn:Es;
         [now destruct (tempAudioDir w ++ [d])%list|].
       rewrite <- Es, removelast_last, Hr in Hw. discriminate. }
  unfold tempAudioDir in Hm. rewrite <- app_assoc in Hm. cbn [app] in Hm.
  destruct (mkdir_app _ _ _ Hm Hcwd) as (c' & Hc' & Hcwd1).
  apply mkdir_temp in Hc';
    [|now destruct (lookupEntry "temp-audio-processing" here) as [[?|?]|]].
  fold E0 in Hc'. fold ed in Hc'. subst c'.
  assert (Hr1 : resolve root1 (tempAudioDir w ++ [d]) = Some (Dir ed)).
  { unfold tempAudioDir. rewrite <- app_assoc. cbn [app].
    rewrite resolve_app, Hcwd1. cbn [resolve].
    rewrite lookup_set_same, lookup_set_same. reflexivity. }
  (* the write *)
  set (g := fun es : list (string * Node) => Some (setEntry f (File audio) es)).
  destruct (@alter_total g (tempAudioDir w ++ [d]) root1 ed (setEntry f (File audio) ed)
                         Hr1 eq_refl) as (n' & Hn').
  assert (Hroot2 : root2 = n').
  { unfold writeFile in Hw. cbv zeta in Hw.
    cbn [wellFormed segments trailing] in Hw.
    destruct ((tempAudioDir w ++ [d]) ++ [f])%list eqn:Es;
      [now destruct (tempAudioDir w ++ [d])%list|].
    rewrite <- Es, removelast_last, last_last, Hr1 in Hw. fold g in Hw.
    rewrite Hn' in Hw.
    destruct (refused _); destruct (lookupEntry f ed) as [[?|?]|];
      try discriminate; now injection Hw as <-. }
  subst n'.
  unfold tempAudioDir in Hn'. rewrite <- app_assoc in Hn'. cbn [app] in Hn'.
  destruct (alter_app _ _ _ _ Hn' Hcwd1) as (c2 & Hc2 & Hcwd2).
  cbn [alter] in Hc2. rewrite lookup_set_same in Hc2. cbn [alter] in Hc2.
  rewrite lookup_set_same in Hc2. cbn [option_map] in Hc2. unfold g in Hc2.
  cbn [option_map] in Hc2. rewrite !setEntry_twice in Hc2. injection Hc2 as <-.
  set (E2 := setEntry d (Dir (setEntry f (File audio) ed)) E0) in *.
  assert (HE2 : Forall (fun e => plain (fst e) = true) E2 /\ NoDup (map fst E2))
    by (apply setEntry_tidy; [exact Hd | apply HE0 | apply HE0]).
  assert (Hr2 : resolve root2 (tempAudioDir w) = Some (Dir E2)).
  { unfold tempAudioDir. rewrite resolve_app, Hcwd2. cbn [resolve].
    now rewrite lookup_set_same. }
  split.
  - rewrite (@GET_served (withRoot w root2) f E2 Hf Hr2 (proj1 HE2) (proj2 HE2)).
    unfold servedEntry, E2. rewrite lookup_set_other by exact Hdf. rewrite Hl0.
    rewrite firstHolding_setEntry by exact Hf0. now rewrite lookup_set_same.
  - exists (setEntry "temp-audio-processing" (Dir E2) here).
    split; [exact Hcwd2|]. rewrite lookup_set_same. exact HE2.
Qed.

End StoreAndServe.

Section SingleExtras.
Import Js TempAudio Single.
Local Open Scope string_scope.

Lemma hasChar_uint (c : ascii) (u : Decimal.uint) :
  digitValue c = None -> hasChar c (NilEmpty.string_of_uint u) = false.
Proof.
  intros Hc. induction u; cbn [NilEmpty.string_of_uint hasChar]; [reflexivity| ..];
    rewrite IHu, orb_false_r; apply Ascii.eqb_neq; intros <-; discriminate Hc.
Qed.

Lemma hasChar_sanitize (c : ascii) (voice : string) :
  isAlnum c = false -> c <> "_"%char -> hasChar c (sanitize voice) = false.
Proof.
  intros Hc Hu. induction voice as [|x voice IH]; cbn [sanitize hasChar]; [reflexivity|].
  rewrite IH, orb_false_r. apply Ascii.eqb_neq.
  destruct (isAlnum x) eqn:Hx; [intros -> | intros E]; congruence.
Qed.

Ltac other_char Ha :=
  cbn [hasChar]; rewrite ?orb_false_r;
  repeat (apply orb_false_iff; split);
  apply Ascii.eqb_neq; intros E; subst; (discriminate Ha || congruence).

(** A voice that gets through [replace] is cleaned of everything but
    letters and digits. *)
Lemma hasChar_voice (c : ascii) (voice : option JsonValue) (cleaned : option string) :
  cleanVoice voice = Returned cleaned ->
  isAlnum c = false -> c <> "_"%char ->
  hasChar c (or_else cleaned "unknown") = false.
Proof.
  intros Hv Hc Hu.
  assert (Hs : cleaned = None \/ exists v, cleaned = Some (sanitize v)).
  { destruct voice as [[| | |v| |]|]; cbn in Hv; try discriminate;
      injection Hv as <-; eauto. }
  destruct Hs as [-> | (v & ->)]; cbn [or_else].
  - other_char Hc.
  - pose proof (hasChar_sanitize v Hc Hu) as H.
    destruct (sanitize v); [|exact H]. other_char Hc.
Qed.

(** The text of a number has digits and a sign only. *)
Lemma hasChar_number (c : ascii) (n : Z) :
  digitValue c = None -> c <> "-"%char -> hasChar c (toString (JNumber n)) = false.
Proof.
  intros Hc Hm. cbn [toString]. unfold string_of_Z, string_of_nat.
  destruct n; rewrite ?hasChar_app, ?hasChar_uint by exact Hc; try reflexivity.
  rewrite orb_false_r. cbn [hasChar]. rewrite orb_false_r.
  apply Ascii.eqb_neq. congruence.
Qed.

Lemma toString_nat (n : nat) : toString (JNumber (Z.of_nat n)) = string_of_nat n.
Proof.
  cbn [toString]. unfold string_of_Z.
  destruct (Z.of_nat n) eqn:E; try (rewrite <- E, Nat2Z.id; reflexivity). lia.
Qed.

(** Of the units that a provider of the table, a cleaned voice and the
    clock cannot bring in, the name of a generated file holds those of
    the chunk index. *)
Lemma tempFileName_units (p : string) (voice : option JsonValue)
      (cleaned : option string) (idx : string) (now : nat) (c : ascii) :
  knownProvider p -> cleanVoice voice = Returned cleaned ->
  isAlnum c = false -> digitValue c = None -> c <> "_"%char ->
  c <> "-"%char -> c <> "."%char ->
  hasChar c (tempFileName p cleaned idx now) = hasChar c idx.
Proof.
  intros K Hv Ha Hdg Hu Hm Hdot. unfold tempFileName, string_of_nat.
  rewrite !hasChar_app, (@hasChar_voice c voice cleaned Hv Ha Hu), !hasChar_uint
    by assumption.
  assert (Hp : hasChar c p = false)
    by (destruct K as [-> | ->]; other_char Ha).
  rewrite Hp. cbn [orb].
  assert (H1 : hasChar c "-" = false) by other_char Ha.
  assert (H2 : hasChar c "-chunk" = false) by other_char Ha.
  assert (H3 : hasChar c ".mp3" = false) by other_char Ha.
  rewrite H1, H2, H3. cbn [orb]. now rewrite !orb_false_r.
Qed.

Lemma tempFileName_start (p : string) (cleaned : option string) (idx : string)
      (now : nat) :
  knownProvider p ->
  exists rest, tempFileName p cleaned idx now = String "m" rest \/
               tempFileName p cleaned idx now = String "e" rest.
Proof.
  intros [-> | ->]; unfold tempFileName; eexists; [left | right]; reflexivity.
Qed.

(** The name of a generated file is one path segment when the text of
    the chunk index brings in no slash and no NUL. *)
Lemma tempFileName_plain (p : string) (voice : option JsonValue)
      (cleaned : option string) (idx : string) (now : nat) :
  knownProvider p -> cleanVoice voice = Returned cleaned ->
  hasChar "/" idx = false -> hasChar Ascii.zero idx = false ->
  plain (tempFileName p cleaned idx now) = true.
Proof.
  intros K Hv Hs Hz. unfold plain.
  rewrite (@tempFileName_units p voice cleaned idx now "/"%char K Hv),
          (@tempFileName_units p voice cleaned idx now Ascii.zero K Hv), Hs, Hz
    by (reflexivity || discriminate).
  destruct (tempFileName_start cleaned idx now K) as (rest & [-> | ->]); reflexivity.
Qed.

(** A path that [fs] accepts has no NUL in its last part. *)
Lemma wellFormed_name (base : list string) (p : string) (voice : option JsonValue)
      (cleaned : option string) (idx : string) (now : nat) :
  knownProvider p -> cleanVoice voice = Returned cleaned ->
  wellFormed (join base [tempFileName p cleaned idx now]) = true ->
  hasChar Ascii.zero idx = false.
Proof.
  intros K Hv Hw.
  rewrite <- (@tempFileName_units p voice cleaned idx now Ascii.zero K Hv)
    by (reflexivity || discriminate).
  unfold join in Hw. cbn [wellFormed filter] in Hw.
  destruct (tempFileName_start cleaned idx now K) as (rest & [E | E]);
    rewrite E in Hw |- *; cbn [String.eqb Ascii.eqb Bool.eqb negb existsb] in Hw;
    rewrite orb_false_r in Hw; now apply negb_true_iff in Hw.
Qed.

Lemma writeFile_wellFormed (refused : Path -> option string) (root1 root2 : Node)
      (p : Path) (data : Bytes) :
  writeFile refused root1 p data = Returned root2 -> wellFormed p = true.
Proof. unfold writeFile. destruct (wellFormed p); [reflexivity | discriminate]. Qed.

Lemma validate_None (request : Request) (p : string) :
  validate request p = None -> knownProvider p.
Proof.
  unfold validate, knownProvider.
  destruct (String.eqb_spec p "minimax"); [auto|].
  destruct (String.eqb_spec p "elevenlabs"); [auto | discriminate].
Qed.

Lemma requestDir_differs (request : Request) (env : Env) (p : string)
      (cleaned : option string) (idx : string) (now : nat) :
  knownProvider p -> requestDirName request env <> tempFileName p cleaned idx now.
Proof. intros [-> | ->]; discriminate. Qed.

(** A successful answer, taken apart. *)
Lemma POST_success (request : Request) (env : Env) (body : Success) (root' : Node) :
  POST request env = (Json body, root') ->
  exists text_ provider_ cleaned root1 audio,
    text request = Some text_ /\ provider request = Some provider_ /\
    knownProvider provider_ /\
    cleanVoice (voice request) = Returned cleaned /\
    let name := tempFileName provider_ cleaned (indexText request) (nowFile env) in
    ensureDir (root (files env)) (tempDirForRequest request env) = Returned root1 /\
    audioBuffer env text_ provider_ request (indexOf request) = Returned audio /\
    writeFile (writeRefused env) root1
              (join (segments (tempDirForRequest request env)) [name]) audio
    = Returned root' /\
    body = {| audioUrl := "/api/temp-audio/"
                          ++ basename (join (segments (tempDirForRequest request env))
                                            [name]);
              duration := estimate (length text_);
              s_provider := provider_;
              s_voice := voice request;
              s_chunkIndex := indexOf request;
              filename := basename (join (segments (tempDirForRequest request env))
                                         [name]) |}.
Proof.
  unfold POST. cbv zeta.
  destruct (loggable request); [|discriminate]. cbn [negb].
  destruct (text request) as [text_|]; [|discriminate].
  destruct (provider request) as [provider_|]; [|discriminate].
  destruct ((length text_ =? 0)%nat || (String.length provider_ =? 0)%nat);
    [discriminate|].
  destruct (validate request provider_) eqn:V; [discriminate|].
  apply validate_None in V.
  destruct (ensureDir (root (files env)) (tempDirForRequest request env))
    as [root1|] eqn:He; [|discriminate].
  unfold generateSingleAudioChunk. cbv zeta.
  fold (indexOf request). fold (indexText request).
  destruct (cleanVoice (voice request)) as [cleaned|] eqn:Hv; [|discriminate].
  destruct (audioBuffer env text_ provider_ request (indexOf request))
    as [audio|] eqn:Ha; [|discriminate].
  destruct (writeFile (writeRefused env) root1 _ audio) as [root2|] eqn:Hw;
    [|discriminate].
  intros [= <- <-]. exists text_, provider_, cleaned, root1, audio.
  repeat split; auto.
Qed.

(** A number, or no chunk index at all, brings no slash into the name
    of the file. *)
Lemma indexText_number (request : Request) :
  chunkIndex request = None \/ (exists n, chunkIndex request = Some (JNumber n)) ->
  hasChar "/" (indexText request) = false.
Proof.
  unfold indexText, indexOf. intros [-> | (n & ->)];
    apply hasChar_number; (reflexivity || discriminate).
Qed.

(** X15. A generated file is served back. On a server whose working
    directory is in order, for a request whose directory name is one
    path segment (a user id without slash) and whose chunk index has
    no slash in its text (any number, or none), when the single-chunk
    route answers with success and the name of the new file was not
    served before (a 404), then: the voice is a string, [null] or
    missing; the audio is what the provider answered (the decoded
    hexadecimal string for MiniMax, the concatenated stream for
    ElevenLabs); the file name is built from the provider, the cleaned
    voice, the text of the chunk index and the clock; [audioUrl] is
    [/api/temp-audio/] followed by that name; [duration] is
    [ceil(length / 15)]; and a [GET] of that name on the files left by
    the request answers 200 with exactly that audio; the working
    directory is still in order. *)
Theorem POST_then_GET (request : Request) (env : Env) (body : Success) (root' : Node) :
  tidy (files env) ->
  plain (requestDirName request env) = true ->
  hasChar "/" (indexText request) = false ->
  POST request env = (Json body, root') ->
  GET (files env) (filename body) = TempAudio.JsonError 404 "File not found" ->
  exists text_ provider_ cleaned audio,
    text request = Some text_ /\ provider request = Some provider_ /\
    cleanVoice (voice request) = Returned cleaned /\
    audioBuffer env text_ provider_ request (indexOf request) = Returned audio /\
    filename body
    = tempFileName provider_ cleaned (indexText request) (nowFile env) /\
    audioUrl body = "/api/temp-audio/" ++ filename body /\
    duration body = estimate (length text_) /\
    GET (withRoot (files env) root') (filename body)
    = Audio audio (string_of_nat (length audio)) /\
    tidy (withRoot (files env) root').
Proof.
  intros Ht Hd Hi Hp Hg.
  destruct (POST_success _ _ Hp)
    as (text_ & provider_ & cleaned & root1 & audio & Et & Ep & K & Hv & He & Ha & Hw & ->).
  cbv zeta in *.
  set (name := tempFileName provider_ cleaned (indexText request) (nowFile env)) in *.
  assert (Hz : hasChar Ascii.zero (indexText request) = false).
  { apply (@wellFormed_name (segments (tempDirForRequest request env)) provider_
                            (voice request) cleaned (indexText request) (nowFile env)
                            K Hv).
    exact (writeFile_wellFormed _ _ _ _ Hw). }
  assert (Hn : plain name = true)
    by (exact (@tempFileName_plain provider_ (voice request) cleaned
                                   (indexText request) (nowFile env) K Hv Hi Hz)).
  assert (Hb : basename (join (segments (tempDirForRequest request env)) [name]) = name).
  { rewrite (@join_plain _ [name]) by (repeat constructor; exact Hn).
    unfold basename. cbn [segments]. apply last_last. }
  cbn [filename audioUrl duration] in *. rewrite Hb in *.
  change (tempDirForRequest request env)
    with (join (tempAudioDir (files env)) [requestDirName request env]) in He, Hw.
  destruct (@store_then_serve (files env) (requestDirName request env) name audio
                              (writeRefused env) Hd Hn
                              (@requestDir_differs request env provider_ cleaned
                                                   (indexText request) (nowFile env) K)
                              root1 root' Ht He Hw Hg) as (Hserve & Htidy).
  exists text_, provider_, cleaned, audio. repeat split; auto.
Qed.

Lemma POST_then_GET_witness :
  tidy sample_world /\
  plain (requestDirName sample_single sample_env) = true /\
  hasChar "/" (indexText sample_single) = false /\
  exists body root',
    POST sample_single sample_env = (Json body, root') /\
    GET (withRoot sample_world root') (filename body) = Audio [73; 68; 51]%Z "3".
Proof.
  assert (Ht : tidy (files sample_env)).
  { exists [(".env", File [75; 69; 89]%Z);
            ("temp-audio-processing", Dir sample_entries)].
    split; [reflexivity|]. cbn. split; repeat constructor. intros []. }
  assert (Hd : plain (requestDirName sample_single sample_env) = true) by reflexivity.
  assert (Hi : hasChar "/" (indexText sample_single) = false) by reflexivity.
  split; [exact Ht|]. split; [exact Hd|]. split; [exact Hi|].
  destruct (POST sample_single sample_env) as [resp root'] eqn:Hp.
  assert (Hj : exists body, resp = Json body).
  { apply (f_equal fst) in Hp. cbn [fst] in Hp. rewrite <- Hp. eexists. reflexivity. }
  destruct Hj as (body & ->).
  assert (Hf : filename body = "minimax-English_radiant_girl-chunk0-8.mp3").
  { apply (f_equal fst) in Hp. cbn [fst] in Hp.
    apply (f_equal (fun r => match r with Json b => filename b | _ => "" end)) in Hp.
    cbn [filename] in Hp. rewrite <- Hp. reflexivity. }
  assert (Hg : GET (files sample_env) (filename body)
               = TempAudio.JsonError 404 "File not found")
    by (rewrite Hf; reflexivity).
  destruct (@POST_then_GET sample_single sample_env body root' Ht Hd Hi Hp Hg)
    as (text_ & provider_ & cleaned & audio & _ & Ep & _ & Ha & _ & _ & _ & Hserve & _).
  exists body, root'. split; [reflexivity|].
  injection Ep as <-. injection Ha as <-. exact Hserve.
Defined.

(** The chunk index is pasted into the name of the file as it comes,
    and [path.join] resolves the [/] and [..] in it. With the index
    [/../../../x] the audio of the sample request is written into the
    working directory, the answer names the file [x-8.mp3], and a [GET]
    of that name finds nothing. *)
Lemma chunkIndex_escapes_sample :
  let request :=
    {| text := Some hello; provider := Some "minimax";
       voice := Some (JString "v"); model := None; elevenLabsVoiceId := None;
       chunkIndex := Some (JString "/../../../x"); userId := Some "demo_user" |} in
  (option_map filename
              match fst (POST request sample_env) with
              | Json body => Some body
              | _ => None
              end,
   readFile (snd (POST request sample_env))
            {| segments := ["app"; "x-8.mp3"]; trailing := false; wellFormed := true |},
   GET (withRoot sample_world (snd (POST request sample_env))) "x-8.mp3")
  = (Some "x-8.mp3", Some [73; 68; 51]%Z, TempAudio.JsonError 404 "File not found").
Proof. vm_compute. reflexivity. Qed.

(** The number 5 as voice passes the validation and fails at
    [replace], before the provider is called; the chunk index [a/b]
    names a directory that does not exist, and the write fails after
    the provider has answered. Both are answered with a 500. *)
Lemma untyped_fields_sample :
  (fst (POST {| text := Some hello; provider := Some "minimax";
                voice := Some (JNumber 5); model := None; elevenLabsVoiceId := None;
                chunkIndex := None; userId := Some "demo_user" |} sample_env),
   fst (POST {| text := Some hello; provider := Some "minimax";
                voice := Some (JString "v"); model := None; elevenLabsVoiceId := None;
                chunkIndex := Some (JString "a/b"); userId := Some "demo_user" |}
             sample_env))
  = (Single.JsonError 500 "Failed to generate audio: voice?.replace is not a function",
     Single.JsonError 500
       ("Failed to generate audio: ENOENT: no such file or directory, open "
        ++ "'/app/temp-audio-processing/chunk-demo_user-7/minimax-v-chunka/b-8.mp3'")).
Proof. vm_compute. reflexivity. Qed.

End SingleExtras.

Section BatchOverSingle.
Import Js TempAudio Single.
Local Open Scope string_scope.

(** What the batch route's validation leaves for the single-chunk
    route to check. *)
Lemma valid_validate (request : Route.Request) (p : string) (c : Route.ReqChunk)
      (t : jsstring) :
  Route.valid request = true -> Route.provider request = Some p ->
  knownProvider p /\
  validate (singleRequest (Route.gen_request request p c t)) p = None.
Proof.
  unfold Route.valid. intros V Ep. rewrite Ep in V.
  destruct (Route.chunks request) as [[|? ?]|]; try discriminate.
  unfold validate, singleRequest, Route.gen_request.
  cbn [voice elevenLabsVoiceId Route.g_voice Route.g_elevenLabsVoiceId].
  destruct (String.eqb_spec p "minimax") as [->|Hm].
  - cbn in V. rewrite orb_false_r in V. apply negb_true_iff in V.
    split; [now left|].
    destruct (Route.voice request) as [[|? ?]|]; try discriminate V. reflexivity.
  - cbn [andb orb] in V. destruct (String.eqb_spec p "elevenlabs") as [->|He];
      [|discriminate].
    cbn in V. apply negb_true_iff in V. rewrite V. split; [now right | reflexivity].
Qed.

(** The batch route sends a voice that is a string, if any, and a
    number as chunk index. *)
Lemma singleRequest_typed (g : Route.GenRequest) :
  cleanVoice (voice (singleRequest g)) = Returned (option_map sanitize (Route.g_voice g)) /\
  indexText (singleRequest g) = string_of_nat (Route.g_chunkIndex g).
Proof.
  split.
  - unfold singleRequest. cbn [voice]. now destruct (Route.g_voice g).
  - unfold indexText, indexOf, singleRequest. cbn [chunkIndex]. apply toString_nat.
Qed.

Lemma singleRequest_loggable (g : Route.GenRequest) :
  loggable (singleRequest g) = true.
Proof. unfold loggable, singleRequest. cbn [voice chunkIndex]. now destruct (Route.g_voice g). Qed.

(** After its validation the single-chunk route answers 200, or 500
    with a generation failure, or rejects. *)
Lemma POST_after_validation (request : Request) (env : Env) (t : jsstring) (p : string)
      (cleaned : option string) :
  text request = Some t -> t <> [] -> provider request = Some p ->
  knownProvider p -> validate request p = None ->
  cleanVoice (voice request) = Returned cleaned ->
  hasChar "/" (indexText request) = false ->
  hasChar Ascii.zero (indexText request) = false ->
  match fst (POST request env) with
  | Json body =>
      filename body = tempFileName p cleaned (indexText request) (nowFile env) /\
      audioUrl body = "/api/temp-audio/" ++ filename body /\
      duration body = estimate (length t)
  | Single.JsonError status e =>
      status = 500 /\ exists m, e = "Failed to generate audio: " ++ m
  | Unhandled _ => True
  end.
Proof.
  intros Et Hne Ep K V Hv Hs Hz. unfold POST. cbv zeta.
  destruct (loggable request); [|exact I]. cbn [negb]. rewrite Et, Ep, V.
  destruct t as [|u t]; [congruence|]. cbn [length Nat.eqb orb].
  replace (String.length p =? 0)%nat with false by (destruct K as [-> | ->]; reflexivity).
  destruct (ensureDir (root (files env)) (tempDirForRequest request env)) as [root1|];
    [|exact I].
  unfold generateSingleAudioChunk. cbv zeta.
  fold (indexOf request). fold (indexText request). rewrite Hv.
  set (name := tempFileName p cleaned (indexText request) (nowFile env)).
  assert (Hb : basename (join (segments (tempDirForRequest request env)) [name]) = name).
  { rewrite (@join_plain _ [name])
      by (repeat constructor;
          exact (@tempFileName_plain p (voice request) cleaned (indexText request)
                                     (nowFile env) K Hv Hs Hz)).
    unfold basename. cbn [segments]. apply last_last. }
  destruct (audioBuffer env (u :: t) p request (indexOf request)) as [audio|m];
    cbn [fst].
  - destruct (writeFile (writeRefused env) root1 _ audio) as [root2|m]; cbn [fst].
    + cbn [filename audioUrl duration]. rewrite Hb. auto.
    + split; [reflexivity | eauto].
  - split; [reflexivity | eauto].
Qed.

(** X16. The two validations agree. When the [fetch] of the batch
    route reaches the single-chunk route, a chunk of a request that
    passed the validation of the batch route is refused by the
    single-chunk route only for an empty text, with its message about
    the missing fields. A chunk with text succeeds exactly when the
    single-chunk route answers 200, and then carries a file name of one
    path segment, the [audioUrl] [/api/temp-audio/] followed by that
    name and the duration [ceil(length / 15)]; it fails with the
    message [Failed to generate audio: ...] of a 500, never with a
    400, or with [Unknown error] when the handler rejects. *)
Theorem batch_over_single (request : Route.Request) (p : string)
        (envs : nat -> Env) (i : nat) (c : Route.ReqChunk) (t : jsstring) :
  Route.valid request = true -> Route.provider request = Some p ->
  Route.text c = Some t ->
  let r := Route.chunk_result request p (viaSingle envs) i c in
  Route.chunkIndex r = Route.index c /\
  (t = [] -> Route.success r = false /\ Route.error r = Some missingFields) /\
  (t <> [] ->
   match fst (POST (singleRequest (Route.gen_request request p c t)) (envs i)) with
   | Json body =>
       Route.success r = true /\ Route.error r = None /\
       Route.filename r = Some (filename body) /\
       Route.audioUrl r = Some ("/api/temp-audio/" ++ filename body) /\
       Route.duration r = Some (estimate (length t)) /\
       plain (filename body) = true
   | Single.JsonError status e =>
       status = 500 /\ Route.success r = false /\ Route.error r = Some e /\
       exists m, e = "Failed to generate audio: " ++ m
   | Unhandled _ =>
       Route.success r = false /\ Route.error r = Some "Unknown error"
   end).
Proof.
  intros V Ep Et r. split; [apply chunk_result_index|].
  destruct (@valid_validate request p c t V Ep) as (K & Hv).
  unfold r, Route.chunk_result, viaSingle. rewrite Et.
  set (g := Route.gen_request request p c t) in *.
  split.
  - intros ->. unfold POST. cbv zeta. rewrite singleRequest_loggable. cbn [negb].
    cbn [text singleRequest Route.g_text g
                                            Route.gen_request provider length Nat.eqb orb].
    split; reflexivity.
  - intros Hne.
    destruct (singleRequest_typed g) as (Hcv & Hix).
    assert (Hs : hasChar "/" (indexText (singleRequest g)) = false)
      by (rewrite Hix; now apply hasChar_uint).
    assert (Hz : hasChar Ascii.zero (indexText (singleRequest g)) = false)
      by (rewrite Hix; now apply hasChar_uint).
    pose proof (@POST_after_validation (singleRequest g) (envs i) t p _
                  eq_refl Hne eq_refl K Hv Hcv Hs Hz) as H.
    destruct (fst (POST (singleRequest g) (envs i))) as [body|status e|m];
      cbn [answer].
    + destruct H as (Hf & Hu & Hd).
      cbn [Route.success Route.error Route.filename Route.audioUrl Route.duration
           Route.d_audioUrl Route.d_duration Route.d_filename].
      rewrite Hu, Hd. repeat split; try reflexivity.
      rewrite Hf.
      exact (@tempFileName_plain p _ _ _ (nowFile (envs i)) K Hcv Hs Hz).
    + destruct H as (-> & m & ->). split; [reflexivity|].
      cbn [Route.failure Route.success Route.error].
      split; [reflexivity|]. split; [reflexivity | eauto].
    + split; reflexivity.
Qed.

Lemma batch_over_single_witness :
  Route.valid (Samples.sample_request [Some hello_chunk]) = true /\
  Route.success (Route.chunk_result (Samples.sample_request [Some hello_chunk])
                                    "minimax" (viaSingle (fun _ => sample_env))
                                    0 hello_chunk) = true.
Proof.
  assert (V : Route.valid (Samples.sample_request [Some hello_chunk]) = true)
    by reflexivity.
  split; [exact V|].
  destruct (@batch_over_single (Samples.sample_request [Some hello_chunk]) "minimax"
                               (fun _ => sample_env) 0 hello_chunk hello
                               V eq_refl eq_refl)
    as (_ & _ & H).
  specialize (H ltac:(discriminate)).
  destruct H as (Hs & _). exact Hs.
Defined.

End BatchOverSingle.

Section FailedRequest.
Import Js TempAudio Single.
Local Open Scope string_scope.




End FailedRequest.

Section RequestDirectory.
Import Js TempAudio Single.
Local Open Scope string_scope.

(** X20. The directory of a request is not confined either. Its name
    is built from the user id as it comes, and [path.join] resolves the
    [/] and [..] in it: for a user id made of [/], then [k + 1] times
    [../], then a name [u], the directory that the route makes and
    writes to is [u-<time>] at [k] levels above
    [temp-audio-processing], outside it as soon as [k >= 1]. *)
Theorem request_directory_follows_userId (request : Request) (env : Env) (k : nat)
        (u : string) :
  userId request = Some ("/" ++ ups (S k) ++ u) ->
  plain (u ++ "-" ++ string_of_nat (nowDir env)) = true ->
  tempDirForRequest request env
  = {| segments := (climb k (tempAudioDir (files env))
                    ++ [(u ++ "-" ++ string_of_nat (nowDir env))%string])%list;
       trailing := false; wellFormed := true |}.
Proof.
  intros Eu Hp. destruct (plain_spec _ Hp) as (Hs & Hz & _).
  set (rest := u ++ "-" ++ string_of_nat (nowDir env)) in *.
  unfold tempDirForRequest. rewrite Eu. cbv zeta.
  assert (E : "chunk-" ++ ("/" ++ ups (S k) ++ u) ++ "-" ++ string_of_nat (nowDir env)
              = "chunk-" ++ String "/" (ups (S k) ++ rest)).
  { unfold rest. f_equal. change ("/" ++ ups (S k) ++ u) with (String "/" (ups (S k) ++ u)).
    cbn [append]. f_equal. now rewrite append_assoc. }
  rewrite E. unfold join. cbn [filter String.eqb negb append flat_map last existsb].
  rewrite app_nil_r. f_equal.
  - change (String "c" (String "h" (String "u" (String "n" (String "k" (String "-"
              (String "/" (ups (S k) ++ rest))))))))
      with ("chunk-" ++ String "/" (ups (S k) ++ rest)).
    rewrite splitSlash_app_slash by reflexivity.
    rewrite splitSlash_ups, (splitSlash_plain _ Hs).
    cbn [fold_left]. rewrite fold_left_app, fold_ups.
    change (normalizeStep (tempAudioDir (files env)) "chunk-")
      with (tempAudioDir (files env) ++ ["chunk-"])%list.
    unfold climb. rewrite Nat.iter_succ_r, removelast_last.
    cbn [fold_left]. now apply normalizeStep_plain.
  - change (String "c" (String "h" (String "u" (String "n" (String "k" (String "-"
              (String "/" (ups (S k) ++ rest))))))))
      with (("chunk-" ++ String "/" (ups (S k))) ++ rest).
    rewrite endsWithSlash_app; [now apply endsWithSlash_plain|].
    intros E'. rewrite E' in Hp. discriminate.
  - apply negb_true_iff. cbn [hasChar]. rewrite orb_false_r.
    change (hasChar zero (ups (S k) ++ rest)) with (hasChar zero (ups k ++ rest)).
    rewrite hasChar_app, ups_facts, Hz. reflexivity.
Qed.

Lemma request_directory_follows_userId_witness :
  plain ("x" ++ "-" ++ string_of_nat 7) = true /\
  segments (tempDirForRequest
              {| text := Some hello; provider := Some "minimax";
                 voice := Some (JString "v"); model := None;
                 elevenLabsVoiceId := None;
                 chunkIndex := None; userId := Some "/../../x" |}
              sample_env)
  = ["app"; "x-7"].
Proof.
  split; [reflexivity|].
  exact (f_equal segments
           (@request_directory_follows_userId
              {| text := Some hello; provider := Some "minimax";
                 voice := Some (JString "v"); model := None;
                 elevenLabsVoiceId := None;
                 chunkIndex := None; userId := Some "/../../x" |}
              sample_env 1 "x" eq_refl eq_refl)).
Defined.

End RequestDirectory.

(* ================================================================== *)
(** * The word count *)

Section WordExtras.
Import Js Scheduler.

Lemma splitWs_count (s : jsstring) :
  forall piece inSep,
    (inSep = true -> piece = []) ->
    length (filter (fun word => 0 <? length word) (splitWs s piece inSep))
    = wordsFrom s (0 <? length piece).
Proof.
  induction s as [|c r IH]; intros piece inSep Hsep; cbn [splitWs wordsFrom].
  - cbn [filter]. rewrite length_rev. now destruct (0 <? length piece).
  - destruct (is_ws c).
    + destruct inSep.
      * rewrite (Hsep eq_refl). cbn [length Nat.ltb Nat.leb]. now apply IH.
      * cbn [filter]. rewrite length_rev.
        destruct (0 <? length piece); cbn [length]; now rewrite IH.
    + rewrite IH by discriminate. reflexivity.
Qed.

Lemma wordsFrom_ws_left (l s : jsstring) :
  all_ws l -> wordsFrom (l ++ s) false = wordsFrom s false.
Proof.
  unfold all_ws. induction l as [|c l IH]; cbn [app forallb wordsFrom]; [reflexivity|].
  destruct (is_ws c); cbn [andb]; [exact IH | discriminate].
Qed.

Lemma wordsFrom_ws_right (s r : jsstring) :
  all_ws r -> forall inWord, wordsFrom (s ++ r) inWord = wordsFrom s inWord.
Proof.
  intros Hr. induction s as [|c s IH]; intros inWord; cbn [app wordsFrom].
  - unfold all_ws in Hr. revert inWord.
    induction r as [|x r IHr]; intros inWord; cbn [wordsFrom]; [reflexivity|].
    cbn [forallb] in Hr. destruct (is_ws x); [|discriminate].
    rewrite (IHr Hr false). now destruct inWord.
  - destruct (is_ws c); now rewrite IH.
Qed.

Lemma wordsFrom_join (a b : jsstring) (u : char) :
  is_ws u = true ->
  forall inWord, wordsFrom (a ++ u :: b) inWord = wordsFrom a inWord + wordsFrom b false.
Proof.
  intros Hu. induction a as [|c a IH]; intros inWord; cbn [app wordsFrom].
  - now rewrite Hu.
  - destruct (is_ws c); rewrite IH; lia.
Qed.

Lemma wordsFrom_zero (s : jsstring) : wordsFrom s false = 0 <-> all_ws s.
Proof.
  unfold all_ws. induction s as [|c s IH]; cbn [wordsFrom forallb]; [tauto|].
  destruct (is_ws c) eqn:E; cbn [andb Nat.add]; [exact IH|].
  split; [|discriminate]. intros H. exfalso.
  assert (forall t, 1 <= wordsFrom t true).
  { clear. induction t as [|x t IHt]; cbn [wordsFrom]; [lia|].
    destruct (is_ws x); lia. }
  specialize (H0 s). lia.
Qed.

Lemma getWordCount_eq (st : State) : getWordCount st = wordsFrom (st_text st) false.
Proof.
  unfold getWordCount. rewrite splitWs_count by discriminate. cbn [length Nat.ltb Nat.leb].
  destruct (trim_decomp (st_text st)) as (l & r & E & Hl & Hr).
  rewrite E at 2. rewrite wordsFrom_ws_left by exact Hl.
  now rewrite wordsFrom_ws_right by exact Hr.
Qed.

(** A word is counted where it starts as well as where it ends. *)
Lemma wordsFrom_starts (s : jsstring) :
  forall before : char,
    wordsFrom s (negb (is_ws before))
    = (if is_ws before then 0 else 1)
      + length (filter startsWord (combine (before :: s) s)).
Proof.
  induction s as [|c s IH]; intros before.
  - cbn. destruct (is_ws before); reflexivity.
  - change (combine (before :: c :: s) (c :: s))
      with ((before, c) :: combine (c :: s) s).
    cbn [wordsFrom filter]. unfold startsWord at 1. cbn [fst snd].
    destruct (is_ws c) eqn:Ec.
    + specialize (IH c). rewrite Ec in IH. cbn [negb] in IH |- *. rewrite IH.
      rewrite andb_false_r. destruct (is_ws before); reflexivity.
    + specialize (IH c). rewrite Ec in IH. cbn [negb] in IH |- *. rewrite IH.
      rewrite andb_true_r. destruct (is_ws before); cbn [length]; lia.
Qed.

(** X17. What the word counter counts. The count shown under the text
    box is the number of maximal runs of units that are not white
    space, whatever their length: the number of units that are not
    white space and stand at the head of the text or right after a
    white-space unit. So it is zero exactly for a blank text, it does
    not change when white space is put around the text, and the count
    of two texts joined by a white-space unit is the sum of their
    counts. *)
Theorem getWordCount_words (st : State) :
  getWordCount st = wordStarts (st_text st) /\
  (getWordCount st = 0 <-> all_ws (st_text st)) /\
  (forall l r, all_ws l -> all_ws r ->
               getWordCount (setText (l ++ st_text st ++ r) st) = getWordCount st) /\
  (forall a b u, is_ws u = true -> st_text st = a ++ u :: b ->
                 getWordCount st
                 = getWordCount (setText a st) + getWordCount (setText b st)).
Proof.
  rewrite !getWordCount_eq. split.
  - exact (wordsFrom_starts (st_text st) space).
  - split; [apply wordsFrom_zero|]. split.
    + intros l r Hl Hr. rewrite getWordCount_eq. cbn [setText st_text].
      rewrite wordsFrom_ws_left by exact Hl. now apply wordsFrom_ws_right.
    + intros a b u Hu E. rewrite !getWordCount_eq. cbn [setText st_text].
      rewrite E. now apply wordsFrom_join.
Qed.

(** Two words of three letters, with white space around them. *)
Lemma getWordCount_sample :
  getWordCount (setText (of_string "  one   two ") initialState) = 2.
Proof. reflexivity. Qed.

End WordExtras.

(* ================================================================== *)
(** * Runs on the live page *)

Section LiveFacts.
Import Scheduler Live.

(** What a handler of the page leaves of the three cells that a run
    writes: none writes the progress, only [handleTextChange] writes
    the jobs, and none shows a summary. *)
Lemma handle_cells (e : UserEvent) (st : State) :
  batchProgress (handle e st) = batchProgress st /\
  audioChunks (handle e st) = (if isEdit e then [] else audioChunks st) /\
  (isSummary (message st) = false -> isSummary (message (handle e st)) = false).
Proof.
  destruct e as [|newText|p|v|m|f|]; cbn [handle isEdit].
  - unfold handlePauseResume. cbn. split; [reflexivity|]. split; [reflexivity|].
    intros _. now destruct (isPaused st).
  - unfold handleTextChange. cbv zeta.
    destruct (0 <? length (Js.trim newText)); [|cbn; auto].
    destruct (chunkSize (selectedProvider st)); [|cbn; auto].
    destruct (Chunker.chunkText (Js.trim newText) z); cbn; auto.
  - unfold Page.handleProviderChange. cbv zeta.
    destruct (Page.TTS_PROVIDERS p) as [[n size [|voice voices] models]|];
      cbn [Page.voices Page.provider_chunkSize];
      destruct (String.eqb p "minimax");
      destruct (0 <? length (Js.trim (st_text st)));
      try (destruct (Chunker.chunkText (Js.trim (st_text st)) size));
      cbn; auto.
  - cbn. auto.
  - cbn. auto.
  - unfold handleDownloadAllAsZip. cbv zeta.
    destruct (length (filter isCompleted (audioChunks st)) =? 0); cbn; auto.
  - cbn. auto.
Qed.

Lemma happen_cells (events : list UserEvent) :
  forall st,
    batchProgress (happen events st) = batchProgress st /\
    audioChunks (happen events st)
    = (if existsb isEdit events then [] else audioChunks st) /\
    (isSummary (message st) = false ->
     isSummary (message (happen events st)) = false).
Proof.
  unfold happen.
  induction events as [|e events IH]; intros st; cbn [fold_left existsb].
  - auto.
  - destruct (IH (handle e st)) as (Hp & Ha & Hm).
    destruct (handle_cells e st) as (Hp' & Ha' & Hm').
    rewrite Hp, Hp', Ha, Ha'. split; [reflexivity|]. split.
    + now destruct (isEdit e), (existsb isEdit events).
    + intros H. apply Hm, Hm', H.
Qed.

(** Clicks on Pause/Resume are the events of [Scheduler.World]. *)
Lemma happen_clicks (n : nat) :
  forall st, happen (repeat PauseResume n) st = userClicks n st.
Proof.
  induction n as [|n IH]; intros st; [reflexivity|].
  cbn [repeat userClicks]. unfold happen in *. cbn [fold_left handle]. apply IH.
Qed.

(** A run in which only Pause/Resume is clicked is a run of
    [Scheduler]. *)
Lemma clicksOnly_run (env : State) (w : World) :
  Live.handleGenerateAudio env (clicksOnly w) = Scheduler.handleGenerateAudio env w.
Proof.
  assert (Hi : forall T k st,
             Live.iteration env (clicksOnly w) T k st = Scheduler.iteration env w T k st).
  { intros T k st. unfold Live.iteration, Scheduler.iteration.
    cbn [eventsInFlight eventsInDelay outside clicksOnly].
    now rewrite !happen_clicks. }
  assert (Hl : forall T n k st,
             Live.batchLoop env (clicksOnly w) T n k st
             = Scheduler.batchLoop env w T n k st).
  { intros T n. induction n as [|n IH]; intros k st; cbn [Live.batchLoop Scheduler.batchLoop];
      [reflexivity|].
    destruct (isPaused env); [reflexivity|]. now rewrite Hi, IH. }
  unfold Live.handleGenerateAudio, Scheduler.handleGenerateAudio.
  destruct (guard env); [reflexivity|]. cbv zeta. now rewrite Hl.
Qed.

Variable env : State.
Variable s : Session.
Hypothesis Hrun : isPaused env = false.

(** A pass on the live page and the same pass on the quiet one: the
    progress is the same, and the jobs are the same until the text is
    edited, from when on there is none. *)
Lemma iteration_live (T k : nat) (st quiet : State) (gone : bool) :
  batchProgress st = batchProgress quiet ->
  audioChunks st = (if gone then [] else audioChunks quiet) ->
  batchProgress (Live.iteration env s T k st)
  = batchProgress (Scheduler.iteration env (outside s) T k quiet) /\
  audioChunks (Live.iteration env s T k st)
  = (if gone || editedIn env s T k then []
     else audioChunks (Scheduler.iteration env (outside s) T k quiet)).
Proof.
  intros Hp Ha. split.
  - rewrite iteration_batchProgress. unfold Live.iteration. cbv zeta.
    destruct ((k <? T - 1) && negb (isPaused env));
      [rewrite (proj1 (happen_cells _ _))|];
      unfold settle;
      destruct (processBatch env (outside s) (batchOf env k) k);
      cbn [batchProgress setBatchProgress setAudioChunks showMessage setMessage];
      rewrite (proj1 (happen_cells _ _));
      cbn [batchProgress setBatchProgress setAudioChunks];
      rewrite Hp; destruct (batchProgress quiet); reflexivity.
  - rewrite iteration_audioChunks. unfold Live.iteration, editedIn. cbv zeta.
    rewrite Hrun. cbn [negb]. rewrite andb_true_r.
    destruct (k <? T - 1); cbn [andb];
      [rewrite (proj1 (proj2 (happen_cells _ _)))|];
      unfold settle;
      destruct (processBatch env (outside s) (batchOf env k) k);
      cbn [audioChunks setBatchProgress setAudioChunks showMessage setMessage];
      rewrite (proj1 (proj2 (happen_cells _ _)));
      cbn [audioChunks setBatchProgress setAudioChunks];
      rewrite Ha;
      destruct gone, (existsb isEdit (eventsInFlight s k));
      try destruct (existsb isEdit (eventsInDelay s k));
      cbn [orb map]; rewrite ?map_map; reflexivity.
Qed.

Lemma batchLoop_live (T n : nat) :
  forall (k : nat) (st quiet : State) (gone : bool),
    batchProgress st = batchProgress quiet ->
    audioChunks st = (if gone then [] else audioChunks quiet) ->
    batchProgress (Live.batchLoop env s T n k st)
    = batchProgress (Scheduler.batchLoop env (outside s) T n k quiet) /\
    audioChunks (Live.batchLoop env s T n k st)
    = (if gone || existsb (editedIn env s T) (seq k n) then []
       else audioChunks (Scheduler.batchLoop env (outside s) T n k quiet)).
Proof.
  induction n as [|n IH]; intros k st quiet gone Hp Ha;
    cbn [Live.batchLoop Scheduler.batchLoop seq existsb].
  - rewrite orb_false_r. now split.
  - rewrite Hrun.
    destruct (iteration_live T k st quiet gone Hp Ha) as (Hp' & Ha').
    destruct (IH (S k) _ _ _ Hp' Ha') as (Hp2 & Ha2).
    split; [exact Hp2|]. rewrite Ha2. now rewrite orb_assoc.
Qed.

Lemma batchLoop_live_summary (T n : nat) :
  forall k st,
    isSummary (message st) = false ->
    isSummary (message (Live.batchLoop env s T n k st)) = false.
Proof.
  induction n as [|n IH]; intros k st H; cbn [Live.batchLoop]; [exact H|].
  rewrite Hrun. apply IH. unfold Live.iteration. cbv zeta.
  assert (H4 : forall st3,
             isSummary (message st3) = false ->
             isSummary (message (settle (batchOf env k) k
                                        (processBatch env (outside s) (batchOf env k) k)
                                        st3)) = false).
  { intros st3 H3. unfold settle.
    destruct (processBatch env (outside s) (batchOf env k) k);
      cbn [message setBatchProgress setAudioChunks]; exact H3. }
  destruct ((k <? T - 1) && negb (isPaused env)).
  - apply (proj2 (proj2 (happen_cells _ _))). reflexivity.
  - apply H4. apply (proj2 (proj2 (happen_cells _ _))). exact H.
Qed.

(** The run on the live page against the run on the quiet one. *)
Lemma run_live :
  guard env = None ->
  batchProgress (Live.handleGenerateAudio env s)
  = batchProgress (Scheduler.handleGenerateAudio env (outside s)) /\
  audioChunks (Live.handleGenerateAudio env s)
  = (if edited env s then []
     else audioChunks (Scheduler.handleGenerateAudio env (outside s))) /\
  match batchProgress env with
  | Some before =>
      message (Live.handleGenerateAudio env s)
      = Some (Completed (completedChunks before) (totalChunks before)
                        (failedChunks before =? 0))
  | None => isSummary (message (Live.handleGenerateAudio env s)) = false
  end.
Proof.
  intros G.
  set (T := ceil_div (length (textChunks env)) batchSize).
  destruct (batchLoop_live T T 0 (started env) (started env) false eq_refl eq_refl)
    as (Hp & Ha).
  cbn [orb] in Ha.
  unfold Live.handleGenerateAudio, Scheduler.handleGenerateAudio, edited.
  rewrite G. cbv zeta. fold T.
  destruct (batchProgress env) as [before|];
    cbn [batchProgress audioChunks message setIsPaused setIsGenerating showMessage
         setMessage];
    (split; [exact Hp|]); (split; [exact Ha|]); [reflexivity|].
  now apply batchLoop_live_summary.
Qed.

End LiveFacts.

Section LiveExtras.
Import Scheduler Live.

(** X3. Jobs are settled one by one, unless the text is edited. In a
    run that passes the guards, with a provider of the table and
    distinct chunk indices, on a page where the user may meanwhile
    pause, type, change the provider, the voice or the model and
    export: when the text is not edited at any await of the run, the
    job at position [j] of the final list belongs to the text chunk at
    that position; when the [fetch] of its batch [j / batchSize] is
    rejected it is [failed] with that message; otherwise its fate is
    that of its own generation alone: [completed] with the fields of
    the answer when the generation answered with data, [failed] with a
    message in every other case. When the text is edited at some await
    of the run, the final list holds no job at all. *)
Theorem job_outcome (env : State) (s : Session) (j : nat) (c : Chunker.TextChunk) :
  guard env = None -> isPaused env = false ->
  knownProvider (selectedProvider env) ->
  NoDup (map Chunker.index (textChunks env)) ->
  nth_error (textChunks env) j = Some c ->
  (edited env s = false ->
   exists a,
     nth_error (audioChunks (Live.handleGenerateAudio env s)) j = Some a /\
     chunkIndex a = Chunker.index c /\ text a = Chunker.text c /\
     match transport (outside s) (j / batchSize) with
     | Some m => status a = failed /\ error a = Some m /\ audioUrl a = EmptyString
     | None =>
         match jobAnswer env (outside s) j c with
         | Route.OkData d =>
             status a = completed /\ error a = None /\
             audioUrl a = Js.or_else (Route.d_audioUrl d) EmptyString /\
             duration a = match Route.d_duration d with Some n => n | None => 0 end /\
             filename a = Js.or_else (Route.d_filename d) EmptyString
         | _ => status a = failed /\ exists m, error a = Some m
         end
     end) /\
  (edited env s = true -> audioChunks (Live.handleGenerateAudio env s) = []).
Proof.
  intros G R K D Hc.
  destruct (@run_live env s R G) as (_ & Ha & _).
  split; intros E; rewrite E in Ha; [|exact Ha].
  rewrite Ha. exact (@quiet_run_job env (outside s) j c G R K D Hc).
Qed.

Lemma job_outcome_witness :
  guard hello_env = None /\ isPaused hello_env = false /\
  nth_error (textChunks hello_env) 0 = Some (Chunker.whole hello) /\
  edited hello_env (busy_session 0) = false /\
  edited hello_env (editing_session 0) = true /\
  (exists a,
      nth_error (audioChunks (Live.handleGenerateAudio hello_env (busy_session 0))) 0
      = Some a /\
      status a = failed /\ exists m, error a = Some m) /\
  audioChunks (Live.handleGenerateAudio hello_env (editing_session 0)) = [].
Proof.
  assert (G : guard hello_env = None) by reflexivity.
  assert (R : isPaused hello_env = false) by reflexivity.
  assert (K : knownProvider (selectedProvider hello_env)) by (left; reflexivity).
  assert (Hc : nth_error (textChunks hello_env) 0 = Some (Chunker.whole hello))
    by reflexivity.
  assert (D : NoDup (map Chunker.index (textChunks hello_env))).
  { change (NoDup [0]). constructor; [intros []|constructor]. }
  assert (E1 : edited hello_env (busy_session 0) = false) by reflexivity.
  assert (E2 : edited hello_env (editing_session 0) = true) by reflexivity.
  split; [exact G|]. split; [exact R|]. split; [exact Hc|].
  split; [exact E1|]. split; [exact E2|].
  destruct (@job_outcome hello_env (busy_session 0) 0 (Chunker.whole hello) G R K D Hc)
    as (H1 & _).
  destruct (@job_outcome hello_env (editing_session 0) 0 (Chunker.whole hello) G R K D Hc)
    as (_ & H2).
  split; [|exact (H2 E2)].
  destruct (H1 E1) as (a & Ha & _ & _ & Hs).
  exists a. split; [exact Ha|]. exact Hs.
Defined.

(** X19. The counters count the chunks of the run, not the jobs on the
    page; the summary counts neither. In a run that passes the guards
    with the pause flag clear and distinct chunk indices, whatever the
    user does at the awaits: the progress at the end is the one of the
    same run on a page left alone, [completedChunks] and
    [failedChunks] together are [totalChunks], the number of text
    chunks of the render that started the run. When the text is not
    edited during the run these are the numbers of [completed] and of
    [failed] jobs of the list; when it is edited, the list is empty
    and the counters stand all the same. The summary message is built
    from the [batchProgress] of the render that started the run: it
    shows the counters that were on the page before the click, and on
    a page without progress no summary is shown at all. *)
Theorem counters_match_jobs (env : State) (s : Session) :
  guard env = None -> isPaused env = false ->
  NoDup (map Chunker.index (textChunks env)) ->
  (exists p,
      batchProgress (Live.handleGenerateAudio env s) = Some p /\
      batchProgress (Scheduler.handleGenerateAudio env (outside s)) = Some p /\
      completedChunks p + failedChunks p = totalChunks p /\
      totalChunks p = length (textChunks env) /\
      (edited env s = false ->
       completedChunks p
       = length (filter isCompleted (audioChunks (Live.handleGenerateAudio env s))) /\
       failedChunks p
       = length (filter isFailed (audioChunks (Live.handleGenerateAudio env s)))) /\
      (edited env s = true ->
       audioChunks (Live.handleGenerateAudio env s) = [])) /\
  match batchProgress env with
  | Some before =>
      message (Live.handleGenerateAudio env s)
      = Some (Completed (completedChunks before) (totalChunks before)
                        (failedChunks before =? 0))
  | None => isSummary (message (Live.handleGenerateAudio env s)) = false
  end.
Proof.
  intros G R D.
  destruct (@run_live env s R G) as (Hp & Ha & Hm).
  split; [|exact Hm].
  destruct (@counters_quiet env (outside s) G R D)
    as ((p & Hq & Hc & Hf & Hsum & Htot) & _).
  exists p. rewrite Hp. split; [exact Hq|]. split; [exact Hq|].
  split; [exact Hsum|]. split; [exact Htot|].
  split; intros E; rewrite E in Ha; rewrite Ha; [|reflexivity].
  split; [exact Hc | exact Hf].
Qed.

Lemma counters_match_jobs_witness :
  guard hello_env = None /\ isPaused hello_env = false /\
  edited hello_env (editing_session 0) = true /\
  exists p,
    batchProgress (Live.handleGenerateAudio hello_env (editing_session 0)) = Some p /\
    completedChunks p + failedChunks p = 1 /\
    audioChunks (Live.handleGenerateAudio hello_env (editing_session 0)) = [].
Proof.
  assert (G : guard hello_env = None) by reflexivity.
  assert (R : isPaused hello_env = false) by reflexivity.
  assert (D : NoDup (map Chunker.index (textChunks hello_env))).
  { change (NoDup [0]). constructor; [intros []|constructor]. }
  assert (E : edited hello_env (editing_session 0) = true) by reflexivity.
  split; [exact G|]. split; [exact R|]. split; [exact E|].
  destruct (@counters_match_jobs hello_env (editing_session 0) G R D)
    as ((p & Hp & _ & Hsum & Htot & _ & He) & _).
  exists p. split; [exact Hp|]. split; [|exact (He E)].
  rewrite Hsum, Htot. reflexivity.
Defined.

End LiveExtras.
